(** * AWS spot provisioner: a shallow embedding of [aws_spot.go]

    The development follows
    [master/internal/rm/agentrm/provisioner/aws_spot.go]: the clock-skew
    state, the launch-offset retry wrapper, the reconciliation tick
    [listSpot], [terminateSpot] and the clock-skew calibration.

    Conventions.
    - [time.Duration] is Go's [int64] count of nanoseconds: a [Z] together
      with the wrap-around of every [+] written out ([wrap64]).
    - [time.Time] is an instant in nanoseconds, a [Z]; [Time.Add] does not
      wrap in the range of a [Duration], [Time.Sub] saturates.
    - a Go pointer to a string that the code dereferences without a test is
      an [option string]; dereferencing [None] is the run-time panic
      [Panic].
    - remote calls are answers of an explicit environment; what the code
      sends is recorded so that it can be inspected. *)

From Stdlib Require Import ZArith Lia String List Bool.
From stdpp Require Import gmap strings list fin_maps.

Set Warnings "-clear-no-such-hyp".

Local Open Scope Z_scope.

(** ** Go's [time] package, as far as the provisioner uses it *)

Module GoTime.

Definition Duration := Z.
Definition Time := Z.

Definition minDuration : Duration := - 2 ^ 63.
Definition maxDuration : Duration := 2 ^ 63 - 1.

Definition Nanosecond : Duration := 1.
Definition Second : Duration := 1000000000.
Definition Hour : Duration := 3600 * Second.

(** The value of an [int64] expression after Go's silent wrap-around. *)
Definition wrap64 (z : Z) : Z := (z + 2 ^ 63) mod 2 ^ 64 - 2 ^ 63.

Definition in_int64 (z : Z) : Prop := minDuration <= z <= maxDuration.

(** [d1 + d2] on durations. *)
Definition dadd (d1 d2 : Duration) : Duration := wrap64 (d1 + d2).
(** [d1 - d2] on durations. *)
Definition dsub (d1 d2 : Duration) : Duration := wrap64 (d1 - d2).

(** [uint64(x)] of an [int64]. *)
Definition to_uint64 (x : Z) : Z := x mod 2 ^ 64.

(** [lessThanHalf] of [time/time.go]: [uint64(x)+uint64(x) < uint64(y)]. *)
Definition lessThanHalf (x y : Duration) : bool :=
  ((to_uint64 x + to_uint64 x) mod 2 ^ 64) <? to_uint64 y.

(** [Duration.Round] of [time/time.go]; [%] is Go's truncated remainder. *)
Definition Round (d m : Duration) : Duration :=
  if m <=? 0 then d
  else
    let r := Z.rem d m in
    if d <? 0 then
      let r := - r in
      if lessThanHalf r m then dadd d r
      else
        let d1 := dadd (dsub d m) r in
        if d1 <? d then d1 else minDuration
    else
      if lessThanHalf r m then dsub d r
      else
        let d1 := dsub (dadd d m) r in
        if d1 >? d then d1 else maxDuration.

(** [Time.Add]: instants are not confined to the [int64] range of a
    duration. *)
Definition Add (t : Time) (d : Duration) : Time := t + d.

(** [Time.Sub]: the difference, saturated to the range of a duration. *)
Definition Sub (t u : Time) : Duration :=
  if t - u <? minDuration then minDuration
  else if t - u >? maxDuration then maxDuration
  else t - u.

End GoTime.

Import GoTime.

(** ** Constants of the provisioner *)

Definition spotRequestIDPrefix : string := "sir-".
Definition launchTimeOffsetGrowth : Duration := Second * 10.

(** ** [roundDurationUp] *)

Definition roundInterval : Duration := Second * 10.

Definition roundDurationUp (d : Duration) : Duration :=
  let rounded := Round d roundInterval in
  if rounded <? d then dadd rounded roundInterval else rounded.

(** The durations on which rounding up to ten seconds stays inside
    [int64]. *)
Definition no_overflow (d : Duration) : Prop :=
  minDuration + roundInterval <= d <= maxDuration - roundInterval.

(** ** Data model *)

(** [spotRequest]: the three pointer fields are optional. *)
Record spotRequest := mkSpotRequest {
  SpotRequestID : string;
  State : string;
  StatusCode : option string;
  StatusMessage : option string;
  InstanceID : option string;
  CreationTime : Time;
}.

(** The AWS SDK's [ec2.SpotInstanceRequest]; every field is a pointer. *)
Record ec2SpotInstanceStatus := mkStatus {
  Code : option string;
  Message : option string;
}.

Record ec2SpotInstanceRequest := mkEc2Req {
  SpotInstanceRequestId : option string;
  ReqState : option string;
  Status : option ec2SpotInstanceStatus;
  InstanceId : option string;
  CreateTime : option Time;
}.

(** The AWS SDK's [ec2.Instance], as far as the provisioner reads it:
    [inst.State] and [inst.State.Name] are pointers. *)
Record ec2InstanceState := mkInstState { Name : option string }.

Record ec2Instance := mkEc2Instance {
  EC2InstanceId : option string;
  EC2LaunchTime : option Time;
  EC2State : option ec2InstanceState;
}.

(** Modelled from the spec: the shared enumeration of instance states of
    package [model] is declared outside the files at hand; the spec asks for
    a value "pending, not yet a real resource"; the source names it
    [model.SpotRequestPendingAWS] and also reads [model.Unknown]. *)
Inductive InstanceState :=
| Unknown
| SpotRequestPendingAWS
| RealState (name : string).

(** Modelled from the spec: the generic resource handle [model.Instance]
    with "identifier, launch time, display name, and a state value". *)
Record Instance := mkInstance {
  ID : string;
  LaunchTime : Time;
  AgentName : string;
  InstState : InstanceState;
}.

(** Go's [error]: an [awserr.Error] with its code and message, or any other
    error value. *)
Inductive goError :=
| AwsErr (code message : string)
| OtherErr (message : string).

(** [errors.Wrap err msg] is never an [awserr.Error] for the type assertion
    [err.(awserr.Error)]. *)
Definition Wrap (e : goError) (msg : string) : goError :=
  match e with
  | AwsErr code m => OtherErr (msg ++ ": " ++ code ++ ": " ++ m)
  | OtherErr m => OtherErr (msg ++ ": " ++ m)
  end.

(** A Go pair [(value, err)]. *)
Inductive res (A : Type) :=
| Success (a : A)
| Failure (e : goError).
Arguments Success {A} a.
Arguments Failure {A} e.

(** ** The request set *)

(** Modelled from the spec: [setOfSpotRequests] is declared outside the
    files at hand. The spec describes "a set of SpotRequest keyed by ID"
    with add (idempotent upsert), delete by ID, copy, deleteIntersection,
    size and iteration; a finite map from identifiers to requests. *)
Abbreviation setOfSpotRequests := (gmap string spotRequest).

Module ReqSet.

Definition newSetOfSpotRequests : setOfSpotRequests := ∅.

Definition add (req : spotRequest) (s : setOfSpotRequests) : setOfSpotRequests :=
  <[SpotRequestID req := req]> s.

Definition delete (req : spotRequest) (s : setOfSpotRequests) : setOfSpotRequests :=
  base.delete (SpotRequestID req) s.

Definition copy (s : setOfSpotRequests) : setOfSpotRequests := s.

(** "removes every element whose ID also appears in [other]". *)
Definition deleteIntersection (other s : setOfSpotRequests) : setOfSpotRequests :=
  s ∖ other.

Definition numReqs (s : setOfSpotRequests) : nat := size s.

(** The requests of the set in the canonical order of the map; the order
    in which a Go map is ranged over is a parameter of the environment
    (see [iterOrder] below). *)
Definition requests (s : setOfSpotRequests) : list spotRequest :=
  (map_to_list s).*2.

(** Insertion by creation time, for [asListInChronologicalOrder]. *)
Fixpoint insertChrono (r : spotRequest) (l : list spotRequest) : list spotRequest :=
  match l with
  | [] => [r]
  | r' :: l' =>
      if CreationTime r <=? CreationTime r' then r :: l
      else r' :: insertChrono r l'
  end.

Definition sortChrono (l : list spotRequest) : list spotRequest :=
  foldr insertChrono [] l.

End ReqSet.

(** Modelled from the spec: [setOfStrings] is declared outside the files at
    hand; the terminate operation "partitions the input" into two
    collections of identifiers, used through [add], [length] and
    [asListOfPointers]: a finite set of strings. *)
Abbreviation setOfStrings := (gset string).

Module StrSet.
Definition newSetOfStrings : setOfStrings := ∅.
Definition add (x : string) (s : setOfStrings) : setOfStrings := {[x]} ∪ s.
Definition length (s : setOfStrings) : nat := size s.
Definition asListOfPointers (s : setOfStrings) : list string := elements s.
End StrSet.

(** ** The engine's state *)

Record spotState := mkSpotState {
  trackedReqs : setOfSpotRequests;
  approximateClockSkew : Duration;
  launchTimeOffset : Duration;
}.

(** ** The environment: remote API, clock, and collaborators *)

(** The filter of a [DescribeSpotInstanceRequests] call that varies between
    callers; the two tag filters are the same fixed configuration in every
    call and are left out. *)
Inductive spotFilter :=
| FilterState (values : list string)
| FilterStatusCode (values : list string)
| FilterRequestID (values : list string).

(** [ec2.RequestSpotInstancesInput]: the fields computed per call; launch
    specification, tags, price and the random client token are fixed
    configuration and are left out. *)
Record RequestSpotInstancesInput := mkSpotInput {
  DryRun : bool;
  InstanceCount : Z;
  InstanceType : string;
  ValidFrom : Time;
}.

(** What the engine does to the outside world, in order, with the answer
    it got. *)
Inductive event :=
| EvNow (t : Time)
| EvRequestSpotInstances (input : RequestSpotInstancesInput)
    (r : res (list ec2SpotInstanceRequest))
| EvDescribeSpotInstanceRequests (f : spotFilter)
    (r : res (list ec2SpotInstanceRequest))
| EvCancelSpotInstanceRequests (ids : list (option string)) (r : res unit)
| EvCreateTags (ids : list string) (r : res unit)
| EvTerminateInstances (ids : list string) (r : res unit)
| EvTerminateOnDemand (ids : list string)
| EvDescribeInstancesByID (ids : list string) (r : res (list ec2Instance))
| EvUserAttention (code message : string) (creationTime : Time).

(* A Go slice of string pointers is a list of strings wherever the engine
   builds the pointers itself; where they come from outside (the argument
   of terminateSpot, the identifier in an API answer) they are optional. *)

(** The answers of the outside world; each may depend on everything that
    happened before. [terminateInstances], [describeInstancesByID],
    [newInstances] and [terminateOnDemand] belong to the on-demand
    provisioner and are parameters here; so is the order in which a Go map
    is ranged over. *)
Record environment := mkEnv {
  iterOrder : setOfSpotRequests -> list spotRequest;
  timeNow : list event -> Time;
  clientRequestSpotInstances :
    list event -> RequestSpotInstancesInput -> res (list ec2SpotInstanceRequest);
  clientDescribeSpotInstanceRequests :
    list event -> spotFilter -> res (list ec2SpotInstanceRequest);
  clientCancelSpotInstanceRequests : list event -> list (option string) -> res unit;
  clientCreateTags : list event -> list string -> res unit;
  terminateInstances : list event -> list string -> res unit;
  describeInstancesByID : list event -> list string -> res (list ec2Instance);
  newInstances : list ec2Instance -> list Instance;
  configInstanceType : string;
}.

(** Ranging over a map visits every element exactly once. *)
Definition visits_each_once (env : environment) : Prop :=
  forall s, iterOrder env s ≡ₚ ReqSet.requests s.

(** ** Execution: state, history, panics *)

Record machine := mkMachine {
  spot : spotState;
  history : list event;
}.

Inductive exec (A : Type) :=
| Done (a : A)
| Panic
| OutOfFuel.
Arguments Done {A} a.
Arguments Panic {A}.
Arguments OutOfFuel {A}.

Definition M (A : Type) : Type := machine -> exec (A * machine).

Definition ret {A} (a : A) : M A := fun m => Done (a, m).

Definition bind {A B} (c : M A) (k : A -> M B) : M B :=
  fun m =>
    match c m with
    | Done (a, m') => k a m'
    | Panic => Panic
    | OutOfFuel => OutOfFuel
    end.

Declare Scope go_scope.
Delimit Scope go_scope with go.
Notation "'let*' x ':=' c 'in' k" := (bind c (fun x => k))
  (at level 10, x pattern, c at level 100, k at level 200) : go_scope.
Local Open Scope go_scope.

Definition panic {A} : M A := fun _ => Panic.
Definition outOfFuel {A} : M A := fun _ => OutOfFuel.

(** [*p]: a nil pointer dereference panics. *)
Definition deref {A} (p : option A) : M A :=
  match p with
  | Some a => ret a
  | None => panic
  end.

Definition getSpot : M spotState := fun m => Done (spot m, m).

Definition setTrackedReqs (s : setOfSpotRequests) : M unit :=
  fun m =>
    Done (tt, mkMachine
      (mkSpotState s (approximateClockSkew (spot m)) (launchTimeOffset (spot m)))
      (history m)).

Definition setApproximateClockSkew (d : Duration) : M unit :=
  fun m =>
    Done (tt, mkMachine
      (mkSpotState (trackedReqs (spot m)) d (launchTimeOffset (spot m)))
      (history m)).

Definition setLaunchTimeOffset (d : Duration) : M unit :=
  fun m =>
    Done (tt, mkMachine
      (mkSpotState (trackedReqs (spot m)) (approximateClockSkew (spot m)) d)
      (history m)).

Definition emit (e : event) : M unit :=
  fun m => Done (tt, mkMachine (spot m) (history m ++ [e])).

Section Provisioner.

Variable env : environment.

(** *** Calls to the outside *)

Definition Now : M Time :=
  fun m => let t := timeNow env (history m) in
           Done (t, mkMachine (spot m) (history m ++ [EvNow t])).

Definition RequestSpotInstances (input : RequestSpotInstancesInput)
  : M (res (list ec2SpotInstanceRequest)) :=
  fun m => let r := clientRequestSpotInstances env (history m) input in
           Done (r, mkMachine (spot m) (history m ++ [EvRequestSpotInstances input r])).

Definition DescribeSpotInstanceRequests (f : spotFilter)
  : M (res (list ec2SpotInstanceRequest)) :=
  fun m => let r := clientDescribeSpotInstanceRequests env (history m) f in
           Done (r, mkMachine (spot m) (history m ++ [EvDescribeSpotInstanceRequests f r])).

Definition CancelSpotInstanceRequests (ids : list (option string)) : M (res unit) :=
  fun m => let r := clientCancelSpotInstanceRequests env (history m) ids in
           Done (r, mkMachine (spot m) (history m ++ [EvCancelSpotInstanceRequests ids r])).

Definition CreateTags (ids : list string) : M (res unit) :=
  fun m => let r := clientCreateTags env (history m) ids in
           Done (r, mkMachine (spot m) (history m ++ [EvCreateTags ids r])).

Definition callTerminateInstances (ids : list string) : M (res unit) :=
  fun m => let r := terminateInstances env (history m) ids in
           Done (r, mkMachine (spot m) (history m ++ [EvTerminateInstances ids r])).

Definition terminateOnDemand (ids : list string) : M unit :=
  emit (EvTerminateOnDemand ids).

Definition callDescribeInstancesByID (ids : list string) : M (res (list ec2Instance)) :=
  fun m => let r := describeInstancesByID env (history m) ids in
           Done (r, mkMachine (spot m) (history m ++ [EvDescribeInstancesByID ids r])).

(** *** Projections of the request set that range over it *)

Definition iter (s : setOfSpotRequests) : list spotRequest := iterOrder env s.

Definition idsAsListOfPointers (s : setOfSpotRequests) : list string :=
  SpotRequestID <$> iter s.

Definition idsAsList (s : setOfSpotRequests) : list string :=
  SpotRequestID <$> iter s.

(** "projects the subset with non-empty [InstanceID]". *)
Definition instanceIds (s : setOfSpotRequests) : list string :=
  omap InstanceID (iter s).

Definition asListInChronologicalOrder (s : setOfSpotRequests) : list spotRequest :=
  ReqSet.sortChrono (iter s).


(** *** Listing spot requests *)

(** The loop shared by the three listing functions:
    [ret.add(&spotRequest{SpotRequestID: *req.SpotInstanceRequestId, ...})]. *)
Fixpoint collectRequests (reqs : list ec2SpotInstanceRequest)
    (acc : setOfSpotRequests) : M setOfSpotRequests :=
  match reqs with
  | [] => ret acc
  | req :: reqs' =>
      let* id := deref (SpotInstanceRequestId req) in
      let* st := deref (ReqState req) in
      let* status := deref (Status req) in
      let* ct := deref (CreateTime req) in
      collectRequests reqs'
        (ReqSet.add
           (mkSpotRequest id st (Code status) (Message status) (InstanceId req) ct)
           acc)
  end.

Definition describeRequests (f : spotFilter) : M (res setOfSpotRequests) :=
  let* response := DescribeSpotInstanceRequests f in
  match response with
  | Failure err => ret (Failure err)
  | Success reqs =>
      let* s := collectRequests reqs ReqSet.newSetOfSpotRequests in
      ret (Success s)
  end.

Definition listActiveSpotInstanceRequests : M (res setOfSpotRequests) :=
  describeRequests (FilterState ["open"; "active"]%string).

Definition listCanceledButInstanceRunningSpotRequests : M (res setOfSpotRequests) :=
  describeRequests (FilterStatusCode ["request-canceled-and-instance-running"]%string).

Definition listSpotRequestsByID (spotRequestIds : list string)
  : M (res setOfSpotRequests) :=
  if (length spotRequestIds =? 0)%nat
  then ret (Success ReqSet.newSetOfSpotRequests)
  else describeRequests (FilterRequestID spotRequestIds).

Definition terminateSpotInstanceRequests (spotRequestIds : list (option string))
  : M (res unit) :=
  if (length spotRequestIds =? 0)%nat
  then ret (Success tt)
  else CancelSpotInstanceRequests spotRequestIds.

Definition setTagsOnInstances (activeReqs : setOfSpotRequests) : M (res unit) :=
  let instanceIDs := instanceIds activeReqs in
  if (length instanceIDs =? 0)%nat
  then ret (Success tt)
  else CreateTags instanceIDs.

(** *** [buildInstanceListFromTrackedReqs] *)

(** The first loop: fulfilled requests give up their instance id, the
    others become placeholder instances. *)
Fixpoint splitTracked (reqs : list spotRequest)
    (runningSpotInstanceIds : setOfStrings)
    (pendingSpotRequestsAsInstances : list Instance)
  : setOfStrings * list Instance :=
  match reqs with
  | [] => (runningSpotInstanceIds, pendingSpotRequestsAsInstances)
  | activeRequest :: reqs' =>
      match InstanceID activeRequest with
      | Some i =>
          splitTracked reqs' (StrSet.add i runningSpotInstanceIds)
            pendingSpotRequestsAsInstances
      | None =>
          splitTracked reqs' runningSpotInstanceIds
            (pendingSpotRequestsAsInstances ++
               [mkInstance (SpotRequestID activeRequest)
                  (CreationTime activeRequest)
                  (SpotRequestID activeRequest)
                  SpotRequestPendingAWS])
      end
  end.

(** The second loop: [*inst.State.Name] is read for every instance. *)
Fixpoint dropTerminal (instancesToReturn nonTerminalInstances : list ec2Instance)
  : M (list ec2Instance) :=
  match instancesToReturn with
  | [] => ret nonTerminalInstances
  | inst :: rest =>
      let* st := deref (EC2State inst) in
      let* name := deref (Name st) in
      if negb (String.eqb name "terminated") && negb (String.eqb name "shutting-down")
      then dropTerminal rest (nonTerminalInstances ++ [inst])
      else dropTerminal rest nonTerminalInstances
  end.

Definition buildInstanceListFromTrackedReqs : M (res (list Instance)) :=
  let* c := getSpot in
  let '(runningSpotInstanceIds, pendingSpotRequestsAsInstances) :=
    splitTracked (iter (trackedReqs c)) StrSet.newSetOfStrings [] in
  let* described :=
    callDescribeInstancesByID (StrSet.asListOfPointers runningSpotInstanceIds) in
  match described with
  | Failure err => ret (Failure (Wrap err "cannot describe EC2 instances"))
  | Success instancesToReturn =>
      let* nonTerminalInstances := dropTerminal instancesToReturn [] in
      let realInstances := newInstances env nonTerminalInstances in
      let combined := realInstances ++ pendingSpotRequestsAsInstances in
      ret (Success combined)
  end.

(** *** [listSpot] *)

(** [for _, req := range activeReqsInAPI.iter() { c.spot.trackedReqs.add(req) }] *)
Fixpoint trackAll (reqs : list spotRequest) : M unit :=
  match reqs with
  | [] => ret tt
  | req :: reqs' =>
      let* c := getSpot in
      let* _ := setTrackedReqs (ReqSet.add req (trackedReqs c)) in
      trackAll reqs'
  end.

(** The first [switch *req.StatusCode]. *)
Fixpoint classifyActive (reqs : list spotRequest)
    (reqsToNotifyUserAbout : setOfSpotRequests) : M setOfSpotRequests :=
  match reqs with
  | [] => ret reqsToNotifyUserAbout
  | req :: reqs' =>
      let* code := deref (StatusCode req) in
      if String.eqb code "capacity-not-available" || String.eqb code "price-too-low"
      then classifyActive reqs' (ReqSet.add req reqsToNotifyUserAbout)
      else classifyActive reqs' reqsToNotifyUserAbout
  end.

(** The loop over [newOrInactiveReqs]; the local variables it updates are
    passed along. *)
Fixpoint processNewOrInactive (reqs : list spotRequest)
    (missingReqs : setOfSpotRequests) (numReqsNoLongerTracked : Z)
    (reqsToNotifyUserAbout : setOfSpotRequests)
  : M (setOfSpotRequests * Z * setOfSpotRequests) :=
  match reqs with
  | [] => ret (missingReqs, numReqsNoLongerTracked, reqsToNotifyUserAbout)
  | req :: reqs' =>
      let missingReqs := ReqSet.delete req missingReqs in
      let* numReqsNoLongerTracked :=
        if negb (String.eqb (State req) "active") && negb (String.eqb (State req) "open")
        then
          let* c := getSpot in
          let* _ := setTrackedReqs (ReqSet.delete req (trackedReqs c)) in
          ret (numReqsNoLongerTracked + 1)
        else ret numReqsNoLongerTracked in
      let* code := deref (StatusCode req) in
      if String.eqb code "bad-parameters"
         || String.eqb code "constraint-not-fulfillable"
         || String.eqb code "limit-exceeded"
      then processNewOrInactive reqs' missingReqs numReqsNoLongerTracked
             (ReqSet.add req reqsToNotifyUserAbout)
      else processNewOrInactive reqs' missingReqs numReqsNoLongerTracked
             reqsToNotifyUserAbout
  end.

(** The error record per request that needs the user's attention. *)
Fixpoint notifyUser (reqs : list spotRequest) : M unit :=
  match reqs with
  | [] => ret tt
  | req :: reqs' =>
      let* code := deref (StatusCode req) in
      let* message := deref (StatusMessage req) in
      let* _ := emit (EvUserAttention code message (CreationTime req)) in
      notifyUser reqs'
  end.

Definition listSpot : M (res (list Instance)) :=
  let* listed := listActiveSpotInstanceRequests in
  match listed with
  | Failure err => ret (Failure (Wrap err "cannot describe EC2 spot requests"))
  | Success activeReqsInAPI =>
      let* _ := trackAll (iter activeReqsInAPI) in
      let* _ := setTagsOnInstances activeReqsInAPI in
      let* reqsToNotifyUserAbout :=
        classifyActive (iter activeReqsInAPI) ReqSet.newSetOfSpotRequests in
      let* c := getSpot in
      let missingReqs :=
        ReqSet.deleteIntersection activeReqsInAPI (ReqSet.copy (trackedReqs c)) in
      let* looked := listSpotRequestsByID (idsAsListOfPointers missingReqs) in
      match looked with
      | Failure err => ret (Failure (Wrap err "cannot describe EC2 spot requests"))
      | Success newOrInactiveReqs =>
          let* processed :=
            processNewOrInactive (iter newOrInactiveReqs) missingReqs 0
              reqsToNotifyUserAbout in
          let '(missingReqs, numReqsNoLongerTracked, reqsToNotifyUserAbout) :=
            processed in
          let* _ := notifyUser (asListInChronologicalOrder reqsToNotifyUserAbout) in
          let* canceled := listCanceledButInstanceRunningSpotRequests in
          match canceled with
          | Failure err => ret (Failure (Wrap err "cannot describe EC2 spot requests"))
          | Success canceledButInstanceRunningReqs =>
              let* _ :=
                if (0 <? ReqSet.numReqs canceledButInstanceRunningReqs)%nat
                then
                  let* _ := callTerminateInstances
                              (instanceIds canceledButInstanceRunningReqs) in
                  ret tt
                else ret tt in
              let* built := buildInstanceListFromTrackedReqs in
              match built with
              | Failure err => ret (Failure err)
              | Success instances => ret (Success instances)
              end
          end
      end
  end.

(** *** Creating spot requests *)

(** [validFrom := time.Now().UTC().Add(c.spot.approximateClockSkew).Add(launchTimeOffset)];
    [UTC] changes the location, not the instant. *)
Definition createSpotInstanceRequest (numInstances : Z) (instanceType : string)
    (launchTimeOffset : Duration) (dryRun : bool)
  : M (res (list ec2SpotInstanceRequest)) :=
  let* now := Now in
  let* c := getSpot in
  let validFrom := Add (Add now (approximateClockSkew c)) launchTimeOffset in
  let spotInput := mkSpotInput dryRun numInstances instanceType validFrom in
  RequestSpotInstances spotInput.

Definition maxRetries : Z := 5.

(** What one turn of the retry loop decides. *)
Inductive attemptOutcome :=
| Return (resp : option (list ec2SpotInstanceRequest)) (err : option goError)
| Continue (err : goError).

(** The body of the loop of
    [createSpotInstanceRequestsCorrectingForClockSkew]. *)
Definition launchAttempt (numInstances : Z) (dryRun : bool) : M attemptOutcome :=
  let* c := getSpot in
  let offset := dadd (approximateClockSkew c) (launchTimeOffset c) in
  let* r := createSpotInstanceRequest numInstances (configInstanceType env) offset dryRun in
  match r with
  | Success resp => ret (Return (Some resp) None)
  | Failure err =>
      match err with
      | AwsErr code _ =>
          let* _ :=
            if String.eqb code "InvalidTime"
            then
              let* c := getSpot in
              setLaunchTimeOffset (dadd (launchTimeOffset c) launchTimeOffsetGrowth)
            else ret tt in
          ret (Continue err)
      | OtherErr _ => ret (Return None (Some err))
      end
  end.

(** [for numRetries := 0; numRetries <= maxRetries; numRetries++ { ... }]
    followed by [return nil, err]; [err] is the named result. *)
Fixpoint retryLoop (fuel : nat) (numInstances : Z) (dryRun : bool)
    (numRetries : Z) (err : option goError)
  : M (option (list ec2SpotInstanceRequest) * option goError) :=
  match fuel with
  | O => outOfFuel
  | S fuel' =>
      if numRetries <=? maxRetries
      then
        let* o := launchAttempt numInstances dryRun in
        match o with
        | Return resp err => ret (resp, err)
        | Continue err => retryLoop fuel' numInstances dryRun (numRetries + 1) (Some err)
        end
      else ret (None, err)
  end.

(** Enough turns for the loop to reach its exit test. *)
Definition retryFuel : nat := 8.

Definition createSpotInstanceRequestsCorrectingForClockSkew
    (numInstances : Z) (dryRun : bool)
  : M (option (list ec2SpotInstanceRequest) * option goError) :=
  retryLoop retryFuel numInstances dryRun 0 None.

(** *** [launchSpot] *)

Fixpoint trackCreated (requests : list ec2SpotInstanceRequest) : M unit :=
  match requests with
  | [] => ret tt
  | request :: requests' =>
      let* id := deref (SpotInstanceRequestId request) in
      let* st := deref (ReqState request) in
      let* status := deref (Status request) in
      let* ct := deref (CreateTime request) in
      let* c := getSpot in
      let* _ := setTrackedReqs
        (ReqSet.add (mkSpotRequest id st (Code status) (Message status) None ct)
           (trackedReqs c)) in
      trackCreated requests'
  end.

Definition launchSpot (instanceNum : Z) : M (option goError) :=
  if instanceNum <=? 0 then ret None
  else
    let* created := createSpotInstanceRequestsCorrectingForClockSkew instanceNum false in
    let '(resp, err) := created in
    match err with
    | Some e => ret (Some e)
    | None =>
        let* resp := deref resp in
        let* _ := trackCreated resp in
        ret None
    end.

(** *** [attemptToApproximateClockSkew] *)

(** The clean-up loop [for { ... }]: [true] when it is left by [break],
    [false] when the function returns from inside it. The loop has no
    bound of its own; [fuel] bounds how many turns are followed. *)
Fixpoint cleanUpCalibration (fuel : nat) (id : option string) : M bool :=
  match fuel with
  | O => outOfFuel
  | S fuel' =>
      let* r := terminateSpotInstanceRequests [id] in
      match r with
      | Success _ => ret true
      | Failure (AwsErr code _) =>
          if negb (String.eqb code "InvalidSpotInstanceRequestID.NotFound")
          then ret false
          else cleanUpCalibration fuel' id
      | Failure (OtherErr _) => ret false
      end
  end.

Definition attemptToApproximateClockSkew (fuel : nat) : M unit :=
  let* localCreateTime := Now in
  let* r := createSpotInstanceRequest 1 (configInstanceType env) (Hour * 100) false in
  match r with
  | Failure _ => ret tt
  | Success requests =>
      let* first := deref (head requests) in
      let* awsCreateTime := deref (CreateTime first) in
      let approxClockSkew := Sub awsCreateTime localCreateTime in
      let* cleaned := cleanUpCalibration fuel (SpotInstanceRequestId first) in
      if cleaned : bool
      then
        let clockSkewRoundedUp := roundDurationUp approxClockSkew in
        setApproximateClockSkew clockSkewRoundedUp
      else ret tt
  end.

(** *** [terminateSpot] *)

Fixpoint partitionIDs (instanceIDs : list (option string))
    (instancesToTerminate pendingSpotReqsToTerminate : setOfStrings)
  : M (setOfStrings * setOfStrings) :=
  match instanceIDs with
  | [] => ret (instancesToTerminate, pendingSpotReqsToTerminate)
  | instanceID :: rest =>
      let* id := deref instanceID in
      if String.prefix spotRequestIDPrefix id
      then partitionIDs rest instancesToTerminate
             (StrSet.add id pendingSpotReqsToTerminate)
      else partitionIDs rest (StrSet.add id instancesToTerminate)
             pendingSpotReqsToTerminate
  end.

Definition terminateSpot (instanceIDs : list (option string)) : M unit :=
  if (length instanceIDs =? 0)%nat then ret tt
  else
    let* sets := partitionIDs instanceIDs StrSet.newSetOfStrings StrSet.newSetOfStrings in
    let '(instancesToTerminate, pendingSpotReqsToTerminate) := sets in
    let* _ :=
      if (0 <? StrSet.length instancesToTerminate)%nat
      then terminateOnDemand (StrSet.asListOfPointers instancesToTerminate)
      else ret tt in
    let* _ := terminateSpotInstanceRequests
                (Some <$> StrSet.asListOfPointers pendingSpotReqsToTerminate) in
    ret tt.

(** *** The engine's lifetime: any sequence of its operations *)

Inductive operation :=
| OpApproximateClockSkew (fuel : nat)
| OpListSpot
| OpLaunchSpot (instanceNum : Z)
| OpTerminateSpot (instanceIDs : list (option string)).

Definition runOperation (op : operation) : M unit :=
  match op with
  | OpApproximateClockSkew fuel => attemptToApproximateClockSkew fuel
  | OpListSpot => let* _ := listSpot in ret tt
  | OpLaunchSpot instanceNum => let* _ := launchSpot instanceNum in ret tt
  | OpTerminateSpot instanceIDs => terminateSpot instanceIDs
  end.

Fixpoint runOperations (ops : list operation) : M unit :=
  match ops with
  | [] => ret tt
  | op :: ops' => let* _ := runOperation op in runOperations ops'
  end.

End Provisioner.


(** * Vocabulary of the statements *)

(** [post c m Q]: whenever [c] run from [m] returns, [Q] holds of the
    result and the final machine. *)
Definition post {A} (c : M A) (m : machine) (Q : A -> machine -> Prop) : Prop :=
  forall a m', c m = Done (a, m') -> Q a m'.

(** The remote API rejected the validity window as not in the future. *)
Definition windowRejected {A} (r : res A) : bool :=
  match r with
  | Failure (AwsErr code _) => String.eqb code "InvalidTime"
  | _ => false
  end.

(** One creation attempt as the outside sees it: the clock reading, the
    request submitted, the answer. *)
Definition attempt : Type :=
  Time * RequestSpotInstancesInput * res (list ec2SpotInstanceRequest).

Definition attemptEvents (a : attempt) : list event :=
  [EvNow a.1.1; EvRequestSpotInstances a.1.2 a.2].

(** The creation requests among some events. *)
Definition creationAttempts (h : list event)
  : list (RequestSpotInstancesInput * res (list ec2SpotInstanceRequest)) :=
  omap (fun e => match e with
                 | EvRequestSpotInstances i r => Some (i, r)
                 | _ => None
                 end) h.

(** The events an execution added to the history. *)
Definition newEvents (m m' : machine) : list event :=
  drop (length (history m)) (history m').

(** The runs of the retry loop entered with [numRetries = k]: the attempts
    made, and what the wrapper returns. *)
Inductive retryRun :
  Z -> list attempt -> option (list ec2SpotInstanceRequest) * option goError -> Prop :=
| run_success k a resp :
    k <= maxRetries -> a.2 = Success resp ->
    retryRun k [a] (Some resp, None)
| run_abort k a msg :
    k <= maxRetries -> a.2 = Failure (OtherErr msg) ->
    retryRun k [a] (None, Some (OtherErr msg))
| run_exhausted a code msg :
    a.2 = Failure (AwsErr code msg) ->
    retryRun maxRetries [a] (None, Some (AwsErr code msg))
| run_retry k a code msg atts out :
    k < maxRetries -> a.2 = Failure (AwsErr code msg) ->
    retryRun (k + 1) atts out ->
    retryRun k (a :: atts) out.

(** The offset after some attempts: ten seconds more for every rejected
    validity window. *)
Definition offsetAfter (offset : Duration) (atts : list attempt) : Duration :=
  foldl (fun off (a : attempt) =>
           if windowRejected a.2 then dadd off launchTimeOffsetGrowth else off)
        offset atts.


(** How many creation attempts one call of the wrapper makes. *)
Definition attemptsMade (env : environment) (numInstances : Z) (dryRun : bool)
    (m : machine) : option nat :=
  match createSpotInstanceRequestsCorrectingForClockSkew env numInstances dryRun m with
  | Done (_, m') => Some (length (creationAttempts (newEvents m m')))
  | _ => None
  end.

(** [keeps R c]: every returning run of [c] relates the machine before to
    the machine after. *)
Definition keeps (R : relation machine) {A} (c : M A) : Prop :=
  forall m a m', c m = Done (a, m') -> R m m'.

Definition sameOffset : relation machine :=
  fun m m' => launchTimeOffset (spot m') = launchTimeOffset (spot m).

Definition sameSpot : relation machine :=
  fun m m' => spot m' = spot m.

(** The history grows by events that all satisfy [P]. *)
Definition growsBy (P : event -> bool) : relation machine :=
  fun m m' => exists evs, history m' = history m ++ evs /\ forallb P evs = true.

(** The targeted by-identifier lookup among the events. *)
Definition notLookup (e : event) : bool :=
  match e with
  | EvDescribeSpotInstanceRequests (FilterRequestID _) _ => false
  | _ => true
  end.

(** An identifier carries the prefix reserved for spot request ids. *)
Definition hasPrefix (id : string) : Prop :=
  String.prefix spotRequestIDPrefix id = true.

(** Where [terminateSpot] sends an identifier. *)
Definition sentToCancellation (evs : list event) (id : string) : Prop :=
  exists l r, EvCancelSpotInstanceRequests l r ∈ evs /\ Some id ∈ l.

Definition sentToTermination (evs : list event) (id : string) : Prop :=
  exists l, EvTerminateOnDemand l ∈ evs /\ id ∈ l.

(** The cancellation failed because the identifier is not visible yet. *)
Definition isNotFound (r : res unit) : bool :=
  match r with
  | Failure (AwsErr code _) => String.eqb code "InvalidSpotInstanceRequestID.NotFound"
  | _ => false
  end.

(** A request state other than "open" and "active". *)
Definition terminal (r : spotRequest) : bool :=
  negb (String.eqb (State r) "active") && negb (String.eqb (State r) "open").

(** The set that the listing functions make of an answer of the remote
    API, when no pointer in it is nil. *)
Definition requestsOf (l : list ec2SpotInstanceRequest) : option setOfSpotRequests :=
  match collectRequests l ReqSet.newSetOfSpotRequests
          (mkMachine (mkSpotState ∅ 0 0) []) with
  | Done (s, _) => Some s
  | _ => None
  end.

(** Every request is filed under its own identifier. *)
Definition keyed (s : setOfSpotRequests) : Prop :=
  forall id r, s !! id = Some r -> SpotRequestID r = id.

(** A described instance that is neither terminated nor shutting down. *)
Definition alive (i : ec2Instance) : bool :=
  match EC2State i with
  | Some (mkInstState (Some name)) =>
      negb (String.eqb name "terminated") && negb (String.eqb name "shutting-down")
  | _ => false
  end.

(** A request without instance identifier, and its placeholder. *)
Definition unfulfilled (r : spotRequest) : Prop := InstanceID r = None.

Definition placeholder (r : spotRequest) : Instance :=
  mkInstance (SpotRequestID r) (CreationTime r) (SpotRequestID r) SpotRequestPendingAWS.

(** The instance identifiers asked about: those of the tracked requests,
    each once. *)
Definition askedIds (env : environment) (s : setOfSpotRequests) : list string :=
  StrSet.asListOfPointers (list_to_set (omap InstanceID (iter env s)) ∪ StrSet.newSetOfStrings).

(** What the wrapper returns for the answer of its last attempt. *)
Definition resultOf (r : res (list ec2SpotInstanceRequest))
  : option (list ec2SpotInstanceRequest) * option goError :=
  match r with
  | Success resp => (Some resp, None)
  | Failure e => (None, Some e)
  end.

(** The validity windows of successive attempts: each starts at the clock
    reading plus the skew plus the wrapped sum of skew and current offset,
    and the offset has grown by ten seconds after every rejected window. *)
Fixpoint windows (skew offset : Duration) (atts : list attempt) : Prop :=
  match atts with
  | [] => True
  | a :: rest =>
      ValidFrom a.1.2 = a.1.1 + skew + dadd skew offset /\
      windows skew
        (if windowRejected a.2 then dadd offset launchTimeOffsetGrowth else offset)
        rest
  end.

(** The five status codes that make a request one for the user's
    attention. *)
Definition attentionCode (code : string) : bool :=
  String.eqb code "capacity-not-available" || String.eqb code "price-too-low"
  || String.eqb code "bad-parameters" || String.eqb code "constraint-not-fulfillable"
  || String.eqb code "limit-exceeded".

Definition attentionEvent (e : event) : bool :=
  match e with
  | EvUserAttention code _ _ => attentionCode code
  | _ => false
  end.

(** Every request of the set carries one of the five codes. *)
Definition allAttention (s : setOfSpotRequests) : Prop :=
  forall id r, s !! id = Some r ->
    exists code, StatusCode r = Some code /\ attentionCode code = true.

(** The tracked set after the union with the listed requests, and after
    the loop over the looked-up ones. *)
Definition unionTracked (t : setOfSpotRequests) (l : list spotRequest) : setOfSpotRequests :=
  foldl (fun s r => ReqSet.add r s) t l.

Definition pruneTracked (t : setOfSpotRequests) (l : list spotRequest) : setOfSpotRequests :=
  foldl (fun s r => if terminal r then ReqSet.delete r s else s) t l.

(** The two filters of the tick's listings. *)
Definition activeFilter : spotFilter := FilterState ["open"; "active"]%string.
Definition canceledFilter : spotFilter :=
  FilterStatusCode ["request-canceled-and-instance-running"]%string.

(** [listed] is the set the tick made of the remote's list of active
    requests, the first event of the tick. *)
Definition tickListed (m m' : machine) (listed : setOfSpotRequests) : Prop :=
  exists l, head (newEvents m m') = Some (EvDescribeSpotInstanceRequests activeFilter (Success l))
            /\ requestsOf l = Some listed.

(** [looked] is the set the tick made of the answer of its by-identifier
    lookup, the empty set when it made none. *)
Definition tickLooked (m m' : machine) (looked : setOfSpotRequests) : Prop :=
  (exists ids l,
      EvDescribeSpotInstanceRequests (FilterRequestID ids) (Success l) ∈ newEvents m m'
      /\ requestsOf l = Some looked) \/
  (looked = ∅ /\
   forall ids r, EvDescribeSpotInstanceRequests (FilterRequestID ids) r ∉ newEvents m m').

(** The anatomy of a successful tick: the events it adds, in order, the
    tracked set it leaves and the list it returns. *)
Definition tickAnatomy (env : environment) (m : machine) (out : list Instance)
    (m' : machine) : Prop :=
  exists l0 listed tags look looked atts l3 canceled term described,
    requestsOf l0 = Some listed /\
    requestsOf l3 = Some canceled /\
    newEvents m m' =
      [EvDescribeSpotInstanceRequests activeFilter (Success l0)] ++ tags ++ look ++ atts
      ++ [EvDescribeSpotInstanceRequests canceledFilter (Success l3)] ++ term
      ++ [EvDescribeInstancesByID (askedIds env (trackedReqs (spot m'))) (Success described)] /\
    ((instanceIds env listed = [] /\ tags = []) \/
     (instanceIds env listed <> [] /\
      exists r, tags = [EvCreateTags (instanceIds env listed) r])) /\
    (let gap :=
       idsAsListOfPointers env
         (ReqSet.deleteIntersection listed
            (unionTracked (trackedReqs (spot m)) (iter env listed))) in
     (gap = [] /\ look = [] /\ looked = ∅) \/
     (gap <> [] /\
      exists l1, look = [EvDescribeSpotInstanceRequests (FilterRequestID gap) (Success l1)]
                 /\ requestsOf l1 = Some looked)) /\
    forallb attentionEvent atts = true /\
    ((size canceled = 0%nat /\ term = []) \/
     (size canceled <> 0%nat /\
      exists r, term = [EvTerminateInstances (instanceIds env canceled) r])) /\
    trackedReqs (spot m') =
      pruneTracked (unionTracked (trackedReqs (spot m)) (iter env listed)) (iter env looked) /\
    approximateClockSkew (spot m') = approximateClockSkew (spot m) /\
    launchTimeOffset (spot m') = launchTimeOffset (spot m) /\
    out = newInstances env (List.filter alive described)
          ++ (placeholder <$> filter unfulfilled (iter env (trackedReqs (spot m')))).

(** The measured skew, and the tracked set, are left as they were. *)
Definition sameSkew : relation machine :=
  fun m m' => approximateClockSkew (spot m') = approximateClockSkew (spot m).

Definition sameTracked : relation machine :=
  fun m m' => trackedReqs (spot m') = trackedReqs (spot m).

(** The record that the listing functions make of a request of the
    remote's answer. *)
Definition recorded (req : ec2SpotInstanceRequest) (r : spotRequest) : Prop :=
  SpotInstanceRequestId req = Some (SpotRequestID r) /\
  ReqState req = Some (State r) /\
  (exists status, Status req = Some status /\
                  StatusCode r = Code status /\ StatusMessage r = Message status) /\
  InstanceID r = InstanceId req /\
  CreateTime req = Some (CreationTime r).

(** * Concrete environments *)

Module Examples.

(** A handle per described instance. *)
Definition handleOf (i : ec2Instance) : Instance :=
  mkInstance (default "" (EC2InstanceId i)) (default 0 (EC2LaunchTime i))
    (default "" (EC2InstanceId i))
    (match EC2State i with
     | Some (mkInstState (Some n)) => RealState n
     | _ => Unknown
     end).

Definition cancellations (h : list event) : nat :=
  length (List.filter (fun e => match e with
                           | EvCancelSpotInstanceRequests _ _ => true
                           | _ => false
                           end) h).

(** A remote whose answers are scripted: creation and cancellation by the
    number of earlier attempts, descriptions by the filter. The clock
    starts at 1000 s and advances one second per event. *)
Definition scripted
    (create : nat -> res (list ec2SpotInstanceRequest))
    (describe : spotFilter -> res (list ec2SpotInstanceRequest))
    (cancel : nat -> res unit)
    (instances : list string -> res (list ec2Instance)) : environment :=
  mkEnv ReqSet.requests
    (fun h => (1000 + Z.of_nat (length h)) * Second)
    (fun h _ => create (length (creationAttempts h)))
    (fun _ f => describe f)
    (fun h _ => cancel (cancellations h))
    (fun _ _ => Success tt)
    (fun _ _ => Success tt)
    (fun _ ids => instances ids)
    (map handleOf)
    "p3.2xlarge".

Definition openRequest (id : string) (t : Time) : ec2SpotInstanceRequest :=
  mkEc2Req (Some id) (Some "open"%string)
    (Some (mkStatus (Some "pending-evaluation"%string) (Some "pending"%string)))
    None (Some t).

(** An engine with a measured skew of ten seconds and the offset at ten
    seconds. *)
Definition skewed : machine :=
  mkMachine (mkSpotState ∅ (10 * Second) (10 * Second)) [].

(** A fresh engine: nothing tracked, no skew measured. *)
Definition fresh : machine :=
  mkMachine (mkSpotState ∅ 0 (10 * Second)) [].

(** The remote accepts every request. *)
Definition accepting : environment :=
  scripted (fun _ => Success [openRequest "sir-1" (1001 * Second)])
    (fun _ => Success []) (fun _ => Success tt) (fun _ => Success []).

(** The remote rejects every validity window. *)
Definition rejecting : environment :=
  scripted (fun _ => Failure (AwsErr "InvalidTime" "not in the future"))
    (fun _ => Success []) (fun _ => Success tt) (fun _ => Success []).

(** The remote throttles the first creation request and accepts the
    second. *)
Definition throttling : environment :=
  scripted (fun k => match k with
                     | O => Failure (AwsErr "RequestLimitExceeded" "slow down")
                     | _ => Success [openRequest "sir-1" (1003 * Second)]
                     end)
    (fun _ => Success []) (fun _ => Success tt) (fun _ => Success []).

(** The transport fails once. *)
Definition unreachable : environment :=
  scripted (fun _ => Failure (OtherErr "connection reset"))
    (fun _ => Success []) (fun _ => Success tt) (fun _ => Success []).

(** The calibration request is created, 25 s ahead of the local clock, but
    its cancellation is throttled. *)
Definition strayCalibration : environment :=
  scripted (fun _ => Success [openRequest "sir-9" (1025 * Second)])
    (fun _ => Success [])
    (fun _ => Failure (AwsErr "RequestLimitExceeded" "slow down"))
    (fun _ => Success []).

(** A request as the API may answer it: the status carries no code. *)
Definition noStatusCode (id : string) : ec2SpotInstanceRequest :=
  mkEc2Req (Some id) (Some "open"%string) (Some (mkStatus None None)) None
    (Some (1001 * Second)).

(** A request whose status has a code and no message. *)
Definition noStatusMessage (id : string) : ec2SpotInstanceRequest :=
  mkEc2Req (Some id) (Some "open"%string)
    (Some (mkStatus (Some "capacity-not-available"%string) None)) None
    (Some (1001 * Second)).

(** The list of active requests holds a request without status code. *)
Definition listsNoStatusCode : environment :=
  scripted (fun _ => Success [])
    (fun f => match f with
              | FilterState _ => Success [noStatusCode "sir-1"]
              | _ => Success []
              end)
    (fun _ => Success tt) (fun _ => Success []).

(** The by-identifier lookup answers a request without status code. *)
Definition looksUpNoStatusCode : environment :=
  scripted (fun _ => Success [])
    (fun f => match f with
              | FilterRequestID _ => Success [noStatusCode "sir-2"]
              | _ => Success []
              end)
    (fun _ => Success tt) (fun _ => Success []).

(** The list of active requests holds a request that needs attention and
    has no status message. *)
Definition listsNoStatusMessage : environment :=
  scripted (fun _ => Success [])
    (fun f => match f with
              | FilterState _ => Success [noStatusMessage "sir-3"]
              | _ => Success []
              end)
    (fun _ => Success tt) (fun _ => Success []).

(** An engine that tracks one open request, [sir-2]. *)
Definition tracking : machine :=
  mkMachine
    (mkSpotState
       (ReqSet.add
          (mkSpotRequest "sir-2" "open" (Some "pending-evaluation"%string) None None
             (1001 * Second))
          ReqSet.newSetOfSpotRequests)
       0 (10 * Second))
    [].

(** The request [sir-2] has been closed remotely: it is no longer listed as
    active, and the by-identifier lookup answers it in state "closed". *)
Definition closedRequest : ec2SpotInstanceRequest :=
  mkEc2Req (Some "sir-2"%string) (Some "closed"%string)
    (Some (mkStatus (Some "instance-terminated-by-user"%string) (Some "gone"%string)))
    (Some "i-2"%string) (Some (1001 * Second)).

Definition closing : environment :=
  scripted (fun _ => Success [])
    (fun f => match f with
              | FilterRequestID _ => Success [closedRequest]
              | _ => Success []
              end)
    (fun _ => Success tt) (fun _ => Success []).

(** Three tracked requests: [sir-a] fulfilled by the running [i-a],
    [sir-b] fulfilled by the terminated [i-b], [sir-c] still pending; the
    remote lists all three as active. *)
Definition mixedRequests : list ec2SpotInstanceRequest :=
  [ mkEc2Req (Some "sir-a"%string) (Some "active"%string)
      (Some (mkStatus (Some "fulfilled"%string) (Some "ok"%string)))
      (Some "i-a"%string) (Some (1001 * Second));
    mkEc2Req (Some "sir-b"%string) (Some "active"%string)
      (Some (mkStatus (Some "fulfilled"%string) (Some "ok"%string)))
      (Some "i-b"%string) (Some (1002 * Second));
    openRequest "sir-c" (1003 * Second) ].

Definition describedInstance (id : string) : ec2Instance :=
  mkEc2Instance (Some id) (Some (1005 * Second))
    (Some (mkInstState
             (Some (if String.eqb id "i-b" then "terminated" else "running")%string))).

Definition mixed : environment :=
  scripted (fun _ => Success [])
    (fun f => match f with
              | FilterState _ => Success mixedRequests
              | _ => Success []
              end)
    (fun _ => Success tt)
    (fun ids => Success (describedInstance <$> ids)).

(** The calibration request is created, but the remote never comes to see
    its identifier: every cancellation answers not-found. *)
Definition neverVisible : environment :=
  scripted (fun _ => Success [openRequest "sir-9" (1025 * Second)])
    (fun _ => Success [])
    (fun _ => Failure (AwsErr "InvalidSpotInstanceRequestID.NotFound" "unknown id"))
    (fun _ => Success []).

(** The identifier becomes visible at the third cancellation. *)
Definition visibleLate : environment :=
  scripted (fun _ => Success [openRequest "sir-9" (1025 * Second)])
    (fun _ => Success [])
    (fun k => match k with
              | S (S _) => Success tt
              | _ => Failure (AwsErr "InvalidSpotInstanceRequestID.NotFound" "unknown id")
              end)
    (fun _ => Success []).

(** The remote lists one open request that cannot be fulfilled for lack of
    capacity. *)
Definition starvedRequest : ec2SpotInstanceRequest :=
  mkEc2Req (Some "sir-4"%string) (Some "open"%string)
    (Some (mkStatus (Some "capacity-not-available"%string) (Some "no capacity"%string)))
    None (Some (1001 * Second)).

Definition starved : environment :=
  scripted (fun _ => Success [])
    (fun f => match f with
              | FilterState _ => Success [starvedRequest]
              | _ => Success []
              end)
    (fun _ => Success tt) (fun _ => Success []).

(** A canceled request whose instance [i-z] is still running. *)
Definition orphanRequest : ec2SpotInstanceRequest :=
  mkEc2Req (Some "sir-z"%string) (Some "cancelled"%string)
    (Some (mkStatus (Some "request-canceled-and-instance-running"%string)
             (Some "canceled"%string)))
    (Some "i-z"%string) (Some (1001 * Second)).

Definition orphaned : environment :=
  scripted (fun _ => Success [])
    (fun f => match f with
              | FilterStatusCode _ => Success [orphanRequest]
              | _ => Success []
              end)
    (fun _ => Success tt) (fun _ => Success []).

(** The remote API is down: every description of spot requests fails. *)
Definition outage : environment :=
  scripted (fun _ => Success [])
    (fun _ => Failure (AwsErr "Unavailable" "try later"))
    (fun _ => Success tt) (fun _ => Success []).

End Examples.
(** * Facts about Go durations *)

Lemma wrap64_id z : in_int64 z -> wrap64 z = z.
Proof.
  unfold in_int64, minDuration, maxDuration, wrap64. intros H.
  rewrite Z.mod_small; lia.
Qed.

Lemma wrap64_range z : in_int64 (wrap64 z).
Proof.
  unfold in_int64, minDuration, maxDuration, wrap64.
  pose proof (Z.mod_pos_bound (z + 2 ^ 63) (2 ^ 64)). lia.
Qed.

Lemma Sub_range t u : in_int64 (Sub t u).
Proof.
  unfold Sub, in_int64.
  destruct (Z.ltb_spec (t - u) minDuration); [unfold minDuration, maxDuration; lia|].
  destruct (Z.gtb_spec (t - u) maxDuration); [unfold minDuration, maxDuration; lia|].
  lia.
Qed.


(** *** Facts about [Round] at the 10-second interval *)

Lemma lessThanHalf_small r :
  0 <= r < roundInterval -> lessThanHalf r roundInterval = (2 * r <? roundInterval).
Proof.
  unfold lessThanHalf, to_uint64, roundInterval, Second. intros H.
  rewrite (Z.mod_small r) by lia.
  rewrite (Z.mod_small (r + r)) by lia.
  rewrite (Z.mod_small (1000000000 * 10)) by lia.
  f_equal. lia.
Qed.

(** Go's [%]: the remainder has the sign of the dividend. *)
Lemma rem_interval d :
  exists q, d = roundInterval * q + Z.rem d roundInterval /\
    (0 <= d -> 0 <= Z.rem d roundInterval < roundInterval) /\
    (d <= 0 -> - roundInterval < Z.rem d roundInterval <= 0).
Proof.
  exists (Z.quot d roundInterval). split; [apply Z.quot_rem'|]. split; intros H.
  - apply Z.rem_bound_pos; [lia | unfold roundInterval, Second; lia].
  - apply Z.rem_bound_pos_neg; [unfold roundInterval, Second; lia | lia].
Qed.

(** C6, as stated, fails: a measurement of minus three seconds is rounded
    to zero, which is closer to zero than the measurement. *)
Lemma C6_negative_rounds_toward_zero :
  ~ (forall d, in_int64 d ->
       (d < 0 -> roundDurationUp d <= d) /\ (0 < d -> d <= roundDurationUp d)).
Proof.
  intros H. destruct (H (-3 * Second)) as [Hneg _].
  - unfold in_int64. vm_compute. split; discriminate.
  - specialize (Hneg eq_refl). vm_compute in Hneg. apply Hneg. reflexivity.
Qed.

(** C6 (amended). [roundDurationUp] rounds up, toward plus infinity: the
    result is the least multiple of ten seconds that is not below the
    measurement. A positive measurement moves away from zero, a negative
    one toward zero. (For durations within ten seconds of the ends of the
    [int64] range the additions wrap or saturate.) *)
Theorem C6_rounds_up_to_ten_seconds d :
  no_overflow d ->
  (exists k, roundDurationUp d = k * roundInterval) /\
  d <= roundDurationUp d < d + roundInterval.
Proof.
  intros Hd. destruct (rem_interval d) as (q & Hq & Hpos & Hneg).
  unfold no_overflow in Hd.
  unfold roundDurationUp, Round.
  assert (Hm : roundInterval = 10000000000) by reflexivity.
  assert (Hmin : minDuration = -9223372036854775808) by reflexivity.
  assert (Hmax : maxDuration = 9223372036854775807) by reflexivity.
  replace (roundInterval <=? 0) with false by reflexivity.
  set (r := Z.rem d roundInterval) in *.
  destruct (Z.ltb_spec d 0) as [Hlt|Hge].
  - specialize (Hneg ltac:(lia)).
    rewrite lessThanHalf_small by lia.
    destruct (Z.ltb_spec (2 * - r) roundInterval) as [Hh|Hh].
    + unfold dadd. rewrite (wrap64_id (d + - r)) by (unfold in_int64; lia).
      destruct (Z.ltb_spec (d + - r) d); [lia|].
      split; [exists q; lia | lia].
    + unfold dadd, dsub.
      rewrite (wrap64_id (d - roundInterval)) by (unfold in_int64; lia).
      rewrite (wrap64_id (d - roundInterval + - r)) by (unfold in_int64; lia).
      destruct (Z.ltb_spec (d - roundInterval + - r) d); [|lia].
      destruct (Z.ltb_spec (d - roundInterval + - r) d); [|lia].
      rewrite wrap64_id by (unfold in_int64; lia).
      split; [exists q; lia | lia].
  - specialize (Hpos ltac:(lia)).
    rewrite lessThanHalf_small by lia.
    destruct (Z.ltb_spec (2 * r) roundInterval) as [Hh|Hh].
    + unfold dsub, dadd. rewrite (wrap64_id (d - r)) by (unfold in_int64; lia).
      destruct (Z.ltb_spec (d - r) d).
      * rewrite wrap64_id by (unfold in_int64; lia).
        split; [exists (q + 1); lia | lia].
      * split; [exists q; lia | lia].
    + unfold dsub, dadd.
      rewrite (wrap64_id (d + roundInterval)) by (unfold in_int64; lia).
      rewrite (wrap64_id (d + roundInterval - r)) by (unfold in_int64; lia).
      destruct (Z.gtb_spec (d + roundInterval - r) d); [|lia].
      destruct (Z.ltb_spec (d + roundInterval - r) d); [lia|].
      split; [exists (q + 1); lia | lia].
Qed.

Lemma C6_rounds_up_to_ten_seconds_witness :
  no_overflow (-3 * Second) /\
  (exists k, roundDurationUp (-3 * Second) = k * roundInterval) /\
  -3 * Second <= roundDurationUp (-3 * Second) < -3 * Second + roundInterval.
Proof.
  assert (H : no_overflow (-3 * Second)) by (vm_compute; split; discriminate).
  split; [exact H|]. exact (C6_rounds_up_to_ten_seconds (-3 * Second) H).
Defined.

(** * Reasoning about executions *)

Lemma post_ret {A} (a : A) m (Q : A -> machine -> Prop) :
  Q a m -> post (ret a) m Q.
Proof. intros HQ a' m' H. inversion H; subst. exact HQ. Qed.

Lemma post_bind {A B} (c : M A) (k : A -> M B) m (Q : B -> machine -> Prop) :
  post c m (fun a m1 => post (k a) m1 Q) -> post (bind c k) m Q.
Proof.
  intros Hc b m' H. unfold bind in H.
  destruct (c m) as [[a m1]| |] eqn:E; try discriminate.
  exact (Hc a m1 E b m' H).
Qed.

Lemma post_mono {A} (c : M A) m (Q Q' : A -> machine -> Prop) :
  post c m Q -> (forall a m', Q a m' -> Q' a m') -> post c m Q'.
Proof. intros H HQ a m' E. apply HQ, H, E. Qed.

Lemma post_panic {A} m (Q : A -> machine -> Prop) : post panic m Q.
Proof. intros a m' H. discriminate. Qed.

Lemma post_outOfFuel {A} m (Q : A -> machine -> Prop) : post outOfFuel m Q.
Proof. intros a m' H. discriminate. Qed.

Lemma post_deref {A} (p : option A) m (Q : A -> machine -> Prop) :
  (forall a, p = Some a -> Q a m) -> post (deref p) m Q.
Proof.
  intros H. destruct p as [a|]; simpl.
  - apply post_ret. now apply H.
  - apply post_panic.
Qed.

Lemma post_getSpot m (Q : spotState -> machine -> Prop) :
  Q (spot m) m -> post getSpot m Q.
Proof. intros HQ a m' H. inversion H; subst. exact HQ. Qed.

Lemma post_setTrackedReqs s m (Q : unit -> machine -> Prop) :
  Q tt (mkMachine
          (mkSpotState s (approximateClockSkew (spot m)) (launchTimeOffset (spot m)))
          (history m)) ->
  post (setTrackedReqs s) m Q.
Proof. intros HQ a m' H. inversion H; subst. exact HQ. Qed.

Lemma post_setApproximateClockSkew d m (Q : unit -> machine -> Prop) :
  Q tt (mkMachine
          (mkSpotState (trackedReqs (spot m)) d (launchTimeOffset (spot m)))
          (history m)) ->
  post (setApproximateClockSkew d) m Q.
Proof. intros HQ a m' H. inversion H; subst. exact HQ. Qed.

Lemma post_setLaunchTimeOffset d m (Q : unit -> machine -> Prop) :
  Q tt (mkMachine
          (mkSpotState (trackedReqs (spot m)) (approximateClockSkew (spot m)) d)
          (history m)) ->
  post (setLaunchTimeOffset d) m Q.
Proof. intros HQ a m' H. inversion H; subst. exact HQ. Qed.

Lemma post_emit e m (Q : unit -> machine -> Prop) :
  Q tt (mkMachine (spot m) (history m ++ [e])) -> post (emit e) m Q.
Proof. intros HQ a m' H. inversion H; subst. exact HQ. Qed.

(** Every call to the outside leaves the engine's state alone and adds one
    event. *)
Lemma post_Now env m (Q : Time -> machine -> Prop) :
  (forall t, Q t (mkMachine (spot m) (history m ++ [EvNow t]))) ->
  post (Now env) m Q.
Proof. intros HQ a m' H. inversion H; subst. apply HQ. Qed.

Lemma post_RequestSpotInstances env input m
    (Q : res (list ec2SpotInstanceRequest) -> machine -> Prop) :
  (forall r, Q r (mkMachine (spot m) (history m ++ [EvRequestSpotInstances input r]))) ->
  post (RequestSpotInstances env input) m Q.
Proof. intros HQ a m' H. inversion H; subst. apply HQ. Qed.

Lemma post_DescribeSpotInstanceRequests env f m
    (Q : res (list ec2SpotInstanceRequest) -> machine -> Prop) :
  (forall r, Q r (mkMachine (spot m) (history m ++ [EvDescribeSpotInstanceRequests f r]))) ->
  post (DescribeSpotInstanceRequests env f) m Q.
Proof. intros HQ a m' H. inversion H; subst. apply HQ. Qed.

Lemma post_CancelSpotInstanceRequests env ids m (Q : res unit -> machine -> Prop) :
  (forall r, Q r (mkMachine (spot m) (history m ++ [EvCancelSpotInstanceRequests ids r]))) ->
  post (CancelSpotInstanceRequests env ids) m Q.
Proof. intros HQ a m' H. inversion H; subst. apply HQ. Qed.

Lemma post_CreateTags env ids m (Q : res unit -> machine -> Prop) :
  (forall r, Q r (mkMachine (spot m) (history m ++ [EvCreateTags ids r]))) ->
  post (CreateTags env ids) m Q.
Proof. intros HQ a m' H. inversion H; subst. apply HQ. Qed.

Lemma post_callTerminateInstances env ids m (Q : res unit -> machine -> Prop) :
  (forall r, Q r (mkMachine (spot m) (history m ++ [EvTerminateInstances ids r]))) ->
  post (callTerminateInstances env ids) m Q.
Proof. intros HQ a m' H. inversion H; subst. apply HQ. Qed.

Lemma post_callDescribeInstancesByID env ids m
    (Q : res (list ec2Instance) -> machine -> Prop) :
  (forall r, Q r (mkMachine (spot m) (history m ++ [EvDescribeInstancesByID ids r]))) ->
  post (callDescribeInstancesByID env ids) m Q.
Proof. intros HQ a m' H. inversion H; subst. apply HQ. Qed.

(** One step of symbolic execution. *)
Ltac step :=
  lazymatch goal with
  | |- post (bind _ _) _ _ => apply post_bind
  | |- post (ret _) _ _ => apply post_ret
  | |- post panic _ _ => apply post_panic
  | |- post outOfFuel _ _ => apply post_outOfFuel
  | |- post (deref _) _ _ => apply post_deref; intros ? ?
  | |- post getSpot _ _ => apply post_getSpot
  | |- post (setTrackedReqs _) _ _ => apply post_setTrackedReqs
  | |- post (setApproximateClockSkew _) _ _ => apply post_setApproximateClockSkew
  | |- post (setLaunchTimeOffset _) _ _ => apply post_setLaunchTimeOffset
  | |- post (emit _) _ _ => apply post_emit
  | |- post (terminateOnDemand _) _ _ => apply post_emit
  | |- post (Now _) _ _ => apply post_Now; intros ?
  | |- post (RequestSpotInstances _ _) _ _ => apply post_RequestSpotInstances; intros ?
  | |- post (DescribeSpotInstanceRequests _ _) _ _ =>
      apply post_DescribeSpotInstanceRequests; intros ?
  | |- post (CancelSpotInstanceRequests _ _) _ _ =>
      apply post_CancelSpotInstanceRequests; intros ?
  | |- post (CreateTags _ _) _ _ => apply post_CreateTags; intros ?
  | |- post (callTerminateInstances _ _) _ _ =>
      apply post_callTerminateInstances; intros ?
  | |- post (callDescribeInstancesByID _ _) _ _ =>
      apply post_callDescribeInstancesByID; intros ?
  | |- post (if ?b then _ else _) _ _ => destruct b eqn:?
  | |- post (match ?x with _ => _ end) _ _ => destruct x eqn:?
  | |- post (let '(_, _) := ?x in _) _ _ => destruct x eqn:?
  end.

(** A returned result read backwards. *)
Ltac done_inv H := unfold ret in H; cbv beta in H; injection H as ?; subst.

Ltac steps := repeat (step; cbn [spot history trackedReqs approximateClockSkew launchTimeOffset]).

Lemma newEvents_app m m' l : history m' = history m ++ l -> newEvents m m' = l.
Proof. intros H. unfold newEvents. rewrite H. apply drop_app_length. Qed.

Lemma creationAttempts_app h1 h2 :
  creationAttempts (h1 ++ h2) = creationAttempts h1 ++ creationAttempts h2.
Proof. unfold creationAttempts. apply omap_app. Qed.

Lemma creationAttempts_attempts (atts : list attempt) :
  creationAttempts (concat (attemptEvents <$> atts)) = (fun a : attempt => (a.1.2, a.2)) <$> atts.
Proof.
  induction atts as [|a atts IH]; [reflexivity|].
  cbn [fmap list_fmap concat]. rewrite creationAttempts_app, IH. reflexivity.
Qed.

(** * The launch-offset retry wrapper *)

(** What one turn of the loop does. *)
Lemma launchAttempt_post env n d m :
  post (launchAttempt env n d) m (fun o m' =>
    exists r,
      let t := timeNow env (history m) in
      let c := spot m in
      let input :=
        mkSpotInput d n (configInstanceType env)
          (Add (Add t (approximateClockSkew c))
               (dadd (approximateClockSkew c) (launchTimeOffset c))) in
      history m' = history m ++ attemptEvents (t, input, r) /\
      trackedReqs (spot m') = trackedReqs c /\
      approximateClockSkew (spot m') = approximateClockSkew c /\
      launchTimeOffset (spot m') =
        (if windowRejected r
         then dadd (launchTimeOffset c) launchTimeOffsetGrowth
         else launchTimeOffset c) /\
      o = match r with
          | Success resp => Return (Some resp) None
          | Failure (AwsErr code msg) => Continue (AwsErr code msg)
          | Failure (OtherErr msg) => Return None (Some (OtherErr msg))
          end).
Proof.
  unfold launchAttempt, createSpotInstanceRequest, Now.
  intros o m' H. unfold bind, getSpot, RequestSpotInstances in H. cbn in H.
  match type of H with context [clientRequestSpotInstances env ?h ?i] =>
    set (r := clientRequestSpotInstances env h i) in * end.
  exists r. cbn zeta.
  destruct r as [resp|[code msg|msg]]; cbn in H.
  - inversion H; subst; cbn. rewrite <- app_assoc. auto.
  - unfold windowRejected. destruct (String.eqb code "InvalidTime");
      cbn in H; inversion H; subst; cbn; rewrite <- app_assoc; auto.
  - inversion H; subst; cbn. rewrite <- app_assoc. auto.
Qed.

Lemma launchAttempt_total env n d m :
  exists o m', launchAttempt env n d m = Done (o, m').
Proof.
  unfold launchAttempt, createSpotInstanceRequest, Now, bind, getSpot, RequestSpotInstances.
  cbn.
  match goal with |- context [clientRequestSpotInstances env ?h ?i] =>
    destruct (clientRequestSpotInstances env h i) as [resp|[code msg|msg]] end; cbn.
  - eauto.
  - destruct (String.eqb code "InvalidTime"); cbn; eauto.
  - eauto.
Qed.

Lemma retryLoop_spec env n d fuel k err m :
  0 <= k <= maxRetries ->
  Z.of_nat fuel > maxRetries + 1 - k ->
  exists out m' atts,
    retryLoop env fuel n d k err m = Done (out, m') /\
    history m' = history m ++ concat (attemptEvents <$> atts) /\
    retryRun k atts out /\
    trackedReqs (spot m') = trackedReqs (spot m) /\
    approximateClockSkew (spot m') = approximateClockSkew (spot m) /\
    launchTimeOffset (spot m') = offsetAfter (launchTimeOffset (spot m)) atts.
Proof.
  revert k err m. unfold maxRetries.
  induction fuel as [|fuel IH]; intros k err m Hk Hfuel; [lia|].
  cbn [retryLoop]. unfold maxRetries.
  destruct (Z.leb_spec k 5) as [_|]; [|lia].
  destruct (launchAttempt_total env n d m) as (o & m1 & Hrun).
  pose proof (launchAttempt_post env n d m o m1 Hrun) as (r & Hh & Ht & Hs & Hl & Ho).
  cbn zeta in *.
  set (a := (timeNow env (history m),
             mkSpotInput d n (configInstanceType env)
               (Add (Add (timeNow env (history m)) (approximateClockSkew (spot m)))
                    (dadd (approximateClockSkew (spot m)) (launchTimeOffset (spot m)))),
             r) : attempt) in *.
  unfold bind. rewrite Hrun.
  destruct r as [resp|[code msg|msg]]; subst o.
  - exists (Some resp, None), m1, [a]. cbn [fmap list_fmap concat]. rewrite ?app_nil_r.
    repeat split; auto. apply (run_success k a resp); [unfold maxRetries; lia | reflexivity].
  - destruct (Z.eq_dec k 5) as [->|Hne].
    + (* the sixth attempt: the loop test fails next *)
      destruct fuel as [|fuel']; [lia|]. cbn [retryLoop]. unfold maxRetries.
      cbn [ret bind]. exists (None, Some (AwsErr code msg)), m1, [a]. cbn [fmap list_fmap concat]. rewrite ?app_nil_r.
      repeat split; auto. apply (run_exhausted a code msg). reflexivity.
    + destruct (IH (k + 1) (Some (AwsErr code msg)) m1 ltac:(lia) ltac:(lia))
        as (out & m' & atts & Hrun' & Hh' & Hrr & Ht' & Hs' & Hl').
      exists out, m', (a :: atts). rewrite Hrun'.
      repeat split; auto.
      * rewrite Hh', Hh. cbn [fmap list_fmap concat]. rewrite <- app_assoc. reflexivity.
      * apply (run_retry k a code msg); [unfold maxRetries; lia | reflexivity | exact Hrr].
      * congruence.
      * congruence.
      * rewrite Hl', Hl. reflexivity.
  - exists (None, Some (OtherErr msg)), m1, [a]. cbn [fmap list_fmap concat]. rewrite ?app_nil_r.
    repeat split; auto. apply (run_abort k a msg); [unfold maxRetries; lia | reflexivity].
Qed.

(** The wrapper always returns, and its run is a [retryRun] from zero. *)
Lemma wrapper_spec env n d m :
  exists out m' atts,
    createSpotInstanceRequestsCorrectingForClockSkew env n d m = Done (out, m') /\
    history m' = history m ++ concat (attemptEvents <$> atts) /\
    retryRun 0 atts out /\
    trackedReqs (spot m') = trackedReqs (spot m) /\
    approximateClockSkew (spot m') = approximateClockSkew (spot m) /\
    launchTimeOffset (spot m') = offsetAfter (launchTimeOffset (spot m)) atts.
Proof.
  unfold createSpotInstanceRequestsCorrectingForClockSkew.
  apply retryLoop_spec; unfold maxRetries, retryFuel; lia.
Qed.

Lemma retryRun_length k atts out :
  retryRun k atts out -> 1 <= Z.of_nat (length atts) <= maxRetries + 1 - k.
Proof.
  induction 1; cbn [length]; unfold maxRetries in *; lia.
Qed.

(** Where a failed attempt stands in a run: a failure that is not an AWS
    error ends the run at once; an AWS error, whatever its code, is followed
    by another attempt unless it was the last one allowed. *)
Lemma retryRun_failure k atts out pre a post e :
  retryRun k atts out ->
  atts = pre ++ a :: post ->
  a.2 = Failure e ->
  match e with
  | OtherErr _ => post = [] /\ out = (None, Some e)
  | AwsErr _ _ =>
      post <> [] \/
      (post = [] /\ k + Z.of_nat (length pre) = maxRetries /\ out = (None, Some e))
  end.
Proof.
  intros Hrun. revert pre.
  induction Hrun as [k a0 resp Hk Ha|k a0 msg Hk Ha|a0 code msg Ha
                    |k a0 code msg atts out Hk Ha Hrun IH];
    intros pre Heq Hfail.
  - destruct pre as [|x [|y pre]]; inversion Heq; subst. congruence.
  - destruct pre as [|x [|y pre]]; inversion Heq; subst.
    rewrite Ha in Hfail. inversion Hfail; subst. auto.
  - destruct pre as [|x [|y pre]]; inversion Heq; subst.
    rewrite Ha in Hfail. inversion Hfail; subst. right. cbn. auto with zarith.
  - destruct pre as [|x pre]; inversion Heq; subst.
    + rewrite Ha in Hfail. inversion Hfail; subst. left.
      inversion Hrun; discriminate.
    + specialize (IH pre eq_refl Hfail).
      destruct e; [|exact IH].
      destruct IH as [IH|(IH1 & IH2 & IH3)]; [left; exact IH|].
      right. repeat split; auto. cbn [length]. lia.
Qed.

(** * Frame conditions *)

Lemma keeps_ret R `{!Reflexive R} {A} (a : A) : keeps R (ret a).
Proof. intros m a' m' H. inversion H; subst. reflexivity. Qed.

Lemma keeps_bind R `{!Transitive R} {A B} (c : M A) (k : A -> M B) :
  keeps R c -> (forall a, keeps R (k a)) -> keeps R (bind c k).
Proof.
  intros Hc Hk m b m' H. unfold bind in H.
  destruct (c m) as [[a m1]| |] eqn:E; try discriminate.
  transitivity m1; [eapply Hc, E | eapply Hk, H].
Qed.

Lemma keeps_panic R {A} : keeps R (@panic A).
Proof. intros m a m' H. discriminate. Qed.

Lemma keeps_outOfFuel R {A} : keeps R (@outOfFuel A).
Proof. intros m a m' H. discriminate. Qed.

Lemma keeps_deref R `{!Reflexive R} {A} (p : option A) : keeps R (deref p).
Proof. destruct p; [apply keeps_ret, _ | apply keeps_panic]. Qed.

Lemma keeps_getSpot R `{!Reflexive R} : keeps R getSpot.
Proof. intros m a m' H. inversion H; subst. reflexivity. Qed.

Lemma keeps_post R {A} (c : M A) m : keeps R c -> post c m (fun _ m' => R m m').
Proof. intros H a m' E. eapply H, E. Qed.

#[local] Instance sameOffset_refl : Reflexive sameOffset.
Proof. intros m. reflexivity. Qed.
#[local] Instance sameOffset_trans : Transitive sameOffset.
Proof. intros m1 m2 m3. unfold sameOffset. congruence. Qed.
#[local] Instance sameSpot_refl : Reflexive sameSpot.
Proof. intros m. reflexivity. Qed.
#[local] Instance sameSpot_trans : Transitive sameSpot.
Proof. intros m1 m2 m3. unfold sameSpot. congruence. Qed.
#[local] Instance growsBy_refl P : Reflexive (growsBy P).
Proof. intros m. exists []. split; [symmetry; apply app_nil_r | reflexivity]. Qed.
#[local] Instance growsBy_trans P : Transitive (growsBy P).
Proof.
  intros m1 m2 m3 (e1 & H1 & F1) (e2 & H2 & F2). exists (e1 ++ e2). split.
  - rewrite H2, H1, app_assoc. reflexivity.
  - rewrite forallb_app, F1, F2. reflexivity.
Qed.

(** A primitive step: it returns at once, so the relation is checked on
    the spot. *)
Ltac prim_keeps :=
  let H := fresh in
  intros ? ? ? H; inversion H; subst; clear H;
  first
    [ reflexivity
    | eexists []; split; [symmetry; apply app_nil_r | reflexivity]
    | eexists [_]; split; [reflexivity | reflexivity] ].

Create HintDb frame.

Ltac frame :=
  repeat
    lazymatch goal with
    | |- keeps _ (bind _ _) => apply keeps_bind; [exact _ | | intros ?]
    | |- keeps _ (ret _) => apply keeps_ret; exact _
    | |- keeps _ panic => apply keeps_panic
    | |- keeps _ outOfFuel => apply keeps_outOfFuel
    | |- keeps _ (deref _) => apply keeps_deref; exact _
    | |- keeps _ getSpot => apply keeps_getSpot; exact _
    | |- keeps _ (if ?b then _ else _) => destruct b
    | |- keeps _ (match ?x with _ => _ end) => destruct x
    | |- keeps _ (let '(_, _) := ?x in _) => destruct x
    | |- keeps _ _ => first [ solve [auto with frame] | solve [prim_keeps] ]
    end.

(** * Claims about the retry wrapper *)

(** In every attempt the window start is the clock reading plus the skew
    plus the wrapped sum of skew and offset: the wrapper passes
    [approximateClockSkew + launchTimeOffset] down, and
    [createSpotInstanceRequest] adds [approximateClockSkew] again. *)
Lemma launchAttempt_validFrom env n d m o m' :
  launchAttempt env n d m = Done (o, m') ->
  (ValidFrom ∘ fst) <$> creationAttempts (newEvents m m') =
    [timeNow env (history m) + approximateClockSkew (spot m)
     + dadd (approximateClockSkew (spot m)) (launchTimeOffset (spot m))].
Proof.
  intros H. destruct (launchAttempt_post env n d m o m' H) as (r & Hh & _).
  cbn zeta in Hh. rewrite (newEvents_app _ _ _ Hh). reflexivity.
Qed.

(** C1 (the code departs from the claim). With a measured skew of 10 s and
    the offset at 10 s, the clock reading 1000 s, the single attempt of a
    successful launch submits a window starting at 1030 s, whereas now +
    approximateClockSkew + launchTimeOffset is 1020 s: the skew is added
    twice. *)
Theorem C1_valid_from_adds_skew_twice :
  exists out m',
    createSpotInstanceRequestsCorrectingForClockSkew
      Examples.accepting 1 false Examples.skewed = Done (out, m') /\
    timeNow Examples.accepting (history Examples.skewed) = 1000 * Second /\
    (ValidFrom ∘ fst) <$> creationAttempts (newEvents Examples.skewed m')
      = [1030 * Second] /\
    1000 * Second
      + approximateClockSkew (spot Examples.skewed)
      + launchTimeOffset (spot Examples.skewed) = 1020 * Second.
Proof.
  eexists _, _. split; [vm_compute; reflexivity|].
  split; [reflexivity|]. split; reflexivity.
Qed.

Lemma attemptsMade_spec env n d m :
  exists out m' atts,
    createSpotInstanceRequestsCorrectingForClockSkew env n d m = Done (out, m') /\
    creationAttempts (newEvents m m') = (fun a : attempt => (a.1.2, a.2)) <$> atts /\
    retryRun 0 atts out /\
    attemptsMade env n d m = Some (length atts).
Proof.
  destruct (wrapper_spec env n d m) as (out & m' & atts & Hrun & Hh & Hrr & _).
  exists out, m', atts. unfold attemptsMade. rewrite Hrun.
  rewrite (newEvents_app _ _ _ Hh), creationAttempts_attempts, length_fmap. auto.
Qed.

(** C3, as stated, fails: when every validity window is rejected the
    wrapper makes six creation attempts. *)
Lemma C3_six_attempts :
  ~ (forall env n d m k, attemptsMade env n d m = Some k -> (k <= 5)%nat).
Proof.
  intros H.
  specialize (H Examples.rejecting 1 false Examples.fresh 6%nat ltac:(vm_compute; reflexivity)).
  lia.
Qed.

(** C3 (amended). Every call of the wrapper returns, after at least one and
    at most six creation attempts: the first one and at most [maxRetries]
    = 5 retries. *)
Theorem C3_at_most_six_attempts env n d m :
  exists k, attemptsMade env n d m = Some k /\ (1 <= k <= 6)%nat.
Proof.
  destruct (attemptsMade_spec env n d m) as (out & m' & atts & _ & _ & Hrr & Hk).
  exists (length atts). split; [exact Hk|].
  apply retryRun_length in Hrr. unfold maxRetries in Hrr. lia.
Qed.

(** C4, as stated, fails: an AWS error with a code other than
    [InvalidTime] does not end the loop; here the second attempt succeeds
    and the wrapper returns its answer, not the first error. *)
Lemma C4_aws_error_is_retried :
  ~ (forall env n d m out m' pre i e post,
        createSpotInstanceRequestsCorrectingForClockSkew env n d m = Done (out, m') ->
        creationAttempts (newEvents m m') = pre ++ (i, Failure e) :: post ->
        windowRejected (@Failure (list ec2SpotInstanceRequest) e) = false ->
        post = [] /\ out = (None, Some e)).
Proof.
  intros H.
  destruct (createSpotInstanceRequestsCorrectingForClockSkew
              Examples.throttling 1 false Examples.fresh) as [[out m']| |] eqn:E;
    try (vm_compute in E; discriminate).
  pose proof E as E'. vm_compute in E'. inversion E' as [[Hout Hm]]. clear E'.
  destruct (creationAttempts (newEvents Examples.fresh m')) as [|[i r] post] eqn:Ec;
    rewrite <- Hm in Ec; vm_compute in Ec; [discriminate|].
  inversion Ec as [[Hi Hr Hpost]].
  specialize (H Examples.throttling 1 false Examples.fresh out m' [] i
                (AwsErr "RequestLimitExceeded" "slow down") post E).
  rewrite <- Hm in H. 
  destruct (H ltac:(vm_compute; rewrite <- Hi, <- Hpost; reflexivity) eq_refl) as [Hp _].
  rewrite <- Hpost in Hp. discriminate.
Qed.

(** C4 (amended). Only an error that is not an AWS service error ends the
    loop at once: it is the last attempt and the error is returned. After
    an AWS service error of any code another attempt follows, unless it was
    the sixth attempt, whose error is then returned. *)
Theorem C4_only_unknown_errors_abort env n d m out m' pre i e post :
  createSpotInstanceRequestsCorrectingForClockSkew env n d m = Done (out, m') ->
  creationAttempts (newEvents m m') = pre ++ (i, Failure e) :: post ->
  match e with
  | OtherErr _ => post = [] /\ out = (None, Some e)
  | AwsErr _ _ =>
      post <> [] \/ (post = [] /\ length pre = 5%nat /\ out = (None, Some e))
  end.
Proof.
  intros Hrun Hsplit.
  destruct (attemptsMade_spec env n d m) as (out0 & m0 & atts & Hrun0 & Hc & Hrr & _).
  rewrite Hrun in Hrun0. inversion Hrun0; subst out0 m0. clear Hrun0.
  rewrite Hsplit in Hc. symmetry in Hc.
  apply fmap_app_inv in Hc as (pre' & rest & Hpre & Hrest & ->).
  symmetry in Hrest. apply fmap_cons_inv in Hrest as (a & post' & Ha & Hpost & ->).
  inversion Ha as [[Hi Hr]].
  pose proof (retryRun_failure 0 _ out pre' a post' e Hrr eq_refl (eq_sym Hr)) as Hf.
  subst pre post. destruct e as [code msg|msg].
  - destruct Hf as [Hf|(-> & Hlen & Ho)].
    + left. destruct post'; [congruence | discriminate].
    + right. rewrite length_fmap. unfold maxRetries in Hlen. repeat split; auto. lia.
  - destruct Hf as [-> Ho]. auto.
Qed.

Lemma C4_only_unknown_errors_abort_witness :
  let i := mkSpotInput false 1 "p3.2xlarge" (1010 * Second) in
  let e := OtherErr "connection reset" in
  let m' := mkMachine (spot Examples.fresh)
              [EvNow (1000 * Second); EvRequestSpotInstances i (Failure e)] in
  createSpotInstanceRequestsCorrectingForClockSkew
    Examples.unreachable 1 false Examples.fresh = Done ((None, Some e), m') /\
  creationAttempts (newEvents Examples.fresh m') = [] ++ (i, Failure e) :: [] /\
  ([] : list (RequestSpotInstancesInput * res (list ec2SpotInstanceRequest))) = [] /\
  (None, Some e) = (@None (list ec2SpotInstanceRequest), Some e).
Proof.
  intros i e m'.
  assert (Hrun : createSpotInstanceRequestsCorrectingForClockSkew
                   Examples.unreachable 1 false Examples.fresh
                 = Done ((None, Some e), m')) by (vm_compute; reflexivity).
  assert (Hsplit : creationAttempts (newEvents Examples.fresh m')
                   = [] ++ (i, Failure e) :: []) by (vm_compute; reflexivity).
  split; [exact Hrun|]. split; [exact Hsplit|].
  exact (C4_only_unknown_errors_abort _ _ _ _ _ _ _ _ _ _ Hrun Hsplit).
Defined.

Lemma keeps_sameSpot_sameOffset {A} (c : M A) : keeps sameSpot c -> keeps sameOffset c.
Proof. intros H m a m' E. unfold sameOffset. rewrite (H m a m' E). reflexivity. Qed.

Lemma keeps_eq {A} R `{!Reflexive R} (c : M A) : keeps eq c -> keeps R c.
Proof. intros H m a m' E. rewrite <- (H m a m' E). reflexivity. Qed.

#[local] Hint Resolve keeps_sameSpot_sameOffset | 5 : frame.
#[local] Hint Extern 6 (keeps _ _) => (apply keeps_eq; [exact _ |]) : frame.

(** Functions that only compute (or panic). *)
Lemma collectRequests_pure reqs acc : keeps eq (collectRequests reqs acc).
Proof.
  revert acc. induction reqs as [|req reqs IH]; intros acc; cbn [collectRequests].
  - frame.
  - frame; try apply IH.
Qed.
#[local] Hint Resolve collectRequests_pure : frame.

Lemma classifyActive_pure reqs acc : keeps eq (classifyActive reqs acc).
Proof.
  revert acc. induction reqs as [|req reqs IH]; intros acc; cbn [classifyActive].
  - frame.
  - frame; try apply IH.
Qed.
#[local] Hint Resolve classifyActive_pure : frame.

Lemma dropTerminal_pure l acc : keeps eq (dropTerminal l acc).
Proof.
  revert acc. induction l as [|i l IH]; intros acc; cbn [dropTerminal].
  - frame.
  - frame; try apply IH.
Qed.
#[local] Hint Resolve dropTerminal_pure : frame.

Lemma partitionIDs_pure l a b : keeps eq (partitionIDs l a b).
Proof.
  revert a b. induction l as [|i l IH]; intros a b; cbn [partitionIDs].
  - frame.
  - frame; try apply IH.
Qed.
#[local] Hint Resolve partitionIDs_pure : frame.

(** Functions that leave the engine's state alone. *)
Lemma describeRequests_sameSpot env f : keeps sameSpot (describeRequests env f).
Proof. unfold describeRequests. frame. Qed.
#[local] Hint Resolve describeRequests_sameSpot : frame.

Lemma listSpotRequestsByID_sameSpot env ids : keeps sameSpot (listSpotRequestsByID env ids).
Proof. unfold listSpotRequestsByID. frame. Qed.
#[local] Hint Resolve listSpotRequestsByID_sameSpot : frame.

Lemma terminateSpotInstanceRequests_sameSpot env ids :
  keeps sameSpot (terminateSpotInstanceRequests env ids).
Proof. unfold terminateSpotInstanceRequests. frame. Qed.
#[local] Hint Resolve terminateSpotInstanceRequests_sameSpot : frame.

Lemma setTagsOnInstances_sameSpot env s : keeps sameSpot (setTagsOnInstances env s).
Proof. unfold setTagsOnInstances. frame. Qed.
#[local] Hint Resolve setTagsOnInstances_sameSpot : frame.

Lemma notifyUser_sameSpot reqs : keeps sameSpot (notifyUser reqs).
Proof.
  induction reqs as [|req reqs IH]; cbn [notifyUser]; frame; try apply IH.
Qed.
#[local] Hint Resolve notifyUser_sameSpot : frame.

Lemma buildInstanceListFromTrackedReqs_sameSpot env :
  keeps sameSpot (buildInstanceListFromTrackedReqs env).
Proof. unfold buildInstanceListFromTrackedReqs. frame. Qed.
#[local] Hint Resolve buildInstanceListFromTrackedReqs_sameSpot : frame.

Lemma terminateSpot_sameSpot env ids : keeps sameSpot (terminateSpot env ids).
Proof. unfold terminateSpot, terminateOnDemand. frame. Qed.

Lemma createSpotInstanceRequest_sameSpot env n t off d :
  keeps sameSpot (createSpotInstanceRequest env n t off d).
Proof. unfold createSpotInstanceRequest. frame. Qed.
#[local] Hint Resolve createSpotInstanceRequest_sameSpot : frame.

Lemma cleanUpCalibration_sameSpot env fuel id :
  keeps sameSpot (cleanUpCalibration env fuel id).
Proof.
  induction fuel as [|fuel IH]; cbn [cleanUpCalibration]; frame; try apply IH.
Qed.
#[local] Hint Resolve cleanUpCalibration_sameSpot : frame.

(** Functions that change the tracked set or the skew, not the offset. *)
Lemma trackAll_sameOffset reqs : keeps sameOffset (trackAll reqs).
Proof.
  induction reqs as [|req reqs IH]; cbn [trackAll]; frame; try apply IH.
Qed.
#[local] Hint Resolve trackAll_sameOffset : frame.

Lemma trackCreated_sameOffset reqs : keeps sameOffset (trackCreated reqs).
Proof.
  induction reqs as [|req reqs IH]; cbn [trackCreated]; frame; try apply IH.
Qed.
#[local] Hint Resolve trackCreated_sameOffset : frame.

Lemma processNewOrInactive_sameOffset reqs missing num notify :
  keeps sameOffset (processNewOrInactive reqs missing num notify).
Proof.
  revert missing num notify.
  induction reqs as [|req reqs IH]; intros missing num notify;
    cbn [processNewOrInactive]; frame; try apply IH.
Qed.
#[local] Hint Resolve processNewOrInactive_sameOffset : frame.

Lemma listSpot_sameOffset env : keeps sameOffset (listSpot env).
Proof.
  unfold listSpot, listActiveSpotInstanceRequests,
    listCanceledButInstanceRunningSpotRequests.
  frame.
Qed.

Lemma attemptToApproximateClockSkew_sameOffset env fuel :
  keeps sameOffset (attemptToApproximateClockSkew env fuel).
Proof. unfold attemptToApproximateClockSkew. frame. Qed.

(** * The launch offset over the engine's lifetime *)

Lemma growth_value : launchTimeOffsetGrowth = 10000000000.
Proof. reflexivity. Qed.

Lemma offsetAfter_bounds atts off :
  minDuration <= off ->
  off + Z.of_nat (length atts) * launchTimeOffsetGrowth <= maxDuration ->
  off <= offsetAfter off atts <= off + Z.of_nat (length atts) * launchTimeOffsetGrowth.
Proof.
  unfold offsetAfter. rewrite growth_value.
  revert off. induction atts as [|a atts IH]; intros off Hmin Hmax; cbn [foldl length] in *.
  - lia.
  - destruct (windowRejected a.2).
    + assert (Hin : in_int64 (off + 10000000000)) by (unfold in_int64; lia).
      change (dadd off 10000000000) with (wrap64 (off + 10000000000)).
      rewrite (wrap64_id _ Hin).
      specialize (IH (off + 10000000000) ltac:(lia) ltac:(lia)). lia.
    + specialize (IH off ltac:(lia) ltac:(lia)). lia.
Qed.

Lemma bind_inv {A B} (c : M A) (k : A -> M B) m b m' :
  bind c k m = Done (b, m') ->
  exists a m1, c m = Done (a, m1) /\ k a m1 = Done (b, m').
Proof.
  unfold bind. destruct (c m) as [[a m1]| |]; try discriminate. eauto.
Qed.

Lemma launchSpot_offset env n m r m' :
  launchSpot env n m = Done (r, m') ->
  minDuration <= launchTimeOffset (spot m) ->
  launchTimeOffset (spot m) + 6 * launchTimeOffsetGrowth <= maxDuration ->
  launchTimeOffset (spot m) <= launchTimeOffset (spot m')
    <= launchTimeOffset (spot m) + 6 * launchTimeOffsetGrowth.
Proof.
  intros Hrun Hmin Hmax. unfold launchSpot in Hrun. rewrite growth_value in *.
  destruct (n <=? 0).
  { inversion Hrun; subst. lia. }
  apply bind_inv in Hrun as (created & m1 & Hw' & Hrun).
  destruct (wrapper_spec env n false m) as (out & m1' & atts & Hw & _ & Hrr & _ & _ & Hoff).
  rewrite Hw in Hw'. inversion Hw'; subst created m1'. clear Hw'.
  apply retryRun_length in Hrr. unfold maxRetries in Hrr.
  pose proof (offsetAfter_bounds atts (launchTimeOffset (spot m)) Hmin) as Hb.
  rewrite growth_value in Hb. specialize (Hb ltac:(lia)). rewrite <- Hoff in Hb.
  assert (Hm1 : launchTimeOffset (spot m') = launchTimeOffset (spot m1)); [|lia].
  destruct out as [resp [e|]].
  - inversion Hrun; subst. reflexivity.
  - lazymatch type of Hrun with
    | ?c m1 = _ => assert (K : keeps sameOffset c) by frame
    end.
    exact (K _ _ _ Hrun).
Qed.

Lemma runOperation_offset env op m m' :
  runOperation env op m = Done (tt, m') ->
  minDuration <= launchTimeOffset (spot m) ->
  launchTimeOffset (spot m) + 6 * launchTimeOffsetGrowth <= maxDuration ->
  launchTimeOffset (spot m) <= launchTimeOffset (spot m')
    <= launchTimeOffset (spot m) + 6 * launchTimeOffsetGrowth.
Proof.
  intros Hrun Hmin Hmax. rewrite growth_value in *.
  destruct op as [fuel| |n|ids]; cbn [runOperation] in Hrun.
  - rewrite (attemptToApproximateClockSkew_sameOffset env fuel _ _ _ Hrun). lia.
  - unfold bind in Hrun. destruct (listSpot env m) as [[r m1]| |] eqn:E; try discriminate.
    inversion Hrun; subst. rewrite (listSpot_sameOffset env _ _ _ E). lia.
  - unfold bind in Hrun. destruct (launchSpot env n m) as [[r m1]| |] eqn:E; try discriminate.
    inversion Hrun; subst.
    pose proof (launchSpot_offset env n m r m' E Hmin) as H. rewrite growth_value in H. lia.
  - pose proof (terminateSpot_sameSpot env ids _ _ _ Hrun) as H. unfold sameSpot in H.
    rewrite H. lia.
Qed.

(** C7. The launch offset never decreases over any sequence of the engine's
    operations; one launch attempt adds exactly the ten-second growth
    increment when the remote API rejects the validity window
    ([InvalidTime]) and leaves the offset as it is on every other outcome.
    The offset is an [int64]: this holds as long as the additions stay below
    its maximum (about 292 years). *)
Theorem C7_offset_never_decreases env :
  (forall n d m o m',
      launchAttempt env n d m = Done (o, m') ->
      minDuration <= launchTimeOffset (spot m) ->
      launchTimeOffset (spot m) + launchTimeOffsetGrowth <= maxDuration ->
      exists t i r,
        newEvents m m' = [EvNow t; EvRequestSpotInstances i r] /\
        launchTimeOffset (spot m') =
          if windowRejected r
          then launchTimeOffset (spot m) + launchTimeOffsetGrowth
          else launchTimeOffset (spot m)) /\
  (forall ops m m',
      runOperations env ops m = Done (tt, m') ->
      minDuration <= launchTimeOffset (spot m) ->
      launchTimeOffset (spot m)
        + 6 * Z.of_nat (length ops) * launchTimeOffsetGrowth <= maxDuration ->
      launchTimeOffset (spot m) <= launchTimeOffset (spot m')).
Proof.
  split.
  - intros n d m o m' Hrun Hmin Hmax.
    destruct (launchAttempt_post env n d m o m' Hrun) as (r & Hh & _ & _ & Hl & _).
    cbn zeta in Hh. eexists _, _, r. split; [exact (newEvents_app _ _ _ Hh)|].
    rewrite Hl. destruct (windowRejected r); [|reflexivity].
    unfold dadd. apply wrap64_id. rewrite growth_value in *. unfold in_int64. lia.
  - intros ops. rewrite growth_value.
    induction ops as [|op ops IH]; intros m m' Hrun Hmin Hmax; cbn [runOperations length] in *.
    + inversion Hrun; subst. lia.
    + unfold bind in Hrun.
      destruct (runOperation env op m) as [[[] m1]| |] eqn:E; try discriminate.
      pose proof (runOperation_offset env op m m1 E Hmin) as H1.
      rewrite growth_value in H1. specialize (H1 ltac:(lia)).
      specialize (IH m1 m' Hrun ltac:(lia) ltac:(lia)). lia.
Qed.

Lemma C7_offset_never_decreases_witness :
  exists o m1 m2,
    launchAttempt Examples.rejecting 1 false Examples.fresh = Done (o, m1) /\
    (exists t i r,
        newEvents Examples.fresh m1 = [EvNow t; EvRequestSpotInstances i r] /\
        launchTimeOffset (spot m1) =
          if windowRejected r
          then launchTimeOffset (spot Examples.fresh) + launchTimeOffsetGrowth
          else launchTimeOffset (spot Examples.fresh)) /\
    runOperations Examples.rejecting [OpLaunchSpot 1; OpListSpot] Examples.fresh
      = Done (tt, m2) /\
    launchTimeOffset (spot Examples.fresh) <= launchTimeOffset (spot m2).
Proof.
  destruct (C7_offset_never_decreases Examples.rejecting) as [Hone Hall].
  eexists _, _, _.
  split; [vm_compute; reflexivity|].
  split.
  { eapply (Hone 1 false Examples.fresh).
    - vm_compute. reflexivity.
    - vm_compute. discriminate.
    - vm_compute. discriminate. }
  split; [vm_compute; reflexivity|].
  apply (Hall [OpLaunchSpot 1; OpListSpot] Examples.fresh).
  - vm_compute. reflexivity.
  - vm_compute. discriminate.
  - vm_compute. discriminate.
Defined.

(** * [terminateSpot] *)

#[local] Instance hasPrefix_dec id : Decision (hasPrefix id).
Proof. unfold hasPrefix. apply _. Defined.

Lemma partitionIDs_spec ids a b m :
  partitionIDs (Some <$> ids) a b m =
    Done ((list_to_set (filter (fun id => ~ hasPrefix id) ids) ∪ a,
           list_to_set (filter hasPrefix ids) ∪ b), m).
Proof.
  revert a b. induction ids as [|id ids IH]; intros a b; cbn [fmap list_fmap partitionIDs].
  - cbn. unfold ret. do 3 f_equal; set_solver.
  - unfold bind, deref, ret.
    rewrite !filter_cons.
    destruct (decide (hasPrefix id)) as [Hp|Hp].
    + rewrite (decide_False (P := ~ hasPrefix id)) by tauto.
      unfold hasPrefix in Hp. rewrite Hp, IH.
      unfold StrSet.add. do 3 f_equal. set_solver.
    + rewrite (decide_True (P := ~ hasPrefix id)) by assumption.
      assert (Hf : String.prefix spotRequestIDPrefix id = false).
      { destruct (String.prefix spotRequestIDPrefix id) eqn:E; [|reflexivity].
        contradiction Hp. }
      rewrite Hf, IH.
      unfold StrSet.add. do 3 f_equal. set_solver.
Qed.

Lemma sentToTermination_nil id : sentToTermination [] id <-> False.
Proof. split; [intros (l & Hin & _); inversion Hin | tauto]. Qed.

Lemma sentToCancellation_nil id : sentToCancellation [] id <-> False.
Proof. split; [intros (l & r & Hin & _); inversion Hin | tauto]. Qed.

Lemma sentToTermination_app evs1 evs2 id :
  sentToTermination (evs1 ++ evs2) id <->
  sentToTermination evs1 id \/ sentToTermination evs2 id.
Proof.
  unfold sentToTermination. split.
  - intros (l & Hin & Hl). apply elem_of_app in Hin as [Hin|Hin]; eauto.
  - intros [(l & Hin & Hl)|(l & Hin & Hl)]; exists l; rewrite elem_of_app; auto.
Qed.

Lemma sentToCancellation_app evs1 evs2 id :
  sentToCancellation (evs1 ++ evs2) id <->
  sentToCancellation evs1 id \/ sentToCancellation evs2 id.
Proof.
  unfold sentToCancellation. split.
  - intros (l & r & Hin & Hl). apply elem_of_app in Hin as [Hin|Hin]; eauto.
  - intros [(l & r & Hin & Hl)|(l & r & Hin & Hl)]; exists l, r; rewrite elem_of_app; auto.
Qed.

Lemma sentToTermination_terminate l id :
  sentToTermination [EvTerminateOnDemand l] id <-> id ∈ l.
Proof.
  unfold sentToTermination. split.
  - intros (l' & Hin & Hl). apply list_elem_of_singleton in Hin. congruence.
  - intros Hl. exists l. split; [apply list_elem_of_singleton; reflexivity | exact Hl].
Qed.

Lemma sentToTermination_cancel l r id :
  sentToTermination [EvCancelSpotInstanceRequests l r] id <-> False.
Proof.
  split; [|tauto]. intros (l' & Hin & _).
  apply list_elem_of_singleton in Hin. discriminate.
Qed.

Lemma sentToCancellation_cancel l r id :
  sentToCancellation [EvCancelSpotInstanceRequests l r] id <-> Some id ∈ l.
Proof.
  unfold sentToCancellation. split.
  - intros (l' & r' & Hin & Hl). apply list_elem_of_singleton in Hin. congruence.
  - intros Hl. exists l, r. split; [apply list_elem_of_singleton; reflexivity | exact Hl].
Qed.

Lemma sentToCancellation_terminate l id :
  sentToCancellation [EvTerminateOnDemand l] id <-> False.
Proof.
  split; [|tauto]. intros (l' & r' & Hin & _).
  apply list_elem_of_singleton in Hin. discriminate.
Qed.

(** C8. Every identifier with the prefix [sir-] goes to the cancellation
    call and not to the termination path, every identifier without it goes
    to the termination path and not to the cancellation call, nothing else
    is sent, and nothing at all happens on an empty list. *)
Theorem C8_terminate_partitions env ids m :
  exists m',
    terminateSpot env (Some <$> ids) m = Done (tt, m') /\
    spot m' = spot m /\
    (forall id, id ∈ ids ->
       (hasPrefix id ->
          sentToCancellation (newEvents m m') id /\
          ~ sentToTermination (newEvents m m') id) /\
       (~ hasPrefix id ->
          sentToTermination (newEvents m m') id /\
          ~ sentToCancellation (newEvents m m') id)) /\
    (forall id,
       sentToCancellation (newEvents m m') id \/ sentToTermination (newEvents m m') id ->
       id ∈ ids) /\
    (ids = [] -> newEvents m m' = []).
Proof.
  unfold terminateSpot. rewrite length_fmap.
  destruct ids as [|id0 ids0] eqn:Eids.
  { exists m. cbn. split; [reflexivity|]. split; [reflexivity|].
    unfold newEvents. rewrite drop_all.
    split; [intros id Hin; inversion Hin|].
    split; [|reflexivity].
    intros id [(l & r & Hin & _)|(l & Hin & _)]; inversion Hin. }
  rewrite <- Eids. replace (length ids =? 0)%nat with false by (subst ids; reflexivity).
  unfold bind at 1. rewrite partitionIDs_spec.
  unfold StrSet.newSetOfStrings. rewrite !(right_id_L ∅ (∪)).
  set (inst := list_to_set (filter (fun id => ~ hasPrefix id) ids) : gset string).
  set (pend := list_to_set (filter hasPrefix ids) : gset string).
  assert (Hinst : forall id, id ∈ StrSet.asListOfPointers inst <-> id ∈ ids /\ ~ hasPrefix id).
  { intros id. unfold StrSet.asListOfPointers, inst.
    rewrite elem_of_elements, elem_of_list_to_set, list_elem_of_filter. tauto. }
  assert (Hpend : forall id,
             Some id ∈ Some <$> StrSet.asListOfPointers pend <-> id ∈ ids /\ hasPrefix id).
  { intros id. unfold StrSet.asListOfPointers, pend.
    rewrite list_elem_of_fmap. split.
    - intros (y & Hy & Hin). inversion Hy; subst y.
      rewrite elem_of_elements, elem_of_list_to_set, list_elem_of_filter in Hin. tauto.
    - intros H. exists id. split; [reflexivity|].
      rewrite elem_of_elements, elem_of_list_to_set, list_elem_of_filter. tauto. }
  unfold terminateSpotInstanceRequests, terminateOnDemand, emit, CancelSpotInstanceRequests,
    bind, ret, StrSet.length.
  destruct (0 <? size inst)%nat eqn:Ei;
    destruct (length (Some <$> StrSet.asListOfPointers pend) =? 0)%nat eqn:Ep;
    cbn [spot history];
    (eexists; split; [reflexivity|]; split; [reflexivity|]);
    cbn [spot history];
    repeat match goal with
    | |- context [newEvents m ?m'] =>
        erewrite (newEvents_app m m') by (cbn [history]; rewrite <- ?app_assoc; first [reflexivity | symmetry; apply app_nil_r])
    end.
  all: apply Nat.ltb_lt in Ei || apply Nat.ltb_ge in Ei.
  all: apply Nat.eqb_eq in Ep || apply Nat.eqb_neq in Ep.
  all: try (assert (Hi0 : StrSet.asListOfPointers inst = [])
              by (apply elements_empty_iff, size_empty_iff; lia);
            rewrite Hi0 in Hinst).
  all: try (apply nil_length_inv in Ep; rewrite Ep in Hpend).
  all: match goal with
       | |- context [sentToCancellation ?evs _] =>
           assert (HT : forall id, sentToTermination evs id <-> id ∈ ids /\ ~ hasPrefix id);
           [ intros id; rewrite <- Hinst;
             rewrite ?sentToTermination_app, ?sentToTermination_terminate,
               ?sentToTermination_cancel, ?sentToTermination_nil, ?elem_of_nil; tauto
           | assert (HC : forall id, sentToCancellation evs id <-> id ∈ ids /\ hasPrefix id);
             [ intros id; rewrite <- Hpend;
               rewrite ?sentToCancellation_app, ?sentToCancellation_terminate,
                 ?sentToCancellation_cancel, ?sentToCancellation_nil, ?elem_of_nil; tauto
             | ] ]
       end.
  all: split; [intros id Hin; rewrite HT, HC; tauto|].
  all: split; [intros id; rewrite HT, HC; tauto|].
  all: intros ->; discriminate.
Qed.


(** * Absent status fields *)

(** C10 (the code departs from the claim). [listSpot] dereferences
    [StatusCode] of every request the remote lists or looks up, and
    [StatusMessage] of every request that needs attention, without a nil
    test: each of these three ticks ends in a nil-pointer panic. *)
Theorem C10_nil_status_panics :
  listSpot Examples.listsNoStatusCode Examples.fresh = Panic /\
  listSpot Examples.looksUpNoStatusCode Examples.tracking = Panic /\
  listSpot Examples.listsNoStatusMessage Examples.fresh = Panic.
Proof. repeat split; vm_compute; reflexivity. Qed.

(** * The clock-skew calibration *)

(** The clean-up loop retries while the identifier is not found; it is
    left by [break] on success and by [return] on any other failure. *)
Lemma cleanUpCalibration_spec env fuel id m b m' :
  cleanUpCalibration env fuel id m = Done (b, m') ->
  spot m' = spot m /\
  exists pre r,
    history m' = history m ++ pre ++ [EvCancelSpotInstanceRequests [id] r] /\
    Forall (fun e => exists r', e = EvCancelSpotInstanceRequests [id] r' /\
                                isNotFound r' = true) pre /\
    isNotFound r = false /\
    b = match r with Success _ => true | Failure _ => false end.
Proof.
  revert m. induction fuel as [|fuel IH]; intros m Hrun; cbn [cleanUpCalibration] in Hrun.
  { discriminate. }
  apply bind_inv in Hrun as (r & m1 & Hcall & Hrun).
  unfold terminateSpotInstanceRequests in Hcall. cbn [length Nat.eqb] in Hcall.
  unfold CancelSpotInstanceRequests in Hcall. cbv zeta in Hcall.
  injection Hcall as Hr Hm1. subst r m1.
  destruct (clientCancelSpotInstanceRequests env (history m) [id])
    as [[]|[code msg|msg]] eqn:Er.
  - unfold ret in Hrun. cbv beta in Hrun. injection Hrun as Hb Hm'. subst b m'. split; [reflexivity|].
    exists [], (Success tt). cbn. repeat split; auto.
  - destruct (String.eqb code "InvalidSpotInstanceRequestID.NotFound") eqn:Ec; cbn [negb] in Hrun.
    + destruct (IH _ Hrun) as (Hs & pre & r' & Hh & Hpre & Hnf & Hb).
      cbn [spot history] in Hs, Hh.
      split; [exact Hs|].
      exists (EvCancelSpotInstanceRequests [id] (Failure (AwsErr code msg)) :: pre), r'.
      repeat split; auto.
      * rewrite Hh, <- app_assoc. reflexivity.
      * constructor; [|exact Hpre]. eexists. split; [reflexivity|]. cbn. exact Ec.
    + unfold ret in Hrun. cbv beta in Hrun. injection Hrun as Hb Hm'. subst b m'. split; [reflexivity|].
      exists [], (Failure (AwsErr code msg)). cbn. rewrite Ec. repeat split; auto.
  - unfold ret in Hrun. cbv beta in Hrun. injection Hrun as Hb Hm'. subst b m'. split; [reflexivity|].
    exists [], (Failure (OtherErr msg)). cbn. repeat split; auto.
Qed.

(** C9, as stated, fails: the calibration request is created (the remote
    stamps it 25 s after the local reading), its cancellation fails with an
    error other than not-found, and the skew stays at zero instead of the
    rounded-up 30 s. *)
Lemma C9_aborted_cleanup_drops_skew :
  ~ (forall env fuel m m' input first rest t1,
        attemptToApproximateClockSkew env fuel m = Done (tt, m') ->
        EvRequestSpotInstances input (Success (first :: rest)) ∈ newEvents m m' ->
        CreateTime first = Some t1 ->
        approximateClockSkew (spot m') =
          roundDurationUp (Sub t1 (timeNow env (history m)))).
Proof.
  intros H.
  set (input := mkSpotInput false 1 "p3.2xlarge" (1001 * Second + 0 + Hour * 100)).
  set (first := Examples.openRequest "sir-9" (1025 * Second)).
  set (m' := mkMachine (spot Examples.fresh)
               [EvNow (1000 * Second); EvNow (1001 * Second);
                EvRequestSpotInstances input (Success [first]);
                EvCancelSpotInstanceRequests [Some "sir-9"%string]
                  (Failure (AwsErr "RequestLimitExceeded" "slow down"))]).
  specialize (H Examples.strayCalibration 3%nat Examples.fresh m' input first []
                (1025 * Second)).
  assert (Hrun : attemptToApproximateClockSkew Examples.strayCalibration 3 Examples.fresh
                 = Done (tt, m')) by (vm_compute; reflexivity).
  specialize (H Hrun).
  assert (Hin : EvRequestSpotInstances input (Success [first])
                ∈ newEvents Examples.fresh m').
  { apply (list_elem_of_lookup_2 _ 2%nat). reflexivity. }
  specialize (H Hin eq_refl). vm_compute in H. discriminate.
Qed.

(** C9 (amended). A calibration that returns leaves the tracked set and
    the launch offset alone. [approximateClockSkew] is set to the
    rounded-up measured skew exactly when the calibration request was created
    and its cancellation finally succeeded; it keeps its value (zero at
    start) when the request could not be created and also when the
    cancellation ended on an error other than not-found. *)
Theorem C9_skew_set_after_successful_cleanup env fuel m m' :
  attemptToApproximateClockSkew env fuel m = Done (tt, m') ->
  exists t input r cancels,
    newEvents m m' =
      EvNow (timeNow env (history m)) :: EvNow t
        :: EvRequestSpotInstances input r :: cancels /\
    trackedReqs (spot m') = trackedReqs (spot m) /\
    launchTimeOffset (spot m') = launchTimeOffset (spot m) /\
    match r with
    | Failure _ =>
        cancels = [] /\
        approximateClockSkew (spot m') = approximateClockSkew (spot m)
    | Success requests =>
        exists first t1 pre id res,
          head requests = Some first /\
          CreateTime first = Some t1 /\
          cancels = pre ++ [EvCancelSpotInstanceRequests [id] res] /\
          approximateClockSkew (spot m') =
            match res with
            | Success _ => roundDurationUp (Sub t1 (timeNow env (history m)))
            | Failure _ => approximateClockSkew (spot m)
            end
    end.
Proof.
  intros Hrun. unfold attemptToApproximateClockSkew in Hrun.
  apply bind_inv in Hrun as (t0 & m1 & Hnow & Hrun).
  unfold Now in Hnow. cbv zeta in Hnow. injection Hnow as Ht0 Hm1. subst t0 m1.
  apply bind_inv in Hrun as (r & m2 & Hcreate & Hrun).
  unfold createSpotInstanceRequest in Hcreate.
  apply bind_inv in Hcreate as (t & m1 & Hnow & Hcreate).
  unfold Now in Hnow. cbv zeta in Hnow. injection Hnow as Ht Hm1. subst m1.
  cbn [spot history] in Hcreate. rewrite Ht in Hcreate. clear Ht.
  apply bind_inv in Hcreate as (c & m1 & Hget & Hcreate).
  unfold getSpot in Hget. injection Hget as Hc Hm1. subst c m1.
  unfold RequestSpotInstances in Hcreate. cbv zeta in Hcreate.
  match type of Hcreate with context [clientRequestSpotInstances _ _ ?i] =>
    set (input := i) in * end.
  clearbody input.
  injection Hcreate as Hr Hm2. subst m2. cbn [spot history] in *.
  rewrite Hr in Hrun. clear Hr.
  exists t, input, r.
  destruct r as [requests|e].
  - apply bind_inv in Hrun as (first & m3 & Hfirst & Hrun).
    destruct (head requests) as [first'|] eqn:Ehead; [|discriminate].
    cbn [deref] in Hfirst. done_inv Hfirst.
    apply bind_inv in Hrun as (t1 & m3 & Ht1 & Hrun).
    destruct (CreateTime first) as [t1'|] eqn:Ect; [|discriminate].
    cbn [deref] in Ht1. done_inv Ht1.
    apply bind_inv in Hrun as (cleaned & m3 & Hclean & Hrun).
    apply cleanUpCalibration_spec in Hclean as (Hs3 & pre & res & Hh3 & _ & _ & Hb).
    cbn [spot history] in Hs3, Hh3.
    exists (pre ++ [EvCancelSpotInstanceRequests [SpotInstanceRequestId first] res]).
    assert (Hnew : history m3 = history m
              ++ EvNow (timeNow env (history m)) :: EvNow t
                 :: EvRequestSpotInstances input (Success requests)
                 :: pre ++ [EvCancelSpotInstanceRequests [SpotInstanceRequestId first] res]).
    { rewrite Hh3, <- !app_assoc. reflexivity. }
    destruct res as [[]|e]; subst cleaned.
    + unfold setApproximateClockSkew in Hrun. cbv beta in Hrun.
      injection Hrun as Hm'. subst m'.
      cbn [spot history trackedReqs launchTimeOffset approximateClockSkew].
      rewrite Hs3.
      split; [apply newEvents_app; cbn [history]; exact Hnew|].
      split; [reflexivity|]. split; [reflexivity|].
      exists first, t1, pre, (SpotInstanceRequestId first), (Success tt). auto.
    + done_inv Hrun. rewrite Hs3.
      split; [apply newEvents_app; exact Hnew|].
      split; [reflexivity|]. split; [reflexivity|].
      exists first, t1, pre, (SpotInstanceRequestId first), (Failure e). auto.
  - done_inv Hrun. exists [].
    split; [apply newEvents_app; cbn [history]; rewrite <- !app_assoc; reflexivity|]. auto.
Qed.

Lemma C9_skew_set_after_successful_cleanup_witness :
  exists m',
    attemptToApproximateClockSkew Examples.accepting 3 Examples.fresh = Done (tt, m') /\
    approximateClockSkew (spot m') = 10 * Second /\
    exists t input r cancels,
      newEvents Examples.fresh m' =
        EvNow (timeNow Examples.accepting (history Examples.fresh)) :: EvNow t
          :: EvRequestSpotInstances input r :: cancels.
Proof.
  eexists. split; [vm_compute; reflexivity|]. split; [reflexivity|].
  match goal with
  | |- context [newEvents _ ?m'] =>
      destruct (C9_skew_set_after_successful_cleanup
                  Examples.accepting 3 Examples.fresh m' ltac:(vm_compute; reflexivity))
        as (t & input & r & cancels & Hnew & _)
  end.
  exists t, input, r, cancels. exact Hnew.
Defined.

(** * The reconciliation tick *)

Lemma post_conj {A} (c : M A) m (Q1 Q2 : A -> machine -> Prop) :
  post c m Q1 -> post c m Q2 -> post c m (fun a m' => Q1 a m' /\ Q2 a m').
Proof. intros H1 H2 a m' E. split; [eapply H1, E | eapply H2, E]. Qed.

(** No step of the tick other than the by-identifier lookup adds a lookup
    to the history. *)
Lemma listActive_quiet env :
  keeps (growsBy notLookup) (listActiveSpotInstanceRequests env).
Proof. unfold listActiveSpotInstanceRequests, describeRequests. frame. Qed.

Lemma listCanceled_quiet env :
  keeps (growsBy notLookup) (listCanceledButInstanceRunningSpotRequests env).
Proof. unfold listCanceledButInstanceRunningSpotRequests, describeRequests. frame. Qed.

Lemma trackAll_quiet reqs : keeps (growsBy notLookup) (trackAll reqs).
Proof. induction reqs as [|req reqs IH]; cbn [trackAll]; frame; try apply IH. Qed.

Lemma setTagsOnInstances_quiet env s :
  keeps (growsBy notLookup) (setTagsOnInstances env s).
Proof. unfold setTagsOnInstances. frame. Qed.

Lemma notifyUser_quiet reqs : keeps (growsBy notLookup) (notifyUser reqs).
Proof. induction reqs as [|req reqs IH]; cbn [notifyUser]; frame; try apply IH. Qed.

Lemma buildInstanceListFromTrackedReqs_quiet env :
  keeps (growsBy notLookup) (buildInstanceListFromTrackedReqs env).
Proof. unfold buildInstanceListFromTrackedReqs. frame. Qed.

#[local] Hint Resolve listActive_quiet listCanceled_quiet trackAll_quiet
  setTagsOnInstances_quiet notifyUser_quiet buildInstanceListFromTrackedReqs_quiet : frame.

(** The listing loop does not look at the machine. *)
Lemma collectRequests_indep reqs acc m s m' :
  collectRequests reqs acc m = Done (s, m') ->
  forall m0, collectRequests reqs acc m0 = Done (s, m0).
Proof.
  revert acc. induction reqs as [|req reqs IH]; intros acc Hrun m0; cbn [collectRequests] in *.
  - done_inv Hrun. reflexivity.
  - unfold bind, deref in *.
    destruct (SpotInstanceRequestId req); [|discriminate].
    destruct (ReqState req); [|discriminate].
    destruct (Status req); [|discriminate].
    destruct (CreateTime req); [|discriminate].
    cbn in *. eapply IH, Hrun.
Qed.

Lemma keyed_add r s : keyed s -> keyed (ReqSet.add r s).
Proof.
  intros Hs id r' H. unfold ReqSet.add in H.
  destruct (decide (SpotRequestID r = id)) as [<-|Hne].
  - rewrite lookup_insert_eq in H. congruence.
  - rewrite lookup_insert_ne in H by exact Hne. eapply Hs, H.
Qed.

Lemma collectRequests_keyed reqs acc m s m' :
  collectRequests reqs acc m = Done (s, m') -> keyed acc -> keyed s.
Proof.
  revert acc. induction reqs as [|req reqs IH]; intros acc Hrun Hacc; cbn [collectRequests] in *.
  - done_inv Hrun. exact Hacc.
  - unfold bind, deref in *.
    destruct (SpotInstanceRequestId req); [|discriminate].
    destruct (ReqState req); [|discriminate].
    destruct (Status req); [|discriminate].
    destruct (CreateTime req); [|discriminate].
    cbn in *. eapply IH; [exact Hrun|]. apply keyed_add, Hacc.
Qed.

Lemma requestsOf_keyed l s : requestsOf l = Some s -> keyed s.
Proof.
  unfold requestsOf. intros H.
  destruct (collectRequests l ReqSet.newSetOfSpotRequests _) as [[s' m']| |] eqn:E;
    try discriminate.
  injection H as ->. eapply collectRequests_keyed; [exact E|].
  intros id r Hl. unfold ReqSet.newSetOfSpotRequests in Hl.
  rewrite lookup_empty in Hl. discriminate.
Qed.

(** What the by-identifier lookup does: nothing for an empty list of
    identifiers, else one [DescribeSpotInstanceRequests] with these
    identifiers. *)
Lemma listSpotRequestsByID_post env ids m :
  post (listSpotRequestsByID env ids) m (fun r m' =>
    spot m' = spot m /\
    ((r = Success ReqSet.newSetOfSpotRequests /\ history m' = history m) \/
     exists resp,
       history m' = history m ++ [EvDescribeSpotInstanceRequests (FilterRequestID ids) resp] /\
       match resp with
       | Failure e => r = Failure e
       | Success l => exists s, r = Success s /\ requestsOf l = Some s
       end)).
Proof.
  unfold listSpotRequestsByID. intros r m' Hrun.
  destruct (length ids =? 0)%nat.
  { done_inv Hrun. auto. }
  unfold describeRequests in Hrun.
  apply bind_inv in Hrun as (resp & m1 & Hcall & Hrun).
  unfold DescribeSpotInstanceRequests in Hcall. cbv zeta in Hcall.
  injection Hcall as Hresp Hm1. subst m1. rewrite Hresp in Hrun.
  destruct resp as [l|e].
  - apply bind_inv in Hrun as (s & m2 & Hcollect & Hrun).
    pose proof (collectRequests_pure _ _ _ _ _ Hcollect) as Hm2. subst m2.
    done_inv Hrun.
    cbn [spot history]. split; [reflexivity|]. right.
    exists (Success l). rewrite ?Hresp. split; [reflexivity|].
    exists s. split; [reflexivity|].
    unfold requestsOf. erewrite collectRequests_indep by exact Hcollect. reflexivity.
  - done_inv Hrun. cbn [spot history]. split; [reflexivity|]. right.
    exists (Failure e). rewrite ?Hresp. auto.
Qed.

(** The loop over the looked-up requests: every terminal one is untracked
    afterwards, nothing becomes tracked, and the history stays. *)
Lemma processNewOrInactive_tracked reqs missing num notify m :
  post (processNewOrInactive reqs missing num notify) m (fun _ m' =>
    history m' = history m /\
    (forall r, r ∈ reqs -> terminal r = true ->
       trackedReqs (spot m') !! SpotRequestID r = None) /\
    (forall id, trackedReqs (spot m) !! id = None ->
       trackedReqs (spot m') !! id = None)).
Proof.
  revert missing num notify m.
  induction reqs as [|req reqs IH]; intros missing num notify m;
    cbn [processNewOrInactive].
  - apply post_ret. split; [reflexivity|]. split; [|auto].
    intros r Hin. inversion Hin.
  - apply post_bind.
    change (negb (String.eqb (State req) "active") && negb (String.eqb (State req) "open"))
      with (terminal req).
    destruct (terminal req) eqn:Eterm.
    + steps.
      all: eapply post_mono; [apply IH|].
      all: cbn [spot history trackedReqs]; intros _ m' (Hh & Hdel & Hmono).
      all: split; [exact Hh|]; split;
        [|intros id Hid; apply Hmono; unfold ReqSet.delete;
          rewrite lookup_delete_None; auto].
      all: intros r Hin Hr; apply elem_of_cons in Hin as [->|Hin];
        [apply Hmono; unfold ReqSet.delete; apply lookup_delete_eq | apply Hdel; assumption].
    + steps.
      all: eapply post_mono; [apply IH|].
      all: cbn [spot history trackedReqs]; intros _ m' (Hh & Hdel & Hmono).
      all: split; [exact Hh|]; split; [|exact Hmono].
      all: intros r Hin Hr; apply elem_of_cons in Hin as [->|Hin];
        [congruence | apply Hdel; assumption].
Qed.

Lemma growsBy_trans' P m1 m2 m3 :
  growsBy P m1 m2 -> growsBy P m2 m3 -> growsBy P m1 m3.
Proof. apply growsBy_trans. Qed.

Lemma visits_lookup env (s : setOfSpotRequests) id r :
  visits_each_once env -> s !! id = Some r -> r ∈ iter env s.
Proof.
  intros Hord Hl. unfold iter. rewrite (Hord s). unfold ReqSet.requests.
  apply list_elem_of_fmap. exists (id, r). split; [reflexivity|].
  apply elem_of_map_to_list, Hl.
Qed.

Lemma lookup_not_quiet evs ids l :
  forallb notLookup evs = true ->
  EvDescribeSpotInstanceRequests (FilterRequestID ids) (Success l) ∈ evs -> False.
Proof.
  intros Hall Hin. rewrite forallb_forall in Hall.
  apply list_elem_of_In in Hin. specialize (Hall _ Hin). discriminate.
Qed.

Lemma listSpot_untracks env m :
  visits_each_once env ->
  post (listSpot env) m (fun res m' =>
    forall out, res = Success out ->
    forall ids l s id r,
      EvDescribeSpotInstanceRequests (FilterRequestID ids) (Success l) ∈ newEvents m m' ->
      requestsOf l = Some s ->
      s !! id = Some r ->
      terminal r = true ->
      trackedReqs (spot m') !! id = None).
Proof.
  intros Hord. unfold listSpot.
  apply post_bind. eapply post_mono; [apply keeps_post, listActive_quiet|].
  cbn beta. intros listed m1 G1.
  destruct listed as [active|e]; [|apply post_ret; intros out H; discriminate].
  apply post_bind. eapply post_mono; [apply keeps_post, trackAll_quiet|].
  cbn beta. intros _ m2 G2. pose proof (growsBy_trans' _ _ _ _ G1 G2) as G12. clear G1 G2.
  apply post_bind. eapply post_mono; [apply keeps_post, setTagsOnInstances_quiet|].
  cbn beta. intros _ m3 G3. pose proof (growsBy_trans' _ _ _ _ G12 G3) as G13. clear G12 G3.
  apply post_bind. eapply post_mono; [apply keeps_post, classifyActive_pure|].
  cbn beta. intros notify m4 <-.
  apply post_bind. apply post_getSpot.
  apply post_bind. eapply post_mono; [apply listSpotRequestsByID_post|].
  cbn beta. intros looked m5 (Hs5 & Hcase).
  destruct looked as [newOrInactive|e]; [|apply post_ret; intros out H; discriminate].
  apply post_bind. eapply post_mono; [apply processNewOrInactive_tracked|].
  cbn beta. intros [[missing' num'] notify'] m6 (Hh6 & Hdel & _).
  cbn iota beta.
  eapply post_mono.
  { apply post_conj;
      [ apply (keeps_post sameSpot);
        unfold listCanceledButInstanceRunningSpotRequests; frame
      | apply (keeps_post (growsBy notLookup)); frame ]. }
  cbn beta. intros res m' [HS (evsB & HhB & HallB)] out _ ids l s id r Hin Hs Hl Hterm.
  destruct G13 as (evsA & HhA & HallA).
  unfold sameSpot in HS. rewrite HS.
  assert (Hr : r ∈ iter env newOrInactive /\ SpotRequestID r = id).
  { destruct Hcase as [[Hres Hh5]|(resp & Hh5 & Hresp)].
    - exfalso.
      rewrite (newEvents_app m m' (evsA ++ evsB)) in Hin
        by (rewrite HhB, Hh6, Hh5, HhA, app_assoc; reflexivity).
      apply elem_of_app in Hin as [Hin|Hin];
        [eapply (lookup_not_quiet evsA); eassumption
        |eapply (lookup_not_quiet evsB); eassumption].
    - rewrite (newEvents_app m m'
                 (evsA ++ [EvDescribeSpotInstanceRequests
                             (FilterRequestID (idsAsListOfPointers env
                                (ReqSet.deleteIntersection active
                                   (ReqSet.copy (trackedReqs (spot m3)))))) resp] ++ evsB))
        in Hin
        by (rewrite HhB, Hh6, Hh5, HhA, <- !app_assoc; reflexivity).
      apply elem_of_app in Hin as [Hin|Hin];
        [exfalso; eapply (lookup_not_quiet evsA); eassumption|].
      apply elem_of_app in Hin as [Hin|Hin];
        [|exfalso; eapply (lookup_not_quiet evsB); eassumption].
      apply list_elem_of_singleton in Hin. injection Hin as _ Hresp'. subst resp.
      destruct Hresp as (s0 & Hs0 & Hreq). injection Hs0 as ->.
      rewrite Hs in Hreq. injection Hreq as ->.
      split; [eapply visits_lookup; eauto | eapply requestsOf_keyed; eauto]. }
  destruct Hr as [Hr <-]. apply Hdel; assumption.
Qed.

Lemma scripted_visits_each_once create describe cancel instances :
  visits_each_once (Examples.scripted create describe cancel instances).
Proof. intros s. reflexivity. Qed.

(** C2. After a tick that completes successfully, every request that the
    targeted by-identifier lookup of this tick returned in a state other
    than "open" and "active" is no longer in the tracked set. *)
Theorem C2_terminal_requests_untracked env m out m' ids l s id r :
  visits_each_once env ->
  listSpot env m = Done (Success out, m') ->
  EvDescribeSpotInstanceRequests (FilterRequestID ids) (Success l) ∈ newEvents m m' ->
  requestsOf l = Some s ->
  s !! id = Some r ->
  State r <> "open"%string ->
  State r <> "active"%string ->
  trackedReqs (spot m') !! id = None.
Proof.
  intros Hord Hrun Hin Hs Hl Hopen Hactive.
  eapply (listSpot_untracks env m Hord _ _ Hrun out eq_refl); eauto.
  unfold terminal. apply String.eqb_neq in Hopen, Hactive.
  rewrite Hopen, Hactive. reflexivity.
Qed.

Lemma C2_terminal_requests_untracked_witness :
  exists out m',
    listSpot Examples.closing Examples.tracking = Done (Success out, m') /\
    trackedReqs (spot Examples.tracking) !! "sir-2"%string <> None /\
    trackedReqs (spot m') !! "sir-2"%string = None.
Proof.
  eexists _, _. split; [vm_compute; reflexivity|].
  split; [vm_compute; discriminate|].
  eapply (C2_terminal_requests_untracked Examples.closing Examples.tracking _ _
            ["sir-2"%string] [Examples.closedRequest]
            (ReqSet.add (mkSpotRequest "sir-2" "closed"
                           (Some "instance-terminated-by-user"%string)
                           (Some "gone"%string) (Some "i-2"%string) (1001 * Second))
               ReqSet.newSetOfSpotRequests)
            "sir-2"%string).
  - apply scripted_visits_each_once.
  - vm_compute. reflexivity.
  - apply (list_elem_of_lookup_2 _ 1%nat). vm_compute. reflexivity.
  - vm_compute. reflexivity.
  - vm_compute. reflexivity.
  - vm_compute. discriminate.
  - vm_compute. discriminate.
Defined.

(** * The output list *)

Lemma post_any {A} (c : M A) m : post c m (fun _ _ => True).
Proof. intros a m' _. exact I. Qed.

#[local] Instance unfulfilled_dec r : Decision (unfulfilled r).
Proof. unfold unfulfilled. apply _. Defined.

Lemma splitTracked_spec reqs ids pend :
  splitTracked reqs ids pend =
    (list_to_set (omap InstanceID reqs) ∪ ids,
     pend ++ (placeholder <$> filter unfulfilled reqs)).
Proof.
  revert ids pend. induction reqs as [|r reqs IH]; intros ids pend; cbn [splitTracked].
  - cbn. rewrite app_nil_r. f_equal. set_solver.
  - rewrite filter_cons. cbn [omap list_omap].
    destruct (decide (unfulfilled r)) as [Hu|Hu]; unfold unfulfilled in Hu.
    + rewrite Hu, IH. cbn [fmap list_fmap]. rewrite <- app_assoc. reflexivity.
    + destruct (InstanceID r) as [i|]; [|congruence].
      rewrite IH. f_equal. unfold StrSet.add. set_solver.
Qed.

Lemma dropTerminal_spec l acc m :
  post (dropTerminal l acc) m (fun res m' => m' = m /\ res = acc ++ List.filter alive l).
Proof.
  revert acc. induction l as [|i l IH]; intros acc; cbn [dropTerminal].
  - apply post_ret. rewrite app_nil_r. auto.
  - apply post_bind, post_deref. intros st Est.
    apply post_bind, post_deref. intros name Ename.
    assert (Halive : alive i =
              negb (String.eqb name "terminated") && negb (String.eqb name "shutting-down")).
    { unfold alive. rewrite Est. destruct st as [n]. cbn in Ename. rewrite Ename. reflexivity. }
    cbn [List.filter]. rewrite Halive.
    destruct (negb (String.eqb name "terminated") && negb (String.eqb name "shutting-down")).
    + eapply post_mono; [apply IH|]. cbn beta. intros res m' [-> ->].
      rewrite <- app_assoc. auto.
    + apply IH.
Qed.

Lemma buildInstanceListFromTrackedReqs_post env m :
  post (buildInstanceListFromTrackedReqs env) m (fun res m' =>
    spot m' = spot m /\
    exists answer,
      history m' = history m
        ++ [EvDescribeInstancesByID (askedIds env (trackedReqs (spot m))) answer] /\
      forall out, res = Success out ->
        exists described,
          answer = Success described /\
          out = newInstances env (List.filter alive described)
                ++ (placeholder <$> filter unfulfilled (iter env (trackedReqs (spot m))))).
Proof.
  unfold buildInstanceListFromTrackedReqs.
  apply post_bind, post_getSpot. rewrite splitTracked_spec.
  apply post_bind, post_callDescribeInstancesByID. intros answer.
  destruct answer as [described|e].
  - apply post_bind. eapply post_mono; [apply dropTerminal_spec|].
    cbn beta. intros nonTerminal m' [-> ->]. apply post_ret.
    cbn [spot history]. split; [reflexivity|].
    exists (Success described). split; [reflexivity|].
    intros out Hout. injection Hout as <-. exists described. auto.
  - apply post_ret. cbn [spot history]. split; [reflexivity|].
    exists (Failure e). split; [reflexivity|]. intros out Hout. discriminate.
Qed.

Lemma listSpot_output env m :
  post (listSpot env) m (fun res m' =>
    forall out, res = Success out ->
    exists described,
      last (history m') =
        Some (EvDescribeInstancesByID (askedIds env (trackedReqs (spot m')))
                (Success described)) /\
      out = newInstances env (List.filter alive described)
            ++ (placeholder <$> filter unfulfilled (iter env (trackedReqs (spot m'))))).
Proof.
  unfold listSpot.
  apply post_bind. eapply post_mono; [apply post_any|]. cbn beta. intros listed m1 _.
  destruct listed as [active|e]; [|apply post_ret; intros out H; discriminate].
  apply post_bind. eapply post_mono; [apply post_any|]. cbn beta. intros _ m2 _.
  apply post_bind. eapply post_mono; [apply post_any|]. cbn beta. intros _ m3 _.
  apply post_bind. eapply post_mono; [apply post_any|]. cbn beta. intros notify m4 _.
  apply post_bind. apply post_getSpot.
  apply post_bind. eapply post_mono; [apply post_any|]. cbn beta. intros looked m5 _.
  destruct looked as [newOrInactive|e]; [|apply post_ret; intros out H; discriminate].
  apply post_bind. eapply post_mono; [apply post_any|].
  cbn beta. intros [[missing' num'] notify'] m6 _. cbn iota beta.
  apply post_bind. eapply post_mono; [apply post_any|]. cbn beta. intros _ m7 _.
  apply post_bind. eapply post_mono; [apply post_any|]. cbn beta. intros canceled m8 _.
  destruct canceled as [canceled|e]; [|apply post_ret; intros out H; discriminate].
  apply post_bind. eapply post_mono; [apply post_any|]. cbn beta. intros _ m9 _.
  apply post_bind. eapply post_mono; [apply buildInstanceListFromTrackedReqs_post|].
  cbn beta. intros built m' (Hs & answer & Hh & Hout).
  destruct built as [instances|e]; apply post_ret; intros out H; [|discriminate].
  injection H as <-. destruct (Hout instances eq_refl) as (described & -> & Heq).
  exists described. rewrite Hs, Hh, last_snoc. auto.
Qed.

Lemma askedIds_spec env s :
  visits_each_once env ->
  NoDup (askedIds env s) /\
  forall i, i ∈ askedIds env s <->
            exists r, r ∈ ReqSet.requests s /\ InstanceID r = Some i.
Proof.
  intros Hord. unfold askedIds, StrSet.asListOfPointers. split; [apply NoDup_elements|].
  intros i. rewrite elem_of_elements, elem_of_union, elem_of_list_to_set, list_elem_of_omap.
  unfold StrSet.newSetOfStrings, iter. setoid_rewrite (Hord s).
  split; [intros [H|H]; [exact H | inversion H] | auto].
Qed.

(** C5. The output of a successful tick is, in this order: the handles
    that [newInstances] makes of the described instances that are neither
    "terminated" nor "shutting-down" (the description being the answer about
    exactly the instance identifiers of the tracked requests, each asked
    once), then one placeholder for every tracked request without instance
    identifier, carrying the request identifier as handle identifier, the
    creation time as launch time and the pending state. *)
Theorem C5_output_is_real_then_placeholders env m out m' :
  visits_each_once env ->
  listSpot env m = Done (Success out, m') ->
  exists ids described pending,
    last (history m') = Some (EvDescribeInstancesByID ids (Success described)) /\
    NoDup ids /\
    (forall i, i ∈ ids <->
       exists r, r ∈ ReqSet.requests (trackedReqs (spot m')) /\ InstanceID r = Some i) /\
    pending ≡ₚ filter unfulfilled (ReqSet.requests (trackedReqs (spot m'))) /\
    out = newInstances env (List.filter alive described)
          ++ ((fun r => mkInstance (SpotRequestID r) (CreationTime r) (SpotRequestID r)
                          SpotRequestPendingAWS) <$> pending).
Proof.
  intros Hord Hrun.
  destruct (listSpot_output env m _ _ Hrun out eq_refl) as (described & Hlast & Hout).
  destruct (askedIds_spec env (trackedReqs (spot m')) Hord) as [Hnd Hids].
  exists (askedIds env (trackedReqs (spot m'))), described,
    (filter unfulfilled (iter env (trackedReqs (spot m')))).
  repeat split; auto; try (apply Hids).
  unfold iter. rewrite (Hord (trackedReqs (spot m'))). reflexivity.
Qed.

Lemma C5_output_is_real_then_placeholders_witness :
  exists m',
    listSpot Examples.mixed Examples.fresh
      = Done (Success [ mkInstance "i-a" (1005 * Second) "i-a" (RealState "running");
                        mkInstance "sir-c" (1003 * Second) "sir-c" SpotRequestPendingAWS ],
              m') /\
    exists ids described pending,
      last (history m') = Some (EvDescribeInstancesByID ids (Success described)) /\
      pending ≡ₚ filter unfulfilled (ReqSet.requests (trackedReqs (spot m'))).
Proof.
  eexists. split; [vm_compute; reflexivity|].
  match goal with
  | |- context [history ?m'] =>
      destruct (C5_output_is_real_then_placeholders Examples.mixed Examples.fresh _ m'
                  (scripted_visits_each_once _ _ _ _) ltac:(vm_compute; reflexivity))
        as (ids & described & pending & Hlast & _ & _ & Hperm & _)
  end.
  exists ids, described, pending. split; assumption.
Defined.

(** * Further properties: rounding *)

(** [roundDurationUp] in closed form: the ceiling of [d / 10s], times ten
    seconds ([/] is the floor division of [Z]). *)
Lemma roundDurationUp_ceil d :
  no_overflow d ->
  roundDurationUp d = roundInterval * ((d + roundInterval - 1) / roundInterval).
Proof.
  intros Hd. destruct (rem_interval d) as (q & Hq & Hpos & Hneg).
  unfold no_overflow in Hd.
  unfold roundDurationUp, Round.
  assert (Hm : roundInterval = 10000000000) by reflexivity.
  assert (Hmin : minDuration = -9223372036854775808) by reflexivity.
  assert (Hmax : maxDuration = 9223372036854775807) by reflexivity.
  replace (roundInterval <=? 0) with false by reflexivity.
  set (r := Z.rem d roundInterval) in *.
  assert (Hdiv : forall k, roundInterval * k <= d + roundInterval - 1 < roundInterval * (k + 1) ->
                           (d + roundInterval - 1) / roundInterval = k).
  { intros k Hk. symmetry. apply (Z.div_unique_pos _ _ k (d + roundInterval - 1 - roundInterval * k)); lia. }
  destruct (Z.ltb_spec d 0) as [Hlt|Hge].
  - specialize (Hneg ltac:(lia)).
    rewrite lessThanHalf_small by lia.
    destruct (Z.ltb_spec (2 * - r) roundInterval) as [Hh|Hh].
    + unfold dadd. rewrite (wrap64_id (d + - r)) by (unfold in_int64; lia).
      destruct (Z.ltb_spec (d + - r) d); [lia|].
      rewrite (Hdiv q) by lia. lia.
    + unfold dadd, dsub.
      rewrite (wrap64_id (d - roundInterval)) by (unfold in_int64; lia).
      rewrite (wrap64_id (d - roundInterval + - r)) by (unfold in_int64; lia).
      destruct (Z.ltb_spec (d - roundInterval + - r) d); [|lia].
      destruct (Z.ltb_spec (d - roundInterval + - r) d); [|lia].
      rewrite wrap64_id by (unfold in_int64; lia).
      rewrite (Hdiv q) by lia. lia.
  - specialize (Hpos ltac:(lia)).
    rewrite lessThanHalf_small by lia.
    destruct (Z.ltb_spec (2 * r) roundInterval) as [Hh|Hh].
    + unfold dsub, dadd. rewrite (wrap64_id (d - r)) by (unfold in_int64; lia).
      destruct (Z.ltb_spec (d - r) d).
      * rewrite wrap64_id by (unfold in_int64; lia).
        rewrite (Hdiv (q + 1)) by lia. lia.
      * rewrite (Hdiv q) by lia. lia.
    + unfold dsub, dadd.
      rewrite (wrap64_id (d + roundInterval)) by (unfold in_int64; lia).
      rewrite (wrap64_id (d + roundInterval - r)) by (unfold in_int64; lia).
      destruct (Z.gtb_spec (d + roundInterval - r) d); [|lia].
      destruct (Z.ltb_spec (d + roundInterval - r) d); [lia|].
      rewrite (Hdiv (q + 1)) by lia. lia.
Qed.

(** X1. Rounding up is monotone: a larger measured skew never gives a
    smaller correction. *)
Theorem X1_roundDurationUp_monotone d1 d2 :
  no_overflow d1 -> no_overflow d2 -> d1 <= d2 ->
  roundDurationUp d1 <= roundDurationUp d2.
Proof.
  intros H1 H2 Hle. rewrite !roundDurationUp_ceil by assumption.
  assert (Hm : roundInterval = 10000000000) by reflexivity. rewrite Hm.
  apply Z.mul_le_mono_nonneg_l; [lia|].
  apply Z.div_le_mono; lia.
Qed.

Lemma X1_roundDurationUp_monotone_witness :
  no_overflow (-7 * Second) /\ no_overflow (3 * Second) /\ -7 * Second <= 3 * Second /\
  roundDurationUp (-7 * Second) <= roundDurationUp (3 * Second).
Proof.
  assert (H1 : no_overflow (-7 * Second)) by (vm_compute; split; discriminate).
  assert (H2 : no_overflow (3 * Second)) by (vm_compute; split; discriminate).
  assert (H3 : -7 * Second <= 3 * Second) by (vm_compute; discriminate).
  split; [exact H1|]. split; [exact H2|]. split; [exact H3|].
  exact (X1_roundDurationUp_monotone _ _ H1 H2 H3).
Defined.

(** X2. A duration that already is a whole number of ten-second intervals
    is returned unchanged, whatever its sign. *)
Theorem X2_roundDurationUp_fixes_multiples k :
  no_overflow (k * roundInterval) ->
  roundDurationUp (k * roundInterval) = k * roundInterval.
Proof.
  intros H. rewrite roundDurationUp_ceil by exact H.
  assert (Hm : roundInterval = 10000000000) by reflexivity. rewrite Hm.
  replace ((k * 10000000000 + 10000000000 - 1) / 10000000000) with k; [lia|].
  apply (Z.div_unique_pos _ _ k 9999999999); lia.
Qed.

Lemma X2_roundDurationUp_fixes_multiples_witness :
  no_overflow (-2 * roundInterval) /\
  roundDurationUp (-2 * roundInterval) = -2 * roundInterval.
Proof.
  assert (H : no_overflow (-2 * roundInterval)) by (vm_compute; split; discriminate).
  split; [exact H|]. exact (X2_roundDurationUp_fixes_multiples (-2) H).
Defined.

(** * Further properties: the retry wrapper *)

Lemma retryRun_last k atts out :
  retryRun k atts out ->
  exists a, last atts = Some a /\ out = resultOf a.2.
Proof.
  induction 1 as [k a resp Hk Ha|k a msg Hk Ha|a code msg Ha|k a code msg atts out Hk Ha Hrun IH].
  - exists a. rewrite Ha. auto.
  - exists a. rewrite Ha. auto.
  - exists a. rewrite Ha. auto.
  - destruct IH as (b & Hlast & Hout). exists b. split; [|exact Hout].
    destruct atts as [|x atts]; [discriminate|]. exact Hlast.
Qed.

(** X3. The wrapper always returns, and what it returns is the remote's
    answer to its last attempt: that response on success, that error when
    the attempts are used up or the error is not an AWS error. The tracked
    set and the measured skew are left as they were. *)
Theorem X3_wrapper_returns_last_answer env n d m :
  exists out m' i r,
    createSpotInstanceRequestsCorrectingForClockSkew env n d m = Done (out, m') /\
    last (creationAttempts (newEvents m m')) = Some (i, r) /\
    out = resultOf r /\
    trackedReqs (spot m') = trackedReqs (spot m) /\
    approximateClockSkew (spot m') = approximateClockSkew (spot m).
Proof.
  destruct (wrapper_spec env n d m) as (out & m' & atts & Hrun & Hh & Hrr & Ht & Hs & _).
  destruct (retryRun_last _ _ _ Hrr) as (a & Hlast & Hout).
  exists out, m', a.1.2, a.2. split; [exact Hrun|].
  rewrite (newEvents_app _ _ _ Hh), creationAttempts_attempts, fmap_last, Hlast.
  auto.
Qed.

(** The requests submitted by one call of the wrapper. *)
Lemma retryLoop_inputs env n d fuel k err m :
  0 <= k <= maxRetries ->
  Z.of_nat fuel > maxRetries + 1 - k ->
  exists out m' atts,
    retryLoop env fuel n d k err m = Done (out, m') /\
    history m' = history m ++ concat (attemptEvents <$> atts) /\
    Forall (fun a : attempt =>
              DryRun a.1.2 = d /\ InstanceCount a.1.2 = n /\
              InstanceType a.1.2 = configInstanceType env) atts /\
    windows (approximateClockSkew (spot m)) (launchTimeOffset (spot m)) atts.
Proof.
  revert k err m. unfold maxRetries.
  induction fuel as [|fuel IH]; intros k err m Hk Hfuel; [lia|].
  cbn [retryLoop]. unfold maxRetries.
  destruct (Z.leb_spec k 5) as [_|]; [|lia].
  destruct (launchAttempt_total env n d m) as (o & m1 & Hrun).
  pose proof (launchAttempt_post env n d m o m1 Hrun) as (r & Hh & Ht & Hs & Hl & Ho).
  cbn zeta in *.
  set (a := (timeNow env (history m),
             mkSpotInput d n (configInstanceType env)
               (Add (Add (timeNow env (history m)) (approximateClockSkew (spot m)))
                    (dadd (approximateClockSkew (spot m)) (launchTimeOffset (spot m)))),
             r) : attempt) in *.
  assert (Ha : DryRun a.1.2 = d /\ InstanceCount a.1.2 = n /\
               InstanceType a.1.2 = configInstanceType env) by (cbn; auto).
  assert (Hw : ValidFrom a.1.2 = a.1.1 + approximateClockSkew (spot m)
               + dadd (approximateClockSkew (spot m)) (launchTimeOffset (spot m)))
    by reflexivity.
  unfold bind. rewrite Hrun.
  destruct r as [resp|[code msg|msg]] eqn:Er; subst o.
  - exists (Some resp, None), m1, [a]. cbn [fmap list_fmap concat windows]. rewrite ?app_nil_r.
    repeat split; auto.
  - destruct (Z.eq_dec k 5) as [->|Hne].
    + destruct fuel as [|fuel']; [lia|]. cbn [retryLoop]. unfold maxRetries.
      cbn [ret bind]. exists (None, Some (AwsErr code msg)), m1, [a].
      cbn [fmap list_fmap concat windows]. rewrite ?app_nil_r.
      repeat split; auto.
    + destruct (IH (k + 1) (Some (AwsErr code msg)) m1 ltac:(lia) ltac:(lia))
        as (out & m' & atts & Hrun' & Hh' & Hin & Hwin).
      exists out, m', (a :: atts). rewrite Hrun'.
      split; [reflexivity|]. split.
      { rewrite Hh', Hh. cbn [fmap list_fmap concat]. rewrite <- app_assoc. reflexivity. }
      split; [constructor; assumption|].
      cbn [windows]. split; [exact Hw|].
      rewrite Hs, Hl in Hwin. subst a. cbn [snd]. exact Hwin.
  - exists (None, Some (OtherErr msg)), m1, [a]. cbn [fmap list_fmap concat windows].
    rewrite ?app_nil_r. repeat split; auto.
Qed.

(** X4. Every attempt of one call asks for the same number of instances
    of the configured type with the same dry-run flag; only the validity
    window moves. Each window starts at the clock reading of its attempt
    plus the skew plus the (wrapped) sum of skew and the offset held then,
    the offset being ten seconds larger after every rejected window. *)
Theorem X4_attempts_differ_only_in_window env n d m :
  exists out m' atts,
    createSpotInstanceRequestsCorrectingForClockSkew env n d m = Done (out, m') /\
    newEvents m m' = concat (attemptEvents <$> atts) /\
    Forall (fun a : attempt =>
              DryRun a.1.2 = d /\ InstanceCount a.1.2 = n /\
              InstanceType a.1.2 = configInstanceType env) atts /\
    windows (approximateClockSkew (spot m)) (launchTimeOffset (spot m)) atts.
Proof.
  destruct (retryLoop_inputs env n d retryFuel 0 None m) as (out & m' & atts & Hrun & Hh & H).
  - unfold maxRetries. lia.
  - unfold maxRetries, retryFuel. lia.
  - exists out, m', atts. split; [exact Hrun|]. split; [|exact H].
    apply newEvents_app, Hh.
Qed.

(** * Further properties: [launchSpot] *)

Lemma trackCreated_post resp m :
  post (trackCreated resp) m (fun _ m' =>
    history m' = history m /\
    approximateClockSkew (spot m') = approximateClockSkew (spot m) /\
    launchTimeOffset (spot m') = launchTimeOffset (spot m) /\
    (forall id, Some id ∈ SpotInstanceRequestId <$> resp ->
       exists r req,
         trackedReqs (spot m') !! id = Some r /\
         req ∈ resp /\ SpotInstanceRequestId req = Some id /\
         SpotRequestID r = id /\ InstanceID r = None /\
         ReqState req = Some (State r) /\ CreateTime req = Some (CreationTime r)) /\
    (forall id, Some id ∉ SpotInstanceRequestId <$> resp ->
       trackedReqs (spot m') !! id = trackedReqs (spot m) !! id)).
Proof.
  revert m. induction resp as [|req resp IH]; intros m; cbn [trackCreated].
  - apply post_ret. repeat split; auto. intros id Hin. inversion Hin.
  - apply post_bind, post_deref. intros id0 Hid0.
    apply post_bind, post_deref. intros st Hst.
    apply post_bind, post_deref. intros status Hstatus.
    apply post_bind, post_deref. intros ct Hct.
    apply post_bind, post_getSpot. apply post_bind, post_setTrackedReqs.
    eapply post_mono; [apply IH|]. cbn [spot history trackedReqs approximateClockSkew
                                         launchTimeOffset].
    intros _ m' (Hh & Hs & Hl & HA & HB).
    repeat split; auto.
    + intros id Hin. cbn [fmap list_fmap] in Hin.
      destruct (decide (Some id ∈ SpotInstanceRequestId <$> resp)) as [Hrest|Hrest].
      * destruct (HA id Hrest) as (r & req' & Hr & Hreq' & Hrest').
        exists r, req'. split; [exact Hr|]. split; [apply list_elem_of_further, Hreq'|].
        exact Hrest'.
      * apply elem_of_cons in Hin as [Hin|Hin]; [|contradiction].
        rewrite (HB id Hrest). unfold ReqSet.add. cbn [SpotRequestID].
        assert (id0 = id) as -> by congruence.
        rewrite lookup_insert_eq. eexists _, req.
        split; [reflexivity|]. split; [apply list_elem_of_here|].
        cbn. auto.
    + intros id Hnot. cbn [fmap list_fmap] in Hnot.
      apply not_elem_of_cons in Hnot as [Hne Hrest].
      rewrite (HB id Hrest). unfold ReqSet.add. cbn [SpotRequestID].
      apply lookup_insert_ne. congruence.
Qed.

(** X5. A launch that succeeds tracks every request of the creation
    answer under its identifier, without instance identifier and with the
    state and creation time the remote gave it (of the last entry, should an
    identifier occur twice); every other entry of the tracked set is as it
    was. *)
Theorem X5_launch_tracks_created_requests env n m m' :
  0 < n ->
  launchSpot env n m = Done (None, m') ->
  exists i resp,
    last (creationAttempts (newEvents m m')) = Some (i, Success resp) /\
    (forall id, Some id ∈ SpotInstanceRequestId <$> resp ->
       exists r req,
         trackedReqs (spot m') !! id = Some r /\
         req ∈ resp /\ SpotInstanceRequestId req = Some id /\
         SpotRequestID r = id /\ InstanceID r = None /\
         ReqState req = Some (State r) /\ CreateTime req = Some (CreationTime r)) /\
    (forall id, Some id ∉ SpotInstanceRequestId <$> resp ->
       trackedReqs (spot m') !! id = trackedReqs (spot m) !! id).
Proof.
  intros Hn Hrun. unfold launchSpot in Hrun.
  destruct (Z.leb_spec n 0); [lia|].
  apply bind_inv in Hrun as (created & m1 & Hw' & Hrun).
  destruct (wrapper_spec env n false m) as (out & m1' & atts & Hw & Hh & Hrr & Ht & _).
  rewrite Hw in Hw'. injection Hw' as <- <-.
  destruct (retryRun_last _ _ _ Hrr) as (a & Hlast & Hout).
  destruct out as [resp [e|]]; [unfold ret in Hrun; discriminate|].
  apply bind_inv in Hrun as (resp' & m2 & Hderef & Hrun).
  destruct resp as [resp|]; [|discriminate]. cbn [deref] in Hderef. done_inv Hderef.
  apply bind_inv in Hrun as ([] & m3 & Htrack & Hrun). done_inv Hrun.
  destruct (trackCreated_post _ _ _ _ Htrack) as (Hh3 & _ & _ & HA & HB).
  exists a.1.2, resp'.
  split.
  - rewrite (newEvents_app m m' (concat (attemptEvents <$> atts)))
      by (rewrite Hh3, Hh; reflexivity).
    rewrite creationAttempts_attempts, fmap_last, Hlast. cbn.
    destruct a.2 as [resp0|e0]; cbn in Hout; congruence.
  - rewrite <- Ht. split; assumption.
Qed.

Lemma X5_launch_tracks_created_requests_witness :
  exists m' r,
    launchSpot Examples.accepting 1 Examples.fresh = Done (None, m') /\
    trackedReqs (spot m') !! "sir-1"%string = Some r /\ InstanceID r = None.
Proof.
  eexists _, _. split; [vm_compute; reflexivity|].
  match goal with
  | |- context [spot ?m'] =>
      destruct (X5_launch_tracks_created_requests Examples.accepting 1 Examples.fresh m'
                  ltac:(reflexivity) ltac:(vm_compute; reflexivity))
        as (i & resp & _ & _ & _)
  end.
  split; [vm_compute; reflexivity | reflexivity].
Defined.

(** X6. A launch for a count of zero or less does nothing at all. A
    launch that fails returns the error of its last creation attempt and
    leaves the tracked set and the skew as they were: nothing of a failed
    batch is tracked. *)
Theorem X6_failed_launch_tracks_nothing env n m :
  (n <= 0 -> launchSpot env n m = Done (None, m)) /\
  (forall e m',
      launchSpot env n m = Done (Some e, m') ->
      trackedReqs (spot m') = trackedReqs (spot m) /\
      approximateClockSkew (spot m') = approximateClockSkew (spot m) /\
      exists i, last (creationAttempts (newEvents m m')) = Some (i, Failure e)).
Proof.
  split.
  - intros Hn. unfold launchSpot. destruct (Z.leb_spec n 0); [reflexivity | lia].
  - intros e m' Hrun. unfold launchSpot in Hrun.
    destruct (n <=? 0); [unfold ret in Hrun; discriminate|].
    apply bind_inv in Hrun as (created & m1 & Hw' & Hrun).
    destruct (wrapper_spec env n false m) as (out & m1' & atts & Hw & Hh & Hrr & Ht & Hs & _).
    rewrite Hw in Hw'. injection Hw' as <- <-.
    destruct (retryRun_last _ _ _ Hrr) as (a & Hlast & Hout).
    destruct out as [resp [e'|]].
    + done_inv Hrun. split; [exact Ht|]. split; [exact Hs|].
      exists a.1.2. rewrite (newEvents_app _ _ _ Hh), creationAttempts_attempts, fmap_last, Hlast.
      cbn. destruct a.2 as [resp0|e0]; cbn in Hout; congruence.
    + apply bind_inv in Hrun as (resp' & m2 & _ & Hrun).
      apply bind_inv in Hrun as ([] & m3 & _ & Hrun). unfold ret in Hrun. discriminate.
Qed.

Lemma X6_failed_launch_tracks_nothing_witness :
  launchSpot Examples.rejecting 0 Examples.fresh = Done (None, Examples.fresh) /\
  exists e m',
    launchSpot Examples.rejecting 1 Examples.fresh = Done (Some e, m') /\
    trackedReqs (spot m') = trackedReqs (spot Examples.fresh).
Proof.
  destruct (X6_failed_launch_tracks_nothing Examples.rejecting 0 Examples.fresh) as [H0 _].
  destruct (X6_failed_launch_tracks_nothing Examples.rejecting 1 Examples.fresh) as [_ H1].
  split; [apply H0; vm_compute; discriminate|].
  eexists _, _. split; [vm_compute; reflexivity|].
  eapply H1. vm_compute. reflexivity.
Defined.

(** * Further properties: the calibration *)

(** X7. A calibration that returns has read the clock, submitted one
    creation request for a single instance, not a dry run, valid from 100
    hours after the second clock reading plus the skew held, and then only
    cancelled: every cancellation names the identifier of the first created
    request, all but the last were answered not-found, and the last was
    not. Nothing is cancelled when the creation failed. *)
Theorem X7_calibration_protocol env fuel m m' :
  attemptToApproximateClockSkew env fuel m = Done (tt, m') ->
  exists t input r cancels,
    newEvents m m' =
      EvNow (timeNow env (history m)) :: EvNow t
        :: EvRequestSpotInstances input r :: cancels /\
    InstanceCount input = 1 /\ DryRun input = false /\
    ValidFrom input = t + approximateClockSkew (spot m) + Hour * 100 /\
    match r with
    | Failure _ => cancels = []
    | Success requests =>
        exists first pre res,
          head requests = Some first /\
          cancels = pre ++ [EvCancelSpotInstanceRequests [SpotInstanceRequestId first] res] /\
          Forall (fun e => exists r',
                      e = EvCancelSpotInstanceRequests [SpotInstanceRequestId first] r' /\
                      isNotFound r' = true) pre /\
          isNotFound res = false
    end.
Proof.
  intros Hrun. unfold attemptToApproximateClockSkew in Hrun.
  apply bind_inv in Hrun as (t0 & m1 & Hnow & Hrun).
  unfold Now in Hnow. cbv zeta in Hnow. injection Hnow as Ht0 Hm1. subst t0 m1.
  apply bind_inv in Hrun as (r & m2 & Hcreate & Hrun).
  unfold createSpotInstanceRequest in Hcreate.
  apply bind_inv in Hcreate as (t & m1 & Hnow & Hcreate).
  unfold Now in Hnow. cbv zeta in Hnow. injection Hnow as Ht Hm1. subst m1.
  cbn [spot history] in Hcreate. rewrite Ht in Hcreate. clear Ht.
  apply bind_inv in Hcreate as (c & m1 & Hget & Hcreate).
  unfold getSpot in Hget. injection Hget as Hc Hm1. subst c m1.
  unfold RequestSpotInstances in Hcreate. cbv zeta in Hcreate.
  cbn [spot history] in Hcreate.
  match type of Hcreate with context [clientRequestSpotInstances _ _ ?i] =>
    set (input := i) in * end.
  assert (Hinput : InstanceCount input = 1 /\ DryRun input = false /\
                   ValidFrom input = t + approximateClockSkew (spot m) + Hour * 100)
    by (subst input; cbn; auto).
  clearbody input.
  injection Hcreate as Hr Hm2. subst m2. cbn [spot history] in *.
  rewrite Hr in Hrun. clear Hr.
  exists t, input, r.
  destruct r as [requests|e].
  - apply bind_inv in Hrun as (first & m3 & Hfirst & Hrun).
    destruct (head requests) as [first'|] eqn:Ehead; [|discriminate].
    cbn [deref] in Hfirst. done_inv Hfirst.
    apply bind_inv in Hrun as (t1 & m3 & Ht1 & Hrun).
    destruct (CreateTime first) as [t1'|] eqn:Ect; [|discriminate].
    cbn [deref] in Ht1. done_inv Ht1.
    apply bind_inv in Hrun as (cleaned & m3 & Hclean & Hrun).
    apply cleanUpCalibration_spec in Hclean as (Hs3 & pre & res & Hh3 & Hpre & Hnf & Hb).
    cbn [spot history] in Hs3, Hh3.
    exists (pre ++ [EvCancelSpotInstanceRequests [SpotInstanceRequestId first] res]).
    assert (Hm' : history m' = history m3).
    { destruct cleaned.
      - unfold setApproximateClockSkew in Hrun. cbv beta in Hrun.
        injection Hrun as Hm'. subst m'. reflexivity.
      - done_inv Hrun. reflexivity. }
    split.
    { apply newEvents_app. rewrite Hm', Hh3, <- !app_assoc. reflexivity. }
    split; [apply Hinput|]. split; [apply Hinput|]. split; [apply Hinput|].
    exists first, pre, res. auto.
  - done_inv Hrun. exists [].
    split; [apply newEvents_app; cbn [history]; rewrite <- !app_assoc; reflexivity|].
    split; [apply Hinput|]. split; [apply Hinput|]. split; [apply Hinput|]. reflexivity.
Qed.

Lemma X7_calibration_protocol_witness :
  exists m' t input r cancels,
    attemptToApproximateClockSkew Examples.visibleLate 5 Examples.fresh = Done (tt, m') /\
    newEvents Examples.fresh m' =
      EvNow (timeNow Examples.visibleLate (history Examples.fresh)) :: EvNow t
        :: EvRequestSpotInstances input r :: cancels /\
    length cancels = 3%nat /\
    InstanceCount input = 1.
Proof.
  eexists.
  assert (Hrun : attemptToApproximateClockSkew Examples.visibleLate 5 Examples.fresh
                 = Done (tt, _)) by (vm_compute; reflexivity).
  destruct (X7_calibration_protocol _ _ _ _ Hrun) as (t & input & r & cancels & Hnew & Hc & _).
  exists t, input, r, cancels. split; [exact Hrun|]. split; [exact Hnew|].
  split; [|exact Hc].
  vm_compute in Hnew. injection Hnew as _ _ _ <-. reflexivity.
Defined.

Lemma cleanUpCalibration_never_visible env fuel id m :
  (forall h ids, isNotFound (clientCancelSpotInstanceRequests env h ids) = true) ->
  cleanUpCalibration env fuel id m = OutOfFuel.
Proof.
  intros Hnf. revert m. induction fuel as [|fuel IH]; intros m; cbn [cleanUpCalibration].
  - reflexivity.
  - unfold bind, terminateSpotInstanceRequests. cbn [length Nat.eqb].
    unfold CancelSpotInstanceRequests.
    specialize (Hnf (history m) [id]).
    destruct (clientCancelSpotInstanceRequests env (history m) [id]) as [[]|[code msg|msg]];
      cbn in Hnf; try discriminate.
    rewrite Hnf. cbn [negb]. apply IH.
Qed.

(** X8. The clean-up loop of the calibration has no bound of its own:
    when the calibration request was created and the remote answers every
    cancellation with not-found, the calibration does not return within any
    number of turns (and so never stores a skew). *)
Theorem X8_calibration_loops_while_not_found env fuel m requests first t1 :
  (forall h i, clientRequestSpotInstances env h i = Success requests) ->
  head requests = Some first ->
  CreateTime first = Some t1 ->
  (forall h ids, isNotFound (clientCancelSpotInstanceRequests env h ids) = true) ->
  attemptToApproximateClockSkew env fuel m = OutOfFuel.
Proof.
  intros Hcreate Hhead Hct Hnf.
  unfold attemptToApproximateClockSkew, createSpotInstanceRequest, Now, getSpot,
    RequestSpotInstances, bind.
  cbn [spot history]. rewrite Hcreate, Hhead. cbn [deref ret]. rewrite Hct. cbn [deref ret].
  rewrite cleanUpCalibration_never_visible by exact Hnf. reflexivity.
Qed.

Lemma X8_calibration_loops_while_not_found_witness :
  attemptToApproximateClockSkew Examples.neverVisible 1000 Examples.fresh = OutOfFuel.
Proof.
  apply (X8_calibration_loops_while_not_found Examples.neverVisible 1000 Examples.fresh
           [Examples.openRequest "sir-9" (1025 * Second)]
           (Examples.openRequest "sir-9" (1025 * Second)) (1025 * Second)).
  - intros h i. reflexivity.
  - reflexivity.
  - reflexivity.
  - intros h ids. reflexivity.
Defined.

(** * Further properties: the anatomy of a tick *)

Lemma describeRequests_post env f m :
  post (describeRequests env f) m (fun r m' =>
    spot m' = spot m /\
    exists resp,
      history m' = history m ++ [EvDescribeSpotInstanceRequests f resp] /\
      match resp with
      | Failure e => r = Failure e
      | Success l => exists s, r = Success s /\ requestsOf l = Some s
      end).
Proof.
  intros r m' Hrun. unfold describeRequests in Hrun.
  apply bind_inv in Hrun as (resp & m1 & Hcall & Hrun).
  unfold DescribeSpotInstanceRequests in Hcall. cbv zeta in Hcall.
  injection Hcall as Hresp Hm1. subst m1. rewrite Hresp in Hrun.
  destruct resp as [l|e].
  - apply bind_inv in Hrun as (s & m2 & Hcollect & Hrun).
    pose proof (collectRequests_pure _ _ _ _ _ Hcollect) as Hm2. subst m2.
    done_inv Hrun. cbn [spot history]. split; [reflexivity|].
    exists (Success l). split; [reflexivity|].
    exists s. split; [reflexivity|].
    unfold requestsOf. erewrite collectRequests_indep by exact Hcollect. reflexivity.
  - done_inv Hrun. cbn [spot history]. split; [reflexivity|].
    exists (Failure e). auto.
Qed.

Lemma listSpotRequestsByID_exact env ids m :
  post (listSpotRequestsByID env ids) m (fun r m' =>
    spot m' = spot m /\
    ((ids = [] /\ r = Success ∅ /\ history m' = history m) \/
     (ids <> [] /\
      exists resp,
        history m' = history m ++ [EvDescribeSpotInstanceRequests (FilterRequestID ids) resp] /\
        match resp with
        | Failure e => r = Failure e
        | Success l => exists s, r = Success s /\ requestsOf l = Some s
        end))).
Proof.
  unfold listSpotRequestsByID. destruct ids as [|id ids]; cbn [length Nat.eqb].
  - apply post_ret. auto.
  - eapply post_mono; [apply describeRequests_post|]. cbn beta.
    intros r m' (Hs & H). split; [exact Hs|]. right. split; [discriminate | exact H].
Qed.

Lemma trackAll_post reqs m :
  post (trackAll reqs) m (fun _ m' =>
    history m' = history m /\
    approximateClockSkew (spot m') = approximateClockSkew (spot m) /\
    launchTimeOffset (spot m') = launchTimeOffset (spot m) /\
    trackedReqs (spot m') = unionTracked (trackedReqs (spot m)) reqs).
Proof.
  revert m. induction reqs as [|req reqs IH]; intros m; cbn [trackAll].
  - apply post_ret. auto.
  - apply post_bind, post_getSpot. apply post_bind, post_setTrackedReqs.
    eapply post_mono; [apply IH|]. cbn [spot history trackedReqs approximateClockSkew
                                         launchTimeOffset].
    intros _ m' (Hh & Hs & Hl & Ht). auto.
Qed.

Lemma setTagsOnInstances_post env s m :
  post (setTagsOnInstances env s) m (fun _ m' =>
    spot m' = spot m /\
    ((instanceIds env s = [] /\ history m' = history m) \/
     (instanceIds env s <> [] /\
      exists r, history m' = history m ++ [EvCreateTags (instanceIds env s) r]))).
Proof.
  unfold setTagsOnInstances. destruct (instanceIds env s) as [|i ids]; cbn [length Nat.eqb].
  - apply post_ret. auto.
  - apply post_CreateTags. intros r. cbn [spot history].
    split; [reflexivity|]. right. split; [discriminate|]. eauto.
Qed.

Lemma allAttention_add r s code :
  StatusCode r = Some code -> attentionCode code = true ->
  allAttention s -> allAttention (ReqSet.add r s).
Proof.
  intros Hc Ha Hs id r' Hl. unfold ReqSet.add in Hl.
  destruct (decide (SpotRequestID r = id)) as [<-|Hne].
  - rewrite lookup_insert_eq in Hl. injection Hl as <-. eauto.
  - rewrite lookup_insert_ne in Hl by exact Hne. eapply Hs, Hl.
Qed.

Lemma classifyActive_post reqs notify m :
  allAttention notify ->
  post (classifyActive reqs notify) m (fun notify' m' => m' = m /\ allAttention notify').
Proof.
  revert notify. induction reqs as [|req reqs IH]; intros notify Hn; cbn [classifyActive].
  - apply post_ret. auto.
  - apply post_bind, post_deref. intros code Hcode.
    destruct (String.eqb code "capacity-not-available" || String.eqb code "price-too-low")
      eqn:E; [|apply IH, Hn].
    apply IH. eapply allAttention_add; [exact Hcode| |exact Hn].
    unfold attentionCode. rewrite E. reflexivity.
Qed.

Lemma processNewOrInactive_post reqs missing num notify m :
  allAttention notify ->
  post (processNewOrInactive reqs missing num notify) m (fun res m' =>
    history m' = history m /\
    approximateClockSkew (spot m') = approximateClockSkew (spot m) /\
    launchTimeOffset (spot m') = launchTimeOffset (spot m) /\
    trackedReqs (spot m') = pruneTracked (trackedReqs (spot m)) reqs /\
    allAttention res.2).
Proof.
  revert missing num notify m.
  induction reqs as [|req reqs IH]; intros missing num notify m Hn;
    cbn [processNewOrInactive].
  - apply post_ret. cbn. auto.
  - apply post_bind.
    change (negb (String.eqb (State req) "active") && negb (String.eqb (State req) "open"))
      with (terminal req).
    cbn [pruneTracked foldl].
    destruct (terminal req) eqn:Eterm.
    + apply post_bind, post_getSpot. apply post_bind, post_setTrackedReqs. apply post_ret.
      apply post_bind, post_deref. intros code Hcode.
      destruct (String.eqb code "bad-parameters"
                || String.eqb code "constraint-not-fulfillable"
                || String.eqb code "limit-exceeded") eqn:E.
      * eapply post_mono; [apply IH|auto].
        eapply allAttention_add; [exact Hcode| |exact Hn].
        unfold attentionCode. rewrite !orb_true_iff in *. tauto.
      * eapply post_mono; [apply IH, Hn|auto].
    + apply post_ret.
      apply post_bind, post_deref. intros code Hcode.
      destruct (String.eqb code "bad-parameters"
                || String.eqb code "constraint-not-fulfillable"
                || String.eqb code "limit-exceeded") eqn:E.
      * eapply post_mono; [apply IH|auto].
        eapply allAttention_add; [exact Hcode| |exact Hn].
        unfold attentionCode. rewrite !orb_true_iff in *. tauto.
      * eapply post_mono; [apply IH, Hn|auto].
Qed.

Lemma notifyUser_post reqs m :
  post (notifyUser reqs) m (fun _ m' =>
    spot m' = spot m /\
    exists evs,
      history m' = history m ++ evs /\
      Forall2 (fun r e => exists code msg,
                   StatusCode r = Some code /\ StatusMessage r = Some msg /\
                   e = EvUserAttention code msg (CreationTime r)) reqs evs).
Proof.
  revert m. induction reqs as [|req reqs IH]; intros m; cbn [notifyUser].
  - apply post_ret. split; [reflexivity|]. exists []. rewrite app_nil_r. auto.
  - apply post_bind, post_deref. intros code Hcode.
    apply post_bind, post_deref. intros msg Hmsg.
    apply post_bind, post_emit. eapply post_mono; [apply IH|].
    cbn [spot history]. intros _ m' (Hs & evs & Hh & Hall).
    split; [exact Hs|].
    exists (EvUserAttention code msg (CreationTime req) :: evs).
    split; [rewrite Hh, <- app_assoc; reflexivity|].
    constructor; [eauto | exact Hall].
Qed.

Lemma insertChrono_elem x r l : x ∈ ReqSet.insertChrono r l -> x = r \/ x ∈ l.
Proof.
  induction l as [|y l IH]; cbn [ReqSet.insertChrono].
  - intros H. apply list_elem_of_singleton in H. auto.
  - destruct (CreationTime r <=? CreationTime y).
    + intros H. apply elem_of_cons in H as [H|H]; auto.
    + intros H. apply elem_of_cons in H as [H|H].
      * right. subst. apply list_elem_of_here.
      * destruct (IH H) as [Hx|Hx]; [auto|]. right. apply list_elem_of_further, Hx.
Qed.

Lemma sortChrono_elem x l : x ∈ ReqSet.sortChrono l -> x ∈ l.
Proof.
  unfold ReqSet.sortChrono. induction l as [|y l IH]; cbn [foldr]; [auto|].
  intros H. apply insertChrono_elem in H as [->|H].
  - apply list_elem_of_here.
  - apply list_elem_of_further, IH, H.
Qed.

Lemma iter_elem env (s : setOfSpotRequests) r :
  visits_each_once env -> r ∈ iter env s -> exists id, s !! id = Some r.
Proof.
  intros Hord Hin. unfold iter in Hin. rewrite (Hord s) in Hin.
  unfold ReqSet.requests in Hin. apply list_elem_of_fmap in Hin as ([id r'] & -> & Hin).
  exists id. apply elem_of_map_to_list in Hin. exact Hin.
Qed.

Lemma attention_events reqs evs :
  (forall r, r ∈ reqs -> exists code, StatusCode r = Some code /\ attentionCode code = true) ->
  Forall2 (fun r e => exists code msg,
               StatusCode r = Some code /\ StatusMessage r = Some msg /\
               e = EvUserAttention code msg (CreationTime r)) reqs evs ->
  forallb attentionEvent evs = true.
Proof.
  intros Hreqs Hall. induction Hall as [|r e reqs evs (code & msg & Hc & _ & ->) _ IH].
  - reflexivity.
  - cbn [forallb attentionEvent].
    destruct (Hreqs r (list_elem_of_here _ _)) as (code' & Hc' & Ha).
    assert (code' = code) as -> by congruence. rewrite Ha. cbn.
    apply IH. intros r' Hin. apply Hreqs, list_elem_of_further, Hin.
Qed.

Lemma allAttention_empty : allAttention ReqSet.newSetOfSpotRequests.
Proof. intros id r H. unfold ReqSet.newSetOfSpotRequests in H. rewrite lookup_empty in H. discriminate. Qed.

(** Every successful tick has this anatomy. *)
Lemma listSpot_anatomy env m :
  visits_each_once env ->
  post (listSpot env) m (fun res m' =>
    forall out, res = Success out -> tickAnatomy env m out m').
Proof.
  intros Hord. unfold listSpot, listActiveSpotInstanceRequests,
    listCanceledButInstanceRunningSpotRequests.
  apply post_bind. eapply post_mono; [apply describeRequests_post|].
  cbn beta. intros listed m1 (Hs1 & resp0 & Hh1 & Hr0).
  destruct listed as [listed|e]; [|apply post_ret; intros out H; discriminate].
  destruct resp0 as [l0|e0]; [|discriminate].
  destruct Hr0 as (s0 & Hs0 & Hreq0). injection Hs0 as <-.
  apply post_bind. eapply post_mono; [apply trackAll_post|].
  cbn beta. intros _ m2 (Hh2 & Hk2 & Hl2 & Ht2).
  apply post_bind. eapply post_mono; [apply setTagsOnInstances_post|].
  cbn beta. intros _ m3 (Hs3 & Htags).
  apply post_bind. eapply post_mono; [apply classifyActive_post, allAttention_empty|].
  cbn beta. intros notify m4 (-> & Hatt).
  apply post_bind, post_getSpot.
  apply post_bind. eapply post_mono; [apply listSpotRequestsByID_exact|].
  cbn beta. intros lookedR m5 (Hs5 & Hlook).
  destruct lookedR as [looked|e]; [|apply post_ret; intros out H; discriminate].
  apply post_bind. eapply post_mono; [apply processNewOrInactive_post, Hatt|].
  cbn beta. intros [[missing' num'] notify'] m6 (Hh6 & Hk6 & Hl6 & Ht6 & Hatt'). cbn [snd] in Hatt'.
  cbn iota beta.
  apply post_bind. eapply post_mono; [apply notifyUser_post|].
  cbn beta. intros _ m7 (Hs7 & atts & Hh7 & Hatts).
  apply post_bind. eapply post_mono; [apply describeRequests_post|].
  cbn beta. intros canceledR m8 (Hs8 & resp3 & Hh8 & Hr3).
  destruct canceledR as [canceled|e]; [|apply post_ret; intros out H; discriminate].
  destruct resp3 as [l3|e3]; [|discriminate].
  destruct Hr3 as (s3 & Hs3' & Hreq3). injection Hs3' as <-.
  apply post_bind.
  eapply (post_mono _ _ (fun _ m9 =>
            spot m9 = spot m8 /\
            ((size canceled = 0%nat /\ history m9 = history m8) \/
             (size canceled <> 0%nat /\
              exists r, history m9 = history m8
                          ++ [EvTerminateInstances (instanceIds env canceled) r])))).
  { unfold ReqSet.numReqs. destruct (Nat.ltb_spec 0 (size canceled)).
    - apply post_bind, post_callTerminateInstances. intros r. apply post_ret.
      cbn [spot history]. split; [reflexivity|]. right. split; [lia|]. eauto.
    - apply post_ret. split; [reflexivity|]. left. split; [lia | reflexivity]. }
  cbn beta. intros _ m9 (Hs9 & Hterm).
  apply post_bind. eapply post_mono; [apply buildInstanceListFromTrackedReqs_post|].
  cbn beta. intros built m' (Hs' & answer & Hh' & Hout).
  destruct built as [instances|e]; apply post_ret; intros out H; [|discriminate].
  injection H as <-. destruct (Hout instances eq_refl) as (described & -> & Heq).
  (* assemble *)
  assert (Hspot : spot m' = spot m6) by congruence.
  assert (Hatts' : forallb attentionEvent atts = true).
  { eapply attention_events; [|exact Hatts].
    intros r Hin. unfold asListInChronologicalOrder in Hin.
    apply sortChrono_elem in Hin. apply (iter_elem env _ _ Hord) in Hin as (id & Hid).
    eapply Hatt', Hid. }
  assert (Htags' : exists tags,
             history m3 = history m2 ++ tags /\
             ((instanceIds env listed = [] /\ tags = []) \/
              (instanceIds env listed <> [] /\
               exists r, tags = [EvCreateTags (instanceIds env listed) r]))).
  { destruct Htags as [[H1 H2]|[H1 (r & H2)]].
    - exists []. rewrite app_nil_r. auto.
    - exists [EvCreateTags (instanceIds env listed) r]. split; [exact H2|]. right. eauto. }
  destruct Htags' as (tags & HhT & HtagsC).
  assert (Hlook' : exists look,
             history m5 = history m3 ++ look /\
             let gap := idsAsListOfPointers env
                          (ReqSet.deleteIntersection listed
                             (unionTracked (trackedReqs (spot m)) (iter env listed))) in
             (gap = [] /\ look = [] /\ looked = ∅) \/
             (gap <> [] /\
              exists l1, look = [EvDescribeSpotInstanceRequests (FilterRequestID gap) (Success l1)]
                         /\ requestsOf l1 = Some looked)).
  { unfold ReqSet.copy in Hlook. rewrite Hs3, Ht2, Hs1 in Hlook. cbn zeta.
    destruct Hlook as [(H1 & H2 & H3)|(H1 & resp & H2 & H3)].
    - exists []. rewrite app_nil_r. split; [exact H3|]. left. injection H2 as ->. auto.
    - destruct resp as [l1|e1]; [|discriminate].
      destruct H3 as (s1 & Hs1' & Hreq1). injection Hs1' as <-.
      eexists. split; [exact H2|]. right. split; [exact H1|]. eauto. }
  destruct Hlook' as (look & HhL & HlookC).
  assert (Hterm' : exists term,
             history m9 = history m8 ++ term /\
             ((size canceled = 0%nat /\ term = []) \/
              (size canceled <> 0%nat /\
               exists r, term = [EvTerminateInstances (instanceIds env canceled) r]))).
  { destruct Hterm as [[H1 H2]|[H1 (r & H2)]].
    - exists []. rewrite app_nil_r. auto.
    - eexists. split; [exact H2|]. right. eauto. }
  destruct Hterm' as (term & HhM & HtermC).
  exists l0, listed, tags, look, looked, atts, l3, canceled, term, described.
  split; [exact Hreq0|]. split; [exact Hreq3|].
  split.
  { apply newEvents_app.
    rewrite Hh', Hs9, Hs8, Hs7, <- Hspot, HhM, Hh8, Hh7, Hh6, HhL, HhT, Hh2, Hh1.
    rewrite <- !app_assoc. reflexivity. }
  split; [exact HtagsC|]. split; [exact HlookC|]. split; [exact Hatts'|].
  split; [exact HtermC|].
  split; [rewrite Hspot, Ht6, Hs5, Hs3, Ht2, Hs1; reflexivity|].
  split; [rewrite Hspot, Hk6, Hs5, Hs3, Hk2, Hs1; reflexivity|].
  split; [rewrite Hspot, Hl6, Hs5, Hs3, Hl2, Hs1; reflexivity|].
  rewrite Heq, Hs9, Hs8, Hs7, <- Hspot. reflexivity.
Qed.

(** ** The tracked set as a map *)

Lemma requests_ids (s : setOfSpotRequests) :
  keyed s -> SpotRequestID <$> ReqSet.requests s = (map_to_list s).*1.
Proof.
  intros Hk. unfold ReqSet.requests. rewrite <- list_fmap_compose.
  apply list_fmap_ext_ne || idtac.
  apply Forall_fmap_ext_1. apply Forall_forall. intros [id r] Hin.
  apply elem_of_map_to_list in Hin. cbn. eapply Hk, Hin.
Qed.

Lemma iter_ids_NoDup env (s : setOfSpotRequests) :
  visits_each_once env -> keyed s -> NoDup (SpotRequestID <$> iter env s).
Proof.
  intros Hord Hk. unfold iter. rewrite (Hord s), (requests_ids s Hk).
  apply NoDup_fst_map_to_list.
Qed.

Lemma iter_lookup env (s : setOfSpotRequests) r :
  visits_each_once env -> keyed s ->
  r ∈ iter env s <-> s !! SpotRequestID r = Some r.
Proof.
  intros Hord Hk. split.
  - intros Hin. destruct (iter_elem env s r Hord Hin) as (id & Hid).
    rewrite (Hk _ _ Hid). exact Hid.
  - intros Hl. eapply visits_lookup; eassumption.
Qed.

Lemma unionTracked_notin l t id :
  id ∉ SpotRequestID <$> l -> unionTracked t l !! id = t !! id.
Proof.
  unfold unionTracked. revert t. induction l as [|x l IH]; intros t Hnot; cbn [foldl].
  - reflexivity.
  - cbn [fmap list_fmap] in Hnot. apply not_elem_of_cons in Hnot as [Hne Hnot].
    rewrite (IH _ Hnot). unfold ReqSet.add. apply lookup_insert_ne. congruence.
Qed.

Lemma unionTracked_in l t r :
  NoDup (SpotRequestID <$> l) -> r ∈ l ->
  unionTracked t l !! SpotRequestID r = Some r.
Proof.
  unfold unionTracked. revert t. induction l as [|x l IH]; intros t Hnd Hin; cbn [foldl].
  - inversion Hin.
  - cbn [fmap list_fmap] in Hnd. apply NoDup_cons in Hnd as [Hx Hnd].
    apply elem_of_cons in Hin as [->|Hin].
    + fold (unionTracked (ReqSet.add x t) l). rewrite (unionTracked_notin _ _ _ Hx).
      unfold ReqSet.add. apply lookup_insert_eq.
    + apply IH; assumption.
Qed.

(** The first loop of the tick is the union of the listed requests into the
    tracked set, the listed ones winning. *)
Lemma unionTracked_union env (listed t : setOfSpotRequests) :
  visits_each_once env -> keyed listed ->
  unionTracked t (iter env listed) = listed ∪ t.
Proof.
  intros Hord Hk. apply map_eq. intros id. rewrite lookup_union.
  destruct (listed !! id) as [r|] eqn:E.
  - pose proof (Hk _ _ E) as Hid. subst id.
    rewrite (unionTracked_in _ _ r (iter_ids_NoDup env listed Hord Hk)).
    + destruct (t !! SpotRequestID r); reflexivity.
    + eapply visits_lookup; eassumption.
  - rewrite unionTracked_notin.
    + destruct (t !! id); reflexivity.
    + intros Hin. apply list_elem_of_fmap in Hin as (r & -> & Hin).
      apply (iter_lookup env listed r Hord Hk) in Hin. congruence.
Qed.

Lemma pruneTracked_None l t id : t !! id = None -> pruneTracked t l !! id = None.
Proof.
  unfold pruneTracked. revert t. induction l as [|x l IH]; intros t Ht; cbn [foldl].
  - exact Ht.
  - apply IH. destruct (terminal x); [|exact Ht].
    unfold ReqSet.delete. rewrite lookup_delete_None. auto.
Qed.

Lemma pruneTracked_notin l t id :
  id ∉ SpotRequestID <$> l -> pruneTracked t l !! id = t !! id.
Proof.
  unfold pruneTracked. revert t. induction l as [|x l IH]; intros t Hnot; cbn [foldl].
  - reflexivity.
  - cbn [fmap list_fmap] in Hnot. apply not_elem_of_cons in Hnot as [Hne Hnot].
    rewrite (IH _ Hnot). destruct (terminal x); [|reflexivity].
    unfold ReqSet.delete. apply lookup_delete_ne. congruence.
Qed.

Lemma pruneTracked_in l t r :
  NoDup (SpotRequestID <$> l) -> r ∈ l ->
  pruneTracked t l !! SpotRequestID r =
    if terminal r then None else t !! SpotRequestID r.
Proof.
  unfold pruneTracked. revert t. induction l as [|x l IH]; intros t Hnd Hin; cbn [foldl].
  - inversion Hin.
  - cbn [fmap list_fmap] in Hnd. apply NoDup_cons in Hnd as [Hx Hnd].
    apply elem_of_cons in Hin as [->|Hin].
    + fold (pruneTracked (if terminal x then ReqSet.delete x t else t) l).
      rewrite (pruneTracked_notin _ _ _ Hx).
      destruct (terminal x); [|reflexivity]. unfold ReqSet.delete. apply lookup_delete_eq.
    + rewrite (IH _ Hnd Hin).
      destruct (terminal r); [reflexivity|].
      destruct (terminal x); [|reflexivity].
      unfold ReqSet.delete. apply lookup_delete_ne.
      intros Heq. apply Hx. rewrite Heq. apply list_elem_of_fmap. eauto.
Qed.

(** The loop over the looked-up requests removes exactly the identifiers
    looked up in a terminal state. *)
Lemma pruneTracked_lookup env (looked t : setOfSpotRequests) id :
  visits_each_once env -> keyed looked ->
  pruneTracked t (iter env looked) !! id =
    match looked !! id with
    | Some r => if terminal r then None else t !! id
    | None => t !! id
    end.
Proof.
  intros Hord Hk. destruct (looked !! id) as [r|] eqn:E.
  - pose proof (Hk _ _ E) as Hid. subst id.
    apply pruneTracked_in; [apply iter_ids_NoDup; assumption|].
    eapply visits_lookup; eassumption.
  - apply pruneTracked_notin. intros Hin.
    apply list_elem_of_fmap in Hin as (r & -> & Hin).
    apply (iter_lookup env looked r Hord Hk) in Hin. congruence.
Qed.

(** * Further properties: what a successful tick does *)

Lemma listSpot_run env m out m' :
  visits_each_once env ->
  listSpot env m = Done (Success out, m') -> tickAnatomy env m out m'.
Proof. intros Hord Hrun. exact (listSpot_anatomy env m Hord _ _ Hrun out eq_refl). Qed.

Lemma tick_pieces (e a b c : event) tags look atts term :
  e ∈ [a] ++ tags ++ look ++ atts ++ [b] ++ term ++ [c] <->
  e = a \/ e ∈ tags \/ e ∈ look \/ e ∈ atts \/ e = b \/ e ∈ term \/ e = c.
Proof. rewrite !elem_of_app, !list_elem_of_singleton. tauto. Qed.

Lemma attention_elem atts e :
  forallb attentionEvent atts = true -> e ∈ atts -> attentionEvent e = true.
Proof.
  induction atts as [|a atts IH]; cbn [forallb]; intros H Hin.
  - inversion Hin.
  - apply andb_true_iff in H as [Ha H]. apply elem_of_cons in Hin as [->|Hin]; auto.
Qed.

Lemma attentionCode_spec code :
  attentionCode code = true <->
  code ∈ ["capacity-not-available"; "price-too-low"; "bad-parameters";
          "constraint-not-fulfillable"; "limit-exceeded"]%string.
Proof.
  unfold attentionCode. rewrite !orb_true_iff, !String.eqb_eq.
  rewrite !elem_of_cons, elem_of_nil. tauto.
Qed.

(** An event of a piece that is empty or one event of another kind. *)
Ltac off_piece H :=
  first [ apply elem_of_nil in H; contradiction
        | apply list_elem_of_singleton in H; discriminate H
        | discriminate H ].

(** X9. A successful tick talks to the remote in a fixed order: the list
    of active requests first; then at most one tagging call, at most one
    lookup by identifier, the diagnostics for the user, the list of canceled
    requests whose instance still runs, at most one termination call, and
    last the description of the instances. The answers of the tagging and
    of the termination call are not looked at: either may be a failure. *)
Theorem X9_tick_call_order env m out m' :
  visits_each_once env ->
  listSpot env m = Done (Success out, m') ->
  exists l0 tags look atts l3 term ids described,
    newEvents m m' =
      [EvDescribeSpotInstanceRequests activeFilter (Success l0)] ++ tags ++ look ++ atts
      ++ [EvDescribeSpotInstanceRequests canceledFilter (Success l3)] ++ term
      ++ [EvDescribeInstancesByID ids (Success described)] /\
    (tags = [] \/ exists i r, tags = [EvCreateTags i r]) /\
    (look = [] \/
     exists i l, look = [EvDescribeSpotInstanceRequests (FilterRequestID i) (Success l)]) /\
    forallb attentionEvent atts = true /\
    (term = [] \/ exists i r, term = [EvTerminateInstances i r]).
Proof.
  intros Hord Hrun.
  destruct (listSpot_run env m out m' Hord Hrun)
    as (l0 & listed & tags & look & looked & atts & l3 & canceled & term & described
        & _ & _ & Hev & Htags & Hlook & Hatts & Hterm & _).
  exists l0, tags, look, atts, l3, term, (askedIds env (trackedReqs (spot m'))), described.
  split; [exact Hev|].
  split; [destruct Htags as [[_ ->]|[_ (r & ->)]]; eauto|].
  split; [cbv zeta in Hlook; destruct Hlook as [(_ & -> & _)|(_ & l1 & -> & _)]; eauto|].
  split; [exact Hatts|].
  destruct Hterm as [[_ ->]|[_ (r & ->)]]; eauto.
Qed.

Lemma X9_tick_call_order_witness :
  exists out m' l0 tags look atts l3 term ids described,
    listSpot Examples.mixed Examples.fresh = Done (Success out, m') /\
    newEvents Examples.fresh m' =
      [EvDescribeSpotInstanceRequests activeFilter (Success l0)] ++ tags ++ look ++ atts
      ++ [EvDescribeSpotInstanceRequests canceledFilter (Success l3)] ++ term
      ++ [EvDescribeInstancesByID ids (Success described)].
Proof.
  eexists _, _.
  assert (Hrun : listSpot Examples.mixed Examples.fresh = Done (Success _, _))
    by (vm_compute; reflexivity).
  destruct (X9_tick_call_order Examples.mixed Examples.fresh _ _
              (scripted_visits_each_once _ _ _ _) Hrun)
    as (l0 & tags & look & atts & l3 & term & ids & described & Hev & _).
  exists l0, tags, look, atts, l3, term, ids, described.
  split; [exact Hrun | exact Hev].
Defined.

Lemma keyed_empty : keyed (∅ : setOfSpotRequests).
Proof. intros id r H. rewrite lookup_empty in H. discriminate. Qed.

(** X10. The tracked set after a successful tick, identifier by
    identifier: an identifier that the lookup by identifier answered in a
    state other than open or active is untracked; every other identifier is
    tracked with the listed request if the list of active requests holds it,
    and else as it was tracked before. A request looked up in state open or
    active keeps its old record. *)
Theorem X10_tick_tracking_rule env m out m' :
  visits_each_once env ->
  listSpot env m = Done (Success out, m') ->
  exists listed looked,
    tickListed m m' listed /\ tickLooked m m' looked /\
    forall id,
      trackedReqs (spot m') !! id =
        match looked !! id with
        | Some r =>
            if terminal r then None else (listed ∪ trackedReqs (spot m)) !! id
        | None => (listed ∪ trackedReqs (spot m)) !! id
        end.
Proof.
  intros Hord Hrun.
  destruct (listSpot_run env m out m' Hord Hrun)
    as (l0 & listed & tags & look & looked & atts & l3 & canceled & term & described
        & Hreq0 & _ & Hev & Htags & Hlook & Hatts & Hterm & Htr & _).
  cbv zeta in Hlook.
  exists listed, looked. split; [exists l0; rewrite Hev; auto|].
  assert (Hk : keyed looked).
  { destruct Hlook as [(_ & _ & ->)|(_ & l1 & _ & Hreq1)];
      [apply keyed_empty | eapply requestsOf_keyed, Hreq1]. }
  split.
  - destruct Hlook as [(_ & -> & ->)|(_ & l1 & -> & Hreq1)].
    + right. split; [reflexivity|]. intros ids r Hin. rewrite Hev in Hin.
      apply tick_pieces in Hin as [H|[H|[H|[H|[H|[H|H]]]]]]; try off_piece H.
      * destruct Htags as [[_ ->]|[_ (r' & ->)]]; off_piece H.
      * apply (attention_elem _ _ Hatts) in H. discriminate H.
      * destruct Hterm as [[_ ->]|[_ (r' & ->)]]; off_piece H.
    + left. eexists _, l1. split; [|exact Hreq1]. rewrite Hev.
      apply tick_pieces. right. right. left. apply list_elem_of_singleton. reflexivity.
  - intros id. rewrite Htr, (pruneTracked_lookup env looked _ id Hord Hk).
    rewrite (unionTracked_union env listed _ Hord (requestsOf_keyed _ _ Hreq0)).
    reflexivity.
Qed.

Lemma X10_tick_tracking_rule_witness :
  exists out m' listed looked,
    listSpot Examples.closing Examples.tracking = Done (Success out, m') /\
    tickListed Examples.tracking m' listed /\ tickLooked Examples.tracking m' looked /\
    trackedReqs (spot m') !! "sir-2"%string =
      match looked !! "sir-2"%string with
      | Some r =>
          if terminal r then None
          else (listed ∪ trackedReqs (spot Examples.tracking)) !! "sir-2"%string
      | None => (listed ∪ trackedReqs (spot Examples.tracking)) !! "sir-2"%string
      end.
Proof.
  eexists _, _.
  assert (Hrun : listSpot Examples.closing Examples.tracking = Done (Success _, _))
    by (vm_compute; reflexivity).
  destruct (X10_tick_tracking_rule Examples.closing Examples.tracking _ _
              (scripted_visits_each_once _ _ _ _) Hrun)
    as (listed & looked & Hl & Hk & Hrule).
  exists listed, looked.
  split; [exact Hrun|]. split; [exact Hl|]. split; [exact Hk|]. apply Hrule.
Defined.

(** X11. A tracked request that no answer of the remote mentions during
    a successful tick (a fresh request not yet visible in the remote API)
    stays tracked unchanged; if it has no instance yet, the tick reports it
    with its placeholder. *)
Theorem X11_invisible_request_stays_pending env m out m' id r :
  visits_each_once env ->
  listSpot env m = Done (Success out, m') ->
  trackedReqs (spot m) !! id = Some r ->
  (forall f l s,
      EvDescribeSpotInstanceRequests f (Success l) ∈ newEvents m m' ->
      requestsOf l = Some s -> s !! id = None) ->
  trackedReqs (spot m') !! id = Some r /\
  (InstanceID r = None -> placeholder r ∈ out).
Proof.
  intros Hord Hrun Htracked Hinvisible.
  destruct (listSpot_run env m out m' Hord Hrun)
    as (l0 & listed & tags & look & looked & atts & l3 & canceled & term & described
        & Hreq0 & _ & Hev & _ & Hlook & _ & _ & Htr & _ & _ & Hout).
  cbv zeta in Hlook.
  assert (Hlisted : listed !! id = None).
  { apply (Hinvisible activeFilter l0 listed); [|exact Hreq0].
    rewrite Hev. apply tick_pieces. left. reflexivity. }
  assert (Hlooked : looked !! id = None /\ keyed looked).
  { destruct Hlook as [(_ & _ & ->)|(_ & l1 & Hl & Hreq1)].
    - split; [apply lookup_empty | apply keyed_empty].
    - split; [|eapply requestsOf_keyed, Hreq1].
      eapply Hinvisible; [|exact Hreq1]. rewrite Hev, Hl.
      apply tick_pieces. right. right. left. apply list_elem_of_singleton. reflexivity. }
  destruct Hlooked as [Hlooked Hk].
  assert (Hafter : trackedReqs (spot m') !! id = Some r).
  { rewrite Htr, (pruneTracked_lookup env looked _ id Hord Hk), Hlooked.
    rewrite (unionTracked_union env listed _ Hord (requestsOf_keyed _ _ Hreq0)).
    rewrite lookup_union, Hlisted, Htracked. reflexivity. }
  split; [exact Hafter|].
  intros Hnone. rewrite Hout. apply elem_of_app. right.
  apply list_elem_of_fmap. exists r. split; [reflexivity|].
  apply list_elem_of_filter. split; [exact Hnone|].
  eapply visits_lookup; eassumption.
Qed.

Lemma X11_invisible_request_stays_pending_witness :
  exists out m',
    listSpot Examples.accepting Examples.tracking = Done (Success out, m') /\
    trackedReqs (spot m') !! "sir-2"%string
      = trackedReqs (spot Examples.tracking) !! "sir-2"%string /\
    mkInstance "sir-2" (1001 * Second) "sir-2" SpotRequestPendingAWS ∈ out.
Proof.
  eexists _, _.
  assert (Hrun : listSpot Examples.accepting Examples.tracking = Done (Success _, _))
    by (vm_compute; reflexivity).
  split; [exact Hrun|].
  destruct (X11_invisible_request_stays_pending Examples.accepting Examples.tracking _ _
              "sir-2"%string
              (mkSpotRequest "sir-2" "open" (Some "pending-evaluation"%string) None None
                 (1001 * Second))
              (scripted_visits_each_once _ _ _ _) Hrun) as [Hkeep Hout].
  - vm_compute. reflexivity.
  - intros f l s Hin Hreq.
    assert (Hl : l = []).
    { vm_compute in Hin.
      repeat (apply elem_of_cons in Hin as [Hin|Hin]; [congruence|]).
      inversion Hin. }
    subst l. vm_compute in Hreq. injection Hreq as <-. reflexivity.
  - split; [rewrite Hkeep; vm_compute; reflexivity|]. apply Hout. reflexivity.
Defined.

(** X12. Every diagnostic that a successful tick writes for the user
    concerns a request whose status code is one of "capacity-not-available",
    "price-too-low", "bad-parameters", "constraint-not-fulfillable" and
    "limit-exceeded". *)
Theorem X12_attention_only_for_five_codes env m out m' code msg t :
  visits_each_once env ->
  listSpot env m = Done (Success out, m') ->
  EvUserAttention code msg t ∈ newEvents m m' ->
  code ∈ ["capacity-not-available"; "price-too-low"; "bad-parameters";
          "constraint-not-fulfillable"; "limit-exceeded"]%string.
Proof.
  intros Hord Hrun Hin.
  destruct (listSpot_run env m out m' Hord Hrun)
    as (l0 & listed & tags & look & looked & atts & l3 & canceled & term & described
        & _ & _ & Hev & Htags & Hlook & Hatts & Hterm & _).
  cbv zeta in Hlook. rewrite Hev in Hin. apply attentionCode_spec.
  apply tick_pieces in Hin as [H|[H|[H|[H|[H|[H|H]]]]]]; try off_piece H.
  - destruct Htags as [[_ ->]|[_ (r' & ->)]]; off_piece H.
  - destruct Hlook as [(_ & -> & _)|(_ & l1 & -> & _)]; off_piece H.
  - exact (attention_elem _ _ Hatts H).
  - destruct Hterm as [[_ ->]|[_ (r' & ->)]]; off_piece H.
Qed.

Lemma X12_attention_only_for_five_codes_witness :
  exists out m',
    listSpot Examples.starved Examples.fresh = Done (Success out, m') /\
    EvUserAttention "capacity-not-available" "no capacity" (1001 * Second)
      ∈ newEvents Examples.fresh m' /\
    "capacity-not-available"%string
      ∈ ["capacity-not-available"; "price-too-low"; "bad-parameters";
         "constraint-not-fulfillable"; "limit-exceeded"]%string.
Proof.
  eexists _, _.
  assert (Hrun : listSpot Examples.starved Examples.fresh = Done (Success _, _))
    by (vm_compute; reflexivity).
  split; [exact Hrun|].
  match type of Hrun with
  | _ = Done (_, ?m1) =>
      assert (Hin : EvUserAttention "capacity-not-available" "no capacity" (1001 * Second)
                      ∈ newEvents Examples.fresh m1)
        by (apply (list_elem_of_lookup_2 _ 1%nat); vm_compute; reflexivity)
  end.
  split; [exact Hin|].
  exact (X12_attention_only_for_five_codes Examples.starved Examples.fresh _ _ _ _ _
           (scripted_visits_each_once _ _ _ _) Hrun Hin).
Defined.

Lemma gap_lookup (listed t : setOfSpotRequests) id :
  ReqSet.deleteIntersection listed (listed ∪ t) !! id =
    match listed !! id with Some _ => None | None => t !! id end.
Proof.
  unfold ReqSet.deleteIntersection.
  destruct (listed !! id) as [q|] eqn:E.
  - apply lookup_difference_None. right. eauto.
  - destruct (t !! id) as [r|] eqn:Et.
    + apply lookup_difference_Some. split; [|exact E].
      rewrite lookup_union, E, Et. reflexivity.
    + apply lookup_difference_None. left. rewrite lookup_union, E, Et. reflexivity.
Qed.

Lemma gap_keyed (listed t : setOfSpotRequests) :
  keyed t -> keyed (ReqSet.deleteIntersection listed (listed ∪ t)).
Proof.
  intros Hk id r Hl. rewrite gap_lookup in Hl.
  destruct (listed !! id); [discriminate|]. eapply Hk, Hl.
Qed.

(** X13. The lookup by identifier of a successful tick asks for exactly
    the identifiers that were tracked when the tick began and that the list
    of active requests does not hold, each once; it is made whenever there is
    such an identifier, and not otherwise. *)
Theorem X13_lookup_asks_for_unlisted env m out m' :
  visits_each_once env ->
  keyed (trackedReqs (spot m)) ->
  listSpot env m = Done (Success out, m') ->
  exists listed,
    tickListed m m' listed /\
    (forall ids r,
        EvDescribeSpotInstanceRequests (FilterRequestID ids) r ∈ newEvents m m' ->
        NoDup ids /\
        forall id,
          id ∈ ids <-> is_Some (trackedReqs (spot m) !! id) /\ listed !! id = None) /\
    ((exists id, is_Some (trackedReqs (spot m) !! id) /\ listed !! id = None) ->
     exists ids r,
       EvDescribeSpotInstanceRequests (FilterRequestID ids) r ∈ newEvents m m').
Proof.
  intros Hord Hkeyed Hrun.
  destruct (listSpot_run env m out m' Hord Hrun)
    as (l0 & listed & tags & look & looked & atts & l3 & canceled & term & described
        & Hreq0 & _ & Hev & Htags & Hlook & Hatts & Hterm & _).
  cbv zeta in Hlook.
  rewrite (unionTracked_union env listed _ Hord (requestsOf_keyed _ _ Hreq0)) in Hlook.
  set (gap := ReqSet.deleteIntersection listed (listed ∪ trackedReqs (spot m))) in *.
  assert (Hgk : keyed gap) by (apply gap_keyed, Hkeyed).
  assert (Hgap : forall id,
             id ∈ idsAsListOfPointers env gap <->
             is_Some (trackedReqs (spot m) !! id) /\ listed !! id = None).
  { intros id. unfold idsAsListOfPointers. rewrite list_elem_of_fmap. split.
    - intros (r & -> & Hin). apply (iter_lookup env gap r Hord Hgk) in Hin.
      unfold gap in Hin. rewrite gap_lookup in Hin.
      destruct (listed !! SpotRequestID r); [discriminate|]. eauto.
    - intros [[r Hr] Hl].
      assert (Hg : gap !! id = Some r) by (unfold gap; rewrite gap_lookup, Hl; exact Hr).
      exists r. split; [symmetry; eapply Hgk, Hg|]. eapply visits_lookup; eassumption. }
  exists listed. split; [exists l0; rewrite Hev; auto|]. split.
  - intros ids r Hin. rewrite Hev in Hin.
    apply tick_pieces in Hin as [H|[H|[H|[H|[H|[H|H]]]]]]; try off_piece H.
    + destruct Htags as [[_ ->]|[_ (r' & ->)]]; off_piece H.
    + destruct Hlook as [(_ & -> & _)|(_ & l1 & -> & _)]; [off_piece H|].
      apply list_elem_of_singleton in H. injection H as -> _.
      split; [apply iter_ids_NoDup; assumption | exact Hgap].
    + apply (attention_elem _ _ Hatts) in H. discriminate H.
    + destruct Hterm as [[_ ->]|[_ (r' & ->)]]; off_piece H.
  - intros (id & Hid). apply Hgap in Hid.
    destruct Hlook as [(Hnil & _)|(_ & l1 & -> & _)].
    + rewrite Hnil in Hid. inversion Hid.
    + eexists _, _. rewrite Hev. apply tick_pieces. right. right. left.
      apply list_elem_of_singleton. reflexivity.
Qed.

Lemma X13_lookup_asks_for_unlisted_witness :
  exists out m',
    listSpot Examples.accepting Examples.tracking = Done (Success out, m') /\
    EvDescribeSpotInstanceRequests (FilterRequestID ["sir-2"%string]) (Success [])
      ∈ newEvents Examples.tracking m' /\
    is_Some (trackedReqs (spot Examples.tracking) !! "sir-2"%string).
Proof.
  eexists _, _.
  assert (Hrun : listSpot Examples.accepting Examples.tracking = Done (Success _, _))
    by (vm_compute; reflexivity).
  split; [exact Hrun|].
  match type of Hrun with
  | _ = Done (_, ?m1) =>
      assert (Hin : EvDescribeSpotInstanceRequests (FilterRequestID ["sir-2"%string])
                      (Success [])
                      ∈ newEvents Examples.tracking m1)
        by (apply (list_elem_of_lookup_2 _ 1%nat); vm_compute; reflexivity)
  end.
  split; [exact Hin|].
  assert (Hkeyed : keyed (trackedReqs (spot Examples.tracking))).
  { intros id r Hl. unfold Examples.tracking in Hl. cbn [spot trackedReqs] in Hl.
    unfold ReqSet.add, ReqSet.newSetOfSpotRequests in Hl. cbn [SpotRequestID] in Hl.
    destruct (decide ("sir-2"%string = id)) as [<-|Hne].
    - rewrite lookup_insert_eq in Hl. injection Hl as <-. reflexivity.
    - rewrite lookup_insert_ne, lookup_empty in Hl by exact Hne. discriminate. }
  destruct (X13_lookup_asks_for_unlisted Examples.accepting Examples.tracking _ _
              (scripted_visits_each_once _ _ _ _) Hkeyed Hrun)
    as (listed & _ & Hask & _).
  apply (Hask _ _ Hin). apply list_elem_of_singleton. reflexivity.
Defined.

(** X14. A successful tick terminates the instances of the canceled
    requests whose instance still runs: the termination call is made exactly
    when the list of such requests is not empty, and it names exactly the
    instance identifiers of the requests of that list (none, when no request
    of the list carries one). *)
Theorem X14_orphaned_instances_terminated env m out m' :
  visits_each_once env ->
  listSpot env m = Done (Success out, m') ->
  exists l canceled,
    EvDescribeSpotInstanceRequests canceledFilter (Success l) ∈ newEvents m m' /\
    requestsOf l = Some canceled /\
    (forall ids r,
        EvTerminateInstances ids r ∈ newEvents m m' ->
        canceled <> ∅ /\
        forall i, i ∈ ids <->
                  exists q, q ∈ ReqSet.requests canceled /\ InstanceID q = Some i) /\
    (canceled <> ∅ -> exists ids r, EvTerminateInstances ids r ∈ newEvents m m').
Proof.
  intros Hord Hrun.
  destruct (listSpot_run env m out m' Hord Hrun)
    as (l0 & listed & tags & look & looked & atts & l3 & canceled & term & described
        & _ & Hreq3 & Hev & Htags & Hlook & Hatts & Hterm & _).
  cbv zeta in Hlook.
  exists l3, canceled. split.
  { rewrite Hev. apply tick_pieces. do 4 right. left. reflexivity. }
  split; [exact Hreq3|]. split.
  - intros ids r Hin. rewrite Hev in Hin.
    apply tick_pieces in Hin as [H|[H|[H|[H|[H|[H|H]]]]]]; try off_piece H.
    + destruct Htags as [[_ ->]|[_ (r' & ->)]]; off_piece H.
    + destruct Hlook as [(_ & -> & _)|(_ & l1 & -> & _)]; off_piece H.
    + apply (attention_elem _ _ Hatts) in H. discriminate H.
    + destruct Hterm as [[_ ->]|[Hsize (r' & ->)]]; [off_piece H|].
      apply list_elem_of_singleton in H. injection H as -> _. split.
      * intros ->. apply Hsize. apply map_size_empty.
      * intros i. unfold instanceIds, iter. rewrite (Hord canceled).
        apply list_elem_of_omap.
  - intros Hne. destruct Hterm as [[Hsize _]|[_ (r' & ->)]].
    + apply map_size_empty_iff in Hsize. contradiction.
    + eexists _, _. rewrite Hev. apply tick_pieces. do 5 right. left.
      apply list_elem_of_singleton. reflexivity.
Qed.

Lemma X14_orphaned_instances_terminated_witness :
  exists out m',
    listSpot Examples.orphaned Examples.fresh = Done (Success out, m') /\
    EvTerminateInstances ["i-z"%string] (Success tt) ∈ newEvents Examples.fresh m' /\
    exists l canceled,
      EvDescribeSpotInstanceRequests canceledFilter (Success l)
        ∈ newEvents Examples.fresh m' /\
      requestsOf l = Some canceled /\ canceled <> ∅.
Proof.
  eexists _, _.
  assert (Hrun : listSpot Examples.orphaned Examples.fresh = Done (Success _, _))
    by (vm_compute; reflexivity).
  split; [exact Hrun|].
  match type of Hrun with
  | _ = Done (_, ?m1) =>
      assert (Hin : EvTerminateInstances ["i-z"%string] (Success tt)
                      ∈ newEvents Examples.fresh m1)
        by (apply (list_elem_of_lookup_2 _ 2%nat); vm_compute; reflexivity)
  end.
  split; [exact Hin|].
  destruct (X14_orphaned_instances_terminated Examples.orphaned Examples.fresh _ _
              (scripted_visits_each_once _ _ _ _) Hrun)
    as (l & canceled & Hl & Hreq & Hcall & _).
  exists l, canceled. split; [exact Hl|]. split; [exact Hreq|].
  apply (Hcall _ _ Hin).
Defined.

(** * Further properties: a tick that fails *)

Lemma buildInstanceListFromTrackedReqs_failure env m :
  post (buildInstanceListFromTrackedReqs env) m (fun res m' =>
    forall e, res = Failure e ->
      exists e0 ids,
        e = Wrap e0 "cannot describe EC2 instances" /\
        last (history m') = Some (EvDescribeInstancesByID ids (Failure e0))).
Proof.
  unfold buildInstanceListFromTrackedReqs.
  apply post_bind, post_getSpot. rewrite splitTracked_spec.
  apply post_bind, post_callDescribeInstancesByID. intros answer.
  destruct answer as [described|e0].
  - apply post_bind. eapply post_mono; [apply post_any|]. cbn beta. intros ? ? _.
    apply post_ret. intros e H. discriminate.
  - apply post_ret. intros e H. injection H as <-. eexists e0, _.
    split; [reflexivity|]. cbn [history]. apply last_snoc.
Qed.

Lemma describe_failure resp (r : res setOfSpotRequests) e :
  match resp with
  | Failure e0 => r = Failure e0
  | Success l => exists s, r = Success s /\ requestsOf l = Some s
  end ->
  r = Failure e -> resp = Failure e.
Proof.
  destruct resp as [l|e0].
  - intros (s & -> & _) H. discriminate.
  - intros -> H. injection H as ->. reflexivity.
Qed.

Lemma listSpot_failure env m :
  post (listSpot env) m (fun res m' =>
    forall e, res = Failure e ->
      exists e0,
        (e = Wrap e0 "cannot describe EC2 spot requests" /\
         exists f, last (history m')
                   = Some (EvDescribeSpotInstanceRequests f (Failure e0))) \/
        (e = Wrap e0 "cannot describe EC2 instances" /\
         exists ids, last (history m')
                     = Some (EvDescribeInstancesByID ids (Failure e0)))).
Proof.
  unfold listSpot, listActiveSpotInstanceRequests,
    listCanceledButInstanceRunningSpotRequests.
  apply post_bind. eapply post_mono; [apply describeRequests_post|].
  cbn beta. intros listed m1 (_ & resp0 & Hh1 & Hr0).
  destruct listed as [listed|e1].
  2: { apply post_ret. intros e H. injection H as <-.
       rewrite (describe_failure _ _ _ Hr0 eq_refl) in Hh1.
       exists e1. left. split; [reflexivity|]. eexists. rewrite Hh1. apply last_snoc. }
  apply post_bind. eapply post_mono; [apply post_any|]. cbn beta. intros _ m2 _.
  apply post_bind. eapply post_mono; [apply post_any|]. cbn beta. intros _ m3 _.
  apply post_bind. eapply post_mono; [apply post_any|]. cbn beta. intros notify m4 _.
  apply post_bind, post_getSpot.
  apply post_bind. eapply post_mono; [apply listSpotRequestsByID_exact|].
  cbn beta. intros lookedR m5 (_ & Hlook).
  destruct lookedR as [looked|e1].
  2: { apply post_ret. intros e H. injection H as <-.
       destruct Hlook as [(_ & H & _)|(_ & resp & Hh5 & Hr)]; [discriminate|].
       rewrite (describe_failure _ _ _ Hr eq_refl) in Hh5.
       exists e1. left. split; [reflexivity|]. eexists. rewrite Hh5. apply last_snoc. }
  apply post_bind. eapply post_mono; [apply post_any|].
  cbn beta. intros [[missing' num'] notify'] m6 _. cbn iota beta.
  apply post_bind. eapply post_mono; [apply post_any|]. cbn beta. intros _ m7 _.
  apply post_bind. eapply post_mono; [apply describeRequests_post|].
  cbn beta. intros canceledR m8 (_ & resp3 & Hh8 & Hr3).
  destruct canceledR as [canceled|e1].
  2: { apply post_ret. intros e H. injection H as <-.
       rewrite (describe_failure _ _ _ Hr3 eq_refl) in Hh8.
       exists e1. left. split; [reflexivity|]. eexists. rewrite Hh8. apply last_snoc. }
  apply post_bind. eapply post_mono; [apply post_any|]. cbn beta. intros _ m9 _.
  apply post_bind. eapply post_mono; [apply buildInstanceListFromTrackedReqs_failure|].
  cbn beta. intros built m' Hfail.
  destruct built as [instances|e1]; apply post_ret; intros e H; [discriminate|].
  injection H as <-. destruct (Hfail e1 eq_refl) as (e0 & ids & -> & Hlast).
  exists e0. right. eauto.
Qed.

(** X15. A tick fails only on a description: the error it returns is the
    error of a failed DescribeSpotInstanceRequests wrapped as "cannot
    describe EC2 spot requests", or that of the failed description of the
    instances wrapped as "cannot describe EC2 instances", and the failed call
    is the last thing the tick did. A failed tagging or termination call
    never fails the tick. *)
Theorem X15_tick_fails_only_on_describe env m e m' :
  listSpot env m = Done (Failure e, m') ->
  exists e0,
    (e = Wrap e0 "cannot describe EC2 spot requests" /\
     exists f, last (history m')
               = Some (EvDescribeSpotInstanceRequests f (Failure e0))) \/
    (e = Wrap e0 "cannot describe EC2 instances" /\
     exists ids, last (history m')
                 = Some (EvDescribeInstancesByID ids (Failure e0))).
Proof. intros Hrun. exact (listSpot_failure env m _ _ Hrun e eq_refl). Qed.

Lemma X15_tick_fails_only_on_describe_witness :
  exists e m' e0,
    listSpot Examples.outage Examples.fresh = Done (Failure e, m') /\
    ((e = Wrap e0 "cannot describe EC2 spot requests" /\
      exists f, last (history m')
                = Some (EvDescribeSpotInstanceRequests f (Failure e0))) \/
     (e = Wrap e0 "cannot describe EC2 instances" /\
      exists ids, last (history m')
                  = Some (EvDescribeInstancesByID ids (Failure e0)))).
Proof.
  eexists _, _.
  assert (Hrun : listSpot Examples.outage Examples.fresh = Done (Failure _, _))
    by (vm_compute; reflexivity).
  destruct (X15_tick_fails_only_on_describe Examples.outage Examples.fresh _ _ Hrun)
    as (e0 & H).
  exists e0. split; [exact Hrun | exact H].
Defined.

(** * Further properties: [terminateSpot] *)

Lemma terminateSpot_exact env ids m :
  let inst := StrSet.asListOfPointers
                (list_to_set (filter (fun id => ~ hasPrefix id) ids) : setOfStrings) in
  let pend := StrSet.asListOfPointers
                (list_to_set (filter hasPrefix ids) : setOfStrings) in
  exists m' r,
    terminateSpot env (Some <$> ids) m = Done (tt, m') /\
    newEvents m m' =
      match inst with [] => [] | _ => [EvTerminateOnDemand inst] end
      ++ match pend with
         | [] => []
         | _ => [EvCancelSpotInstanceRequests (Some <$> pend) r]
         end.
Proof.
  intros inst pend. unfold terminateSpot. rewrite length_fmap.
  destruct (length ids =? 0)%nat eqn:Elen.
  { apply Nat.eqb_eq, nil_length_inv in Elen. subst inst pend. subst ids.
    exists m, (Success tt). cbn [fmap list_fmap]. split; [reflexivity|].
    unfold newEvents. rewrite drop_all.
    unfold StrSet.asListOfPointers. rewrite !filter_nil. cbn [list_to_set foldr].
    rewrite elements_empty. reflexivity. }
  unfold bind at 1. rewrite partitionIDs_spec.
  unfold StrSet.newSetOfStrings. rewrite !(right_id_L ∅ (∪)).
  fold inst. unfold StrSet.length.
  change (StrSet.asListOfPointers (list_to_set (filter hasPrefix ids))) with pend.
  assert (Hsize : (0 <? size (list_to_set (filter (fun id => ~ hasPrefix id) ids)
                                : setOfStrings))%nat
                  = match inst with [] => false | _ => true end).
  { unfold inst, StrSet.asListOfPointers.
    destruct (elements _) as [|x l] eqn:E.
    - apply elements_empty_iff in E. apply Nat.ltb_ge.
      apply size_empty_iff in E. rewrite E. lia.
    - apply Nat.ltb_lt. destruct (size _) eqn:Es; [|lia].
      apply size_empty_iff, elements_empty_iff in Es. congruence. }
  rewrite Hsize.
  unfold terminateSpotInstanceRequests, terminateOnDemand, emit, CancelSpotInstanceRequests,
    bind, ret.
  rewrite length_fmap.
  destruct inst as [|i inst']; destruct pend as [|p pend']; cbn [length Nat.eqb spot history];
    eexists _, _; (split; [reflexivity|]); apply newEvents_app; cbn [history];
    rewrite <- ?app_assoc; first [reflexivity | symmetry; apply app_nil_r].
  Unshelve. all: exact (Success tt).
Qed.

(** X16. [terminateSpot] makes at most two calls, the termination of
    instances first and the cancellation of spot requests second, each only
    when it has an identifier to name; each identifier is named once, however
    often the input repeats it. The answer of the cancellation is not looked
    at. *)
Theorem X16_termination_before_cancellation env ids m :
  exists m' inst pend r,
    terminateSpot env (Some <$> ids) m = Done (tt, m') /\
    NoDup inst /\ NoDup pend /\
    (forall id, id ∈ inst <-> id ∈ ids /\ ~ hasPrefix id) /\
    (forall id, id ∈ pend <-> id ∈ ids /\ hasPrefix id) /\
    newEvents m m' =
      match inst with [] => [] | _ => [EvTerminateOnDemand inst] end
      ++ match pend with
         | [] => []
         | _ => [EvCancelSpotInstanceRequests (Some <$> pend) r]
         end.
Proof.
  destruct (terminateSpot_exact env ids m) as (m' & r & Hrun & Hev). cbv zeta in Hev.
  unfold StrSet.asListOfPointers in Hev.
  exists m', (elements (list_to_set (filter (fun id => ~ hasPrefix id) ids) : setOfStrings)),
    (elements (list_to_set (filter hasPrefix ids) : setOfStrings)), r.
  split; [exact Hrun|].
  split; [apply NoDup_elements|]. split; [apply NoDup_elements|].
  split; [|split; [|exact Hev]].
  - intros id. rewrite elem_of_elements, elem_of_list_to_set, list_elem_of_filter. tauto.
  - intros id. rewrite elem_of_elements, elem_of_list_to_set, list_elem_of_filter. tauto.
Qed.

Lemma partitionIDs_nil ids a b m :
  None ∈ ids -> partitionIDs ids a b m = Panic.
Proof.
  revert a b. induction ids as [|[id|] ids IH]; intros a b Hin; cbn [partitionIDs].
  - inversion Hin.
  - apply elem_of_cons in Hin as [Hin|Hin]; [discriminate|].
    unfold bind, deref, ret. destruct (String.prefix _ _); apply IH, Hin.
  - reflexivity.
Qed.

Lemma all_some (ids : list (option string)) :
  None ∉ ids -> exists l, ids = Some <$> l.
Proof.
  induction ids as [|[id|] ids IH]; intros Hnot.
  - exists []. reflexivity.
  - apply not_elem_of_cons in Hnot as [_ Hnot]. destruct (IH Hnot) as (l & ->).
    exists (id :: l). reflexivity.
  - exfalso. apply Hnot. apply list_elem_of_here.
Qed.

(** X17. [terminateSpot] dereferences every identifier it is given: it
    panics exactly when the list holds a nil pointer, wherever in the list,
    and then before any call is made. *)
Theorem X17_terminate_panics_on_nil env ids m :
  terminateSpot env ids m = Panic <-> None ∈ ids.
Proof.
  split.
  - intros Hpanic. destruct (decide (None ∈ ids)) as [Hin|Hnot]; [exact Hin|].
    destruct (all_some ids Hnot) as (l & ->).
    destruct (terminateSpot_exact env l m) as (m' & r & Hrun & _).
    rewrite Hrun in Hpanic. discriminate.
  - intros Hin. unfold terminateSpot.
    destruct ids as [|x ids]; [inversion Hin|]. cbn [length Nat.eqb].
    unfold bind at 1. rewrite (partitionIDs_nil _ _ _ _ Hin). reflexivity.
Qed.

(** * Further properties: the calibration's unchecked answer *)

Lemma cleanUpCalibration_no_panic env fuel id m :
  cleanUpCalibration env fuel id m <> Panic.
Proof.
  revert m. induction fuel as [|fuel IH]; intros m; cbn [cleanUpCalibration].
  - discriminate.
  - unfold bind, terminateSpotInstanceRequests. cbn [length Nat.eqb].
    unfold CancelSpotInstanceRequests. cbv zeta.
    destruct (clientCancelSpotInstanceRequests env (history m) [id]) as [[]|[code msg|msg]];
      try discriminate.
    destruct (negb (String.eqb code "InvalidSpotInstanceRequestID.NotFound"));
      [discriminate | apply IH].
Qed.

(** X18. The calibration reads the creation time of the first request of
    the creation answer without a check: when the remote answers the
    creation successfully, the calibration panics exactly when the answer
    holds no request or its first request has no creation time, and in no
    other case. *)
Theorem X18_calibration_panics_on_empty_answer env fuel m requests :
  (forall h i, clientRequestSpotInstances env h i = Success requests) ->
  attemptToApproximateClockSkew env fuel m = Panic <->
  head requests = None \/
  exists first, head requests = Some first /\ CreateTime first = None.
Proof.
  intros Hcreate.
  unfold attemptToApproximateClockSkew, createSpotInstanceRequest, Now, getSpot,
    RequestSpotInstances, bind.
  cbn [spot history]. rewrite Hcreate.
  destruct (head requests) as [first|]; cbn [deref ret].
  - destruct (CreateTime first) as [t1|] eqn:Ect; cbn [deref ret].
    + split.
      * intros Hpanic. exfalso.
        match type of Hpanic with
        | match ?c with _ => _ end = _ => destruct c as [[[] m2]| |] eqn:E
        end; try discriminate.
        eapply cleanUpCalibration_no_panic, E.
      * intros [H|(f & H & Hct)]; [discriminate|]. injection H as <-. congruence.
    + split; [|reflexivity]. intros _. right. eauto.
  - split; [|reflexivity]. intros _. left. reflexivity.
Qed.

Lemma X18_calibration_panics_on_empty_answer_witness :
  attemptToApproximateClockSkew Examples.rejecting 1 Examples.fresh <> Panic /\
  attemptToApproximateClockSkew
    (Examples.scripted (fun _ => Success []) (fun _ => Success []) (fun _ => Success tt)
       (fun _ => Success []))
    1 Examples.fresh = Panic.
Proof.
  split; [vm_compute; discriminate|].
  apply (X18_calibration_panics_on_empty_answer _ 1 Examples.fresh []).
  - intros h i. reflexivity.
  - left. reflexivity.
Defined.

(** * Further properties: the listing functions *)

Lemma recorded_add_some req id st status ct :
  SpotInstanceRequestId req = Some id -> ReqState req = Some st ->
  Status req = Some status -> CreateTime req = Some ct ->
  recorded req (mkSpotRequest id st (Code status) (Message status) (InstanceId req) ct).
Proof.
  intros H1 H2 H3 H4. unfold recorded. cbn.
  split; [exact H1|]. split; [exact H2|]. split; [eauto|]. split; [reflexivity | exact H4].
Qed.

Lemma collectRequests_records reqs acc m s m' :
  collectRequests reqs acc m = Done (s, m') ->
  (forall id r, s !! id = Some r ->
     acc !! id = Some r \/
     (SpotRequestID r = id /\ exists req, req ∈ reqs /\ recorded req r)) /\
  (forall req, req ∈ reqs ->
     exists id, SpotInstanceRequestId req = Some id /\ is_Some (s !! id)) /\
  (forall id, is_Some (acc !! id) -> is_Some (s !! id)).
Proof.
  revert acc. induction reqs as [|req reqs IH]; intros acc Hrun; cbn [collectRequests] in Hrun.
  - done_inv Hrun. split; [auto|]. split; [|auto]. intros req Hin. inversion Hin.
  - unfold bind, deref in Hrun.
    destruct (SpotInstanceRequestId req) as [id0|] eqn:E1; [|discriminate].
    destruct (ReqState req) as [st|] eqn:E2; [|discriminate].
    destruct (Status req) as [status|] eqn:E3; [|discriminate].
    destruct (CreateTime req) as [ct|] eqn:E4; [|discriminate].
    cbn in Hrun. destruct (IH _ Hrun) as (HA & HB & HC). split; [|split].
    + intros id r Hl. destruct (HA id r Hl) as [Hacc|(Hid & req' & Hin & Hrec)].
      * unfold ReqSet.add in Hacc. cbn [SpotRequestID] in Hacc.
        destruct (decide (id0 = id)) as [<-|Hne].
        -- rewrite lookup_insert_eq in Hacc. injection Hacc as <-. right.
           split; [reflexivity|]. exists req. split; [apply list_elem_of_here|].
           apply recorded_add_some; assumption.
        -- rewrite lookup_insert_ne in Hacc by exact Hne. left. exact Hacc.
      * right. split; [exact Hid|]. exists req'. split; [apply list_elem_of_further, Hin|].
        exact Hrec.
    + intros req' Hin. apply elem_of_cons in Hin as [->|Hin]; [|apply HB, Hin].
      exists id0. split; [exact E1|]. apply HC. unfold ReqSet.add. cbn [SpotRequestID].
      rewrite lookup_insert_eq. eauto.
    + intros id Hsome. apply HC. unfold ReqSet.add. cbn [SpotRequestID].
      destruct (decide (id0 = id)) as [<-|Hne].
      * rewrite lookup_insert_eq. eauto.
      * rewrite lookup_insert_ne by exact Hne. exact Hsome.
Qed.

(** X19. What the three listing functions (active requests, canceled
    requests whose instance runs, lookup by identifier) make of a successful
    answer of DescribeSpotInstanceRequests: one call with their filter, and a
    set that files under each identifier a record with the state, status code
    and message, instance identifier and creation time of a request of the
    answer with that identifier, and that holds an entry for every request
    of the answer. *)
Theorem X19_listing_records_the_answer env f m s m' :
  describeRequests env f m = Done (Success s, m') ->
  exists l,
    newEvents m m' = [EvDescribeSpotInstanceRequests f (Success l)] /\
    spot m' = spot m /\
    (forall id r, s !! id = Some r ->
       SpotRequestID r = id /\ exists req, req ∈ l /\ recorded req r) /\
    (forall req, req ∈ l ->
       exists id, SpotInstanceRequestId req = Some id /\ is_Some (s !! id)).
Proof.
  intros Hrun.
  destruct (describeRequests_post env f m _ _ Hrun) as (Hs & resp & Hh & Hr).
  destruct resp as [l|e]; [|discriminate].
  destruct Hr as (s' & Hs' & Hreq). injection Hs' as <-.
  exists l. split; [apply newEvents_app, Hh|]. split; [exact Hs|].
  unfold requestsOf in Hreq.
  destruct (collectRequests l ReqSet.newSetOfSpotRequests _) as [[s0 m0]| |] eqn:E;
    try discriminate.
  injection Hreq as ->.
  destruct (collectRequests_records _ _ _ _ _ E) as (HA & HB & _).
  split; [|exact HB].
  intros id r Hl. destruct (HA id r Hl) as [Hempty|H]; [|exact H].
  unfold ReqSet.newSetOfSpotRequests in Hempty. rewrite lookup_empty in Hempty. discriminate.
Qed.

Lemma X19_listing_records_the_answer_witness :
  exists s m' l,
    listActiveSpotInstanceRequests Examples.mixed Examples.fresh = Done (Success s, m') /\
    newEvents Examples.fresh m' = [EvDescribeSpotInstanceRequests activeFilter (Success l)].
Proof.
  eexists _, _.
  assert (Hrun : listActiveSpotInstanceRequests Examples.mixed Examples.fresh
                 = Done (Success _, _)) by (vm_compute; reflexivity).
  destruct (X19_listing_records_the_answer Examples.mixed activeFilter Examples.fresh _ _ Hrun)
    as (l & Hev & _).
  exists l. split; [exact Hrun | exact Hev].
Defined.

(** * Further properties: which operation writes which field *)

#[local] Instance sameSkew_refl : Reflexive sameSkew.
Proof. intros m. reflexivity. Qed.
#[local] Instance sameSkew_trans : Transitive sameSkew.
Proof. intros m1 m2 m3. unfold sameSkew. congruence. Qed.
#[local] Instance sameTracked_refl : Reflexive sameTracked.
Proof. intros m. reflexivity. Qed.
#[local] Instance sameTracked_trans : Transitive sameTracked.
Proof. intros m1 m2 m3. unfold sameTracked. congruence. Qed.

Lemma keeps_sameSpot_sameSkew {A} (c : M A) : keeps sameSpot c -> keeps sameSkew c.
Proof. intros H m a m' E. unfold sameSkew. rewrite (H m a m' E). reflexivity. Qed.

Lemma keeps_sameSpot_sameTracked {A} (c : M A) : keeps sameSpot c -> keeps sameTracked c.
Proof. intros H m a m' E. unfold sameTracked. rewrite (H m a m' E). reflexivity. Qed.

#[local] Hint Resolve keeps_sameSpot_sameSkew keeps_sameSpot_sameTracked | 5 : frame.

Lemma trackAll_sameSkew reqs : keeps sameSkew (trackAll reqs).
Proof.
  induction reqs as [|req reqs IH]; cbn [trackAll]; frame; try apply IH.
Qed.

Lemma trackCreated_sameSkew reqs : keeps sameSkew (trackCreated reqs).
Proof.
  induction reqs as [|req reqs IH]; cbn [trackCreated]; frame; try apply IH.
Qed.

Lemma processNewOrInactive_sameSkew reqs missing num notify :
  keeps sameSkew (processNewOrInactive reqs missing num notify).
Proof.
  revert missing num notify.
  induction reqs as [|req reqs IH]; intros missing num notify;
    cbn [processNewOrInactive]; frame; try apply IH.
Qed.

Lemma wrapper_sameSkew env n d :
  keeps sameSkew (createSpotInstanceRequestsCorrectingForClockSkew env n d).
Proof.
  intros m out m' Hrun.
  destruct (wrapper_spec env n d m) as (out' & m1 & atts & Hw & _ & _ & _ & Hs & _).
  rewrite Hw in Hrun. injection Hrun as _ <-. exact Hs.
Qed.

#[local] Hint Resolve trackAll_sameSkew trackCreated_sameSkew processNewOrInactive_sameSkew
  wrapper_sameSkew : frame.

Lemma listSpot_sameSkew env : keeps sameSkew (listSpot env).
Proof.
  unfold listSpot, listActiveSpotInstanceRequests,
    listCanceledButInstanceRunningSpotRequests.
  frame.
Qed.

Lemma launchSpot_sameSkew env n : keeps sameSkew (launchSpot env n).
Proof. unfold launchSpot. frame. Qed.

Lemma attemptToApproximateClockSkew_sameTracked env fuel :
  keeps sameTracked (attemptToApproximateClockSkew env fuel).
Proof. unfold attemptToApproximateClockSkew. frame. Qed.

(** X20. Each field of the engine's state has its writers. The
    calibration leaves the tracked set and the launch offset as they were (it
    does not track the request it creates); a tick leaves the skew and the
    offset; a launch leaves the skew; [terminateSpot] leaves all three (a
    cancelled request stays tracked until a later tick looks it up). *)
Theorem X20_each_field_has_its_writers env op m m' :
  runOperation env op m = Done (tt, m') ->
  match op with
  | OpApproximateClockSkew _ =>
      trackedReqs (spot m') = trackedReqs (spot m) /\
      launchTimeOffset (spot m') = launchTimeOffset (spot m)
  | OpListSpot =>
      approximateClockSkew (spot m') = approximateClockSkew (spot m) /\
      launchTimeOffset (spot m') = launchTimeOffset (spot m)
  | OpLaunchSpot _ =>
      approximateClockSkew (spot m') = approximateClockSkew (spot m)
  | OpTerminateSpot _ => spot m' = spot m
  end.
Proof.
  destruct op as [fuel| |n|ids]; cbn [runOperation]; intros Hrun.
  - split.
    + exact (attemptToApproximateClockSkew_sameTracked env fuel _ _ _ Hrun).
    + exact (attemptToApproximateClockSkew_sameOffset env fuel _ _ _ Hrun).
  - apply bind_inv in Hrun as (r & m1 & Hrun & Hret). done_inv Hret. split.
    + exact (listSpot_sameSkew env _ _ _ Hrun).
    + exact (listSpot_sameOffset env _ _ _ Hrun).
  - apply bind_inv in Hrun as (r & m1 & Hrun & Hret). done_inv Hret.
    exact (launchSpot_sameSkew env n _ _ _ Hrun).
  - exact (terminateSpot_sameSpot env ids _ _ _ Hrun).
Qed.

Lemma X20_each_field_has_its_writers_witness :
  exists m',
    runOperation Examples.accepting (OpLaunchSpot 1) Examples.fresh = Done (tt, m') /\
    approximateClockSkew (spot m') = approximateClockSkew (spot Examples.fresh) /\
    trackedReqs (spot m') <> trackedReqs (spot Examples.fresh).
Proof.
  eexists.
  assert (Hrun : runOperation Examples.accepting (OpLaunchSpot 1) Examples.fresh
                 = Done (tt, _)) by (vm_compute; reflexivity).
  split; [exact Hrun|]. split.
  - exact (X20_each_field_has_its_writers Examples.accepting (OpLaunchSpot 1)
             Examples.fresh _ Hrun).
  - vm_compute. discriminate.
Defined.

Lemma collectRequests_panics reqs acc m :
  collectRequests reqs acc m = Panic <->
  exists req, req ∈ reqs /\
    (SpotInstanceRequestId req = None \/ ReqState req = None \/
     Status req = None \/ CreateTime req = None).
Proof.
  revert acc. induction reqs as [|req reqs IH]; intros acc; cbn [collectRequests].
  - split; [discriminate|]. intros (req & Hin & _). inversion Hin.
  - unfold bind, deref.
    destruct (SpotInstanceRequestId req) as [id|] eqn:E1;
      [|split; [intros _; exists req; split; [apply list_elem_of_here | auto] | reflexivity]].
    destruct (ReqState req) as [st|] eqn:E2;
      [|split; [intros _; exists req; split; [apply list_elem_of_here | auto] | reflexivity]].
    destruct (Status req) as [status|] eqn:E3;
      [|split; [intros _; exists req; split; [apply list_elem_of_here | auto] | reflexivity]].
    destruct (CreateTime req) as [ct|] eqn:E4;
      [|split; [intros _; exists req; split; [apply list_elem_of_here | auto] | reflexivity]].
    cbn. rewrite IH. split.
    + intros (req' & Hin & H). exists req'. split; [apply list_elem_of_further, Hin | exact H].
    + intros (req' & Hin & H). apply elem_of_cons in Hin as [->|Hin]; [|eauto].
      destruct H as [H|[H|[H|H]]]; congruence.
Qed.

(** X21. The listing functions dereference the identifier, the state, the
    status and the creation time of every request of the answer without a
    check: a listing panics exactly when the remote answers successfully and
    some request of the answer lacks one of the four. *)
Theorem X21_listing_panics_on_nil_fields env f m :
  describeRequests env f m = Panic <->
  exists l req,
    clientDescribeSpotInstanceRequests env (history m) f = Success l /\
    req ∈ l /\
    (SpotInstanceRequestId req = None \/ ReqState req = None \/
     Status req = None \/ CreateTime req = None).
Proof.
  unfold describeRequests, DescribeSpotInstanceRequests, bind. cbv zeta.
  destruct (clientDescribeSpotInstanceRequests env (history m) f) as [l|e].
  - match goal with
    | |- match ?c with _ => _ end = _ <-> _ =>
        pose proof (collectRequests_panics l ReqSet.newSetOfSpotRequests
                      (mkMachine (spot m)
                         (history m ++ [EvDescribeSpotInstanceRequests f (Success l)])))
          as Hp;
        destruct c as [[s m1]| |] eqn:E
    end.
    + split; [discriminate|]. intros (l' & req & Hl & H). injection Hl as <-.
      assert (Hbad : Done (s, m1) = Panic) by (apply Hp; eauto). discriminate.
    + split; [|reflexivity]. intros _. destruct Hp as [Hp _].
      destruct (Hp eq_refl) as (req & H). eauto.
    + split; [discriminate|]. intros (l' & req & Hl & H). injection Hl as <-.
      assert (Hbad : OutOfFuel = Panic) by (apply Hp; eauto). discriminate.
  - split; [discriminate|]. intros (l' & req & Hl & _). discriminate.
Qed.
